(** * Kconfig symbol prefix adder: a shallow embedding

    The program under study is [kconfig_symbol_prefix_adder.py], a script
    that renames Kconfig symbols with a battery of [re.sub] calls.  Its
    behaviour is decided by Python's backtracking regular-expression
    semantics (greedy and lazy repetition, look-ahead, [\b], multi-line
    anchors, [IGNORECASE]) and by the replacement-template syntax, so the
    embedding starts with a small model of the [re] module and then
    follows the methods of [KConfigRenamer] one by one.

    Text is a list of characters with codes 0 to 255, read as the code
    points of a Python string (files are decoded before any pattern sees
    them).  Character classes and case folding follow Python's
    classification of that range; code points above 255 are outside the
    model. *)

From Stdlib Require Import String Ascii List Bool Arith Lia PeanoNat.
Import ListNotations.

Set Implicit Arguments.

(* ================================================================== *)
(** ** Characters and text *)
(* ================================================================== *)

Abbreviation text := (list ascii).

(** Text literals are written [txt "..."]. *)
Definition txt (s : string) : text := list_ascii_of_string s.

Definition nl : ascii := ascii_of_nat 10.
Definition tab : ascii := ascii_of_nat 9.
Definition backslash : ascii := ascii_of_nat 92.

Definition code (c : ascii) : nat := nat_of_ascii c.

Definition in_range (lo hi : nat) (c : ascii) : bool :=
  (lo <=? code c) && (code c <=? hi).

Definition is_upper (c : ascii) : bool := in_range 65 90 c.
Definition is_lower (c : ascii) : bool := in_range 97 122 c.
Definition is_digit (c : ascii) : bool := in_range 48 57 c.
Definition is_octdigit (c : ascii) : bool := in_range 48 55 c.
Definition is_ascii_letter (c : ascii) : bool := is_upper c || is_lower c.

(** [\s] and [str.strip]: Python's white space below 256 is TAB, LF, VT,
    FF, CR, the four separators 0x1c-0x1f, SPACE, NEL (0x85) and the
    no-break space (0xa0). *)
Definition is_space (c : ascii) : bool :=
  in_range 9 13 c || in_range 28 31 c || (code c =? 32)
  || (code c =? 133) || (code c =? 160).

(** Letters and numeric characters of the range 0x80-0xff: the ordinal
    indicators, the superscript digits, the micro sign, the fractions and
    the accented letters (all of 0xc0-0xff but the signs 0xd7 and 0xf7). *)
Definition is_latin1_alnum (c : ascii) : bool :=
  (code c =? 170) || in_range 178 179 c || (code c =? 181)
  || in_range 185 186 c || in_range 188 190 c
  || in_range 192 214 c || in_range 216 246 c || in_range 248 255 c.

(** [\w]: letters, digits and the underscore. *)
Definition is_word (c : ascii) : bool :=
  is_ascii_letter c || is_digit c || (code c =? 95) || is_latin1_alnum c.

(** Simple case folding, used by [IGNORECASE]: the capital letters A-Z
    and 0xc0-0xde (but 0xd7) have their small letter 32 places up. *)
Definition lower (c : ascii) : ascii :=
  if is_upper c || in_range 192 214 c || in_range 216 222 c
  then ascii_of_nat (code c + 32) else c.

Definition ascii_eqb (a b : ascii) : bool := Ascii.eqb a b.

Definition char_eq (ignorecase : bool) (a b : ascii) : bool :=
  if ignorecase then ascii_eqb (lower a) (lower b) else ascii_eqb a b.

Fixpoint text_eqb (a b : text) : bool :=
  match a, b with
  | [], [] => true
  | x :: a', y :: b' => ascii_eqb x y && text_eqb a' b'
  | _, _ => false
  end.

(** [s.startswith(p)] *)
Fixpoint startswith (p s : text) : bool :=
  match p, s with
  | [], _ => true
  | x :: p', y :: s' => ascii_eqb x y && startswith p' s'
  | _ :: _, [] => false
  end.

Fixpoint drop_while (p : ascii -> bool) (s : text) : text :=
  match s with
  | c :: s' => if p c then drop_while p s' else s
  | [] => []
  end.

(** [s.endswith(p)] *)
Definition endswith (p s : text) : bool :=
  startswith (rev p) (rev s).

(* ================================================================== *)
(** ** A model of Python's [re] *)
(* ================================================================== *)

Module Re.

(** The flags the script passes. *)
Record flags := Flags {
  IGNORECASE : bool;
  MULTILINE : bool;
  DOTALL : bool
}.

Definition no_flags := Flags false false false.
Definition M := Flags false true false.
Definition I := Flags true false false.
Definition MSI := Flags true true true.

(** Patterns.  Repetition is only ever applied to a single character
    class in the script's patterns, which is what [Star] covers; the
    boolean selects the greedy ([*]) or the lazy ([*?]) form. *)
Inductive regex : Type :=
| Eps : regex
| Lit : text -> regex                 (* literal text, as from [re.escape] *)
| Cls : (ascii -> bool) -> regex      (* one character of a class *)
| Dot : regex                         (* [.] *)
| Seq : regex -> regex -> regex
| Alt : regex -> regex -> regex
| Star : bool -> (ascii -> bool) -> regex
| Bol : regex                         (* [^] *)
| Eol : regex                         (* [$] *)
| WordB : regex                       (* [\b] *)
| Look : regex -> regex               (* [(?=...)] *)
| Group : nat -> regex -> regex.      (* capturing group number n *)

Definition Plus (greedy : bool) (p : ascii -> bool) : regex :=
  Seq (Cls p) (Star greedy p).

(** [r1 r2 ... rn] and [(?:r1|r2|...|rn)] *)
Fixpoint seq (rs : list regex) : regex :=
  match rs with
  | [] => Eps
  | [r] => r
  | r :: rs' => Seq r (seq rs')
  end.

Fixpoint alt (r : regex) (rs : list regex) : regex :=
  match rs with
  | [] => r
  | r' :: rs' => Alt r (alt r' rs')
  end.

(** The matcher's position: the character before the cursor (for [^] and
    [\b]), the offset from the start of the match, the text still to be
    read, and the spans of the groups closed so far. *)
Record mstate := MState {
  m_prev : option ascii;
  m_pos : nat;
  m_rest : text;
  m_caps : list (nat * (nat * nat))
}.

Definition word_opt (o : option ascii) : bool :=
  match o with Some c => is_word c | None => false end.

Definition next_char (s : text) : option ascii :=
  match s with c :: _ => Some c | [] => None end.

Definition at_word_boundary (prev : option ascii) (s : text) : bool :=
  xorb (word_opt prev) (word_opt (next_char s)).

Definition at_bol (fl : flags) (prev : option ascii) : bool :=
  match prev with
  | None => true
  | Some c => MULTILINE fl && ascii_eqb c nl
  end.

Definition at_eol (fl : flags) (s : text) : bool :=
  match s with
  | [] => true
  | c :: s' =>
      ascii_eqb c nl && (MULTILINE fl || match s' with [] => true | _ => false end)
  end.

Definition dot_ok (fl : flags) (c : ascii) : bool :=
  DOTALL fl || negb (ascii_eqb c nl).

Section Matcher.
Variable fl : flags.

(** A continuation returns the final position of a successful match. *)
Definition kont := mstate -> option mstate.

Definition orelse (a : option mstate) (b : unit -> option mstate)
  : option mstate :=
  match a with Some r => Some r | None => b tt end.

(** Literal text, character by character. *)
Fixpoint match_lit (l : text) (prev : option ascii) (pos : nat) (s : text)
         (caps : list (nat * (nat * nat))) (k : kont) : option mstate :=
  match l with
  | [] => k (MState prev pos s caps)
  | x :: l' =>
      match s with
      | c :: s' =>
          if char_eq (IGNORECASE fl) x c
          then match_lit l' (Some c) (S pos) s' caps k
          else None
      | [] => None
      end
  end.

(** [p*]: take as many as possible, give back one at a time. *)
Fixpoint star_greedy (p : ascii -> bool) (prev : option ascii) (pos : nat)
         (s : text) (caps : list (nat * (nat * nat))) (k : kont) : option mstate :=
  match s with
  | c :: s' =>
      if p c
      then orelse (star_greedy p (Some c) (S pos) s' caps k)
                  (fun _ => k (MState prev pos s caps))
      else k (MState prev pos s caps)
  | [] => k (MState prev pos s caps)
  end.

(** [p*?]: try to go on first, take one more only on failure. *)
Fixpoint star_lazy (p : ascii -> bool) (prev : option ascii) (pos : nat)
         (s : text) (caps : list (nat * (nat * nat))) (k : kont) : option mstate :=
  orelse (k (MState prev pos s caps))
         (fun _ => match s with
                   | c :: s' =>
                       if p c then star_lazy p (Some c) (S pos) s' caps k
                       else None
                   | [] => None
                   end).

(** The backtracking matcher, in continuation-passing style: [k] is
    what remains of the pattern; the first alternative that lets the
    whole pattern succeed wins. *)
Fixpoint run (r : regex) (st : mstate) (k : kont) : option mstate :=
  match r with
  | Eps => k st
  | Lit l => match_lit l (m_prev st) (m_pos st) (m_rest st) (m_caps st) k
  | Cls p =>
      match m_rest st with
      | c :: s' =>
          if p c then k (MState (Some c) (S (m_pos st)) s' (m_caps st))
          else None
      | [] => None
      end
  | Dot =>
      match m_rest st with
      | c :: s' =>
          if dot_ok fl c then k (MState (Some c) (S (m_pos st)) s' (m_caps st))
          else None
      | [] => None
      end
  | Seq r1 r2 => run r1 st (fun st' => run r2 st' k)
  | Alt r1 r2 => orelse (run r1 st k) (fun _ => run r2 st k)
  | Star true p =>
      star_greedy p (m_prev st) (m_pos st) (m_rest st) (m_caps st) k
  | Star false p =>
      star_lazy p (m_prev st) (m_pos st) (m_rest st) (m_caps st) k
  | Bol => if at_bol fl (m_prev st) then k st else None
  | Eol => if at_eol fl (m_rest st) then k st else None
  | WordB => if at_word_boundary (m_prev st) (m_rest st) then k st else None
  | Look r1 =>
      match run r1 st (fun st' => Some st') with
      | Some _ => k st
      | None => None
      end
  | Group n r1 =>
      run r1 st (fun st' =>
        k (MState (m_prev st') (m_pos st') (m_rest st')
                  ((n, (m_pos st, m_pos st')) :: m_caps st')))
  end.
End Matcher.

(** One attempt at a fixed start.  [must_advance] is set by the scanning
    loop right after an empty match: a match that ends where it starts is
    then refused and the matcher backtracks. *)
Definition match_at (fl : flags) (r : regex) (must_advance : bool)
           (prev : option ascii) (s : text) : option mstate :=
  run fl r (MState prev 0 s [])
      (fun st => if must_advance && (m_pos st =? 0) then None else Some st).

(** What the scanning loop of [sub] and [findall] sees, left to right:
    characters outside every match, and matches (the text at the start of
    the match with the matcher's final state). *)
Inductive piece : Type :=
| Keep : ascii -> piece
| Hit : text -> mstate -> piece.

(** The loop of [pattern.sub] / [pattern.finditer]: search the leftmost
    match from the current position, resume at its end; [skip] counts the
    characters of the current match still to be stepped over. *)
Fixpoint scan (fl : flags) (r : regex) (prev : option ascii) (s : text)
         (skip : nat) : list piece :=
  match s with
  | [] =>
      match skip with
      | S _ => []
      | O =>
          match match_at fl r false prev [] with
          | Some st => [Hit [] st]
          | None => []
          end
      end
  | c :: s' =>
      match skip with
      | S n => scan fl r (Some c) s' n
      | O =>
          match match_at fl r false prev s with
          | Some st =>
              match m_pos st with
              | S n => Hit s st :: scan fl r (Some c) s' n
              | O =>
                  Hit s st ::
                  match match_at fl r true prev s with
                  | Some st2 =>
                      match m_pos st2 with
                      | S n => Hit s st2 :: scan fl r (Some c) s' n
                      | O => Keep c :: scan fl r (Some c) s' 0
                      end
                  | None => Keep c :: scan fl r (Some c) s' 0
                  end
              end
          | None => Keep c :: scan fl r (Some c) s' 0
          end
      end
  end.

Definition finditer (fl : flags) (r : regex) (s : text) : list piece :=
  scan fl r None s 0.

(** [m.group(0)] and [m.group(n)]. *)
Definition group0 (s : text) (st : mstate) : text := firstn (m_pos st) s.

Fixpoint cap_lookup (n : nat) (caps : list (nat * (nat * nat)))
  : option (nat * nat) :=
  match caps with
  | [] => None
  | (i, span) :: caps' => if i =? n then Some span else cap_lookup n caps'
  end.

Definition group (n : nat) (s : text) (st : mstate) : text :=
  match n with
  | O => group0 s st
  | _ =>
      match cap_lookup n (m_caps st) with
      | Some (a, b) => firstn (b - a) (skipn a s)
      | None => []
      end
  end.

(** *** Replacement templates ([sre_parse.parse_template])

    A template is literal text with escapes: a backslash followed by
    digits is a group reference or an octal escape, [\g<n>] is a group
    reference, the usual control escapes stand for their character, and a
    backslash before any other ASCII letter is an error.  [None] stands
    for the exception [re.error] (or [IndexError]). *)
Inductive titem : Type :=
| TChar : ascii -> titem
| TGroup : nat -> titem.

Inductive tmode : Type :=
| TNormal : tmode
| TEsc : tmode                       (* after a backslash *)
| TZero : nat -> nat -> tmode        (* after [\0]: value, digits still allowed *)
| TDigit : nat -> tmode              (* after [\d], d in 1..9 *)
| TDigit2 : nat -> nat -> tmode      (* after [\dd] *)
| TGOpen : tmode                     (* after [\g] *)
| TGName : option nat -> tmode.      (* after [\g<]: the number read so far *)

Definition digit_val (c : ascii) : nat := code c - 48.

Definition escape_char (c : ascii) : option ascii :=
  match code c with
  | 97 => Some (ascii_of_nat 7)      (* a: BEL *)
  | 98 => Some (ascii_of_nat 8)      (* b: BS *)
  | 102 => Some (ascii_of_nat 12)    (* f: FF *)
  | 110 => Some (ascii_of_nat 10)    (* n: LF *)
  | 114 => Some (ascii_of_nat 13)    (* r: CR *)
  | 116 => Some (ascii_of_nat 9)     (* t: TAB *)
  | 118 => Some (ascii_of_nat 11)    (* v: VT *)
  | 92 => Some backslash             (* a doubled backslash *)
  | _ => None
  end.

Definition add_group (ngroups idx : nat) : option titem :=
  if idx <=? ngroups then Some (TGroup idx) else None.

Definition cons_opt (x : option titem) (r : option (list titem))
  : option (list titem) :=
  match x, r with
  | Some i, Some l => Some (i :: l)
  | _, _ => None
  end.

Section Template.
Variable ngroups : nat.

(** What a pending escape stands for when the template ends. *)
Definition tflush (m : tmode) : option (list titem) :=
  match m with
  | TNormal => Some []
  | TEsc => None
  | TZero v _ => Some [TChar (ascii_of_nat (v mod 256))]
  | TDigit d => cons_opt (add_group ngroups d) (Some [])
  | TDigit2 d e => cons_opt (add_group ngroups (10 * d + e)) (Some [])
  | TGOpen => None
  | TGName _ => None
  end.

Fixpoint tparse (m : tmode) (s : text) {struct s} : option (list titem) :=
  match s with
  | [] => tflush m
  | c :: s' =>
      (* reading [c] outside any escape *)
      let normal :=
        if ascii_eqb c backslash then tparse TEsc s'
        else cons_opt (Some (TChar c)) (tparse TNormal s') in
      match m with
      | TNormal => normal
      | TEsc =>
          if code c =? 103 then tparse TGOpen s'
          else if code c =? 48 then tparse (TZero 0 2) s'
          else if is_digit c then tparse (TDigit (digit_val c)) s'
          else
            match escape_char c with
            | Some e => cons_opt (Some (TChar e)) (tparse TNormal s')
            | None =>
                if is_ascii_letter c then None
                else cons_opt (Some (TChar backslash))
                       (cons_opt (Some (TChar c)) (tparse TNormal s'))
            end
      | TZero v (S n) =>
          if is_octdigit c then tparse (TZero (8 * v + digit_val c) n) s'
          else cons_opt (Some (TChar (ascii_of_nat (v mod 256)))) normal
      | TZero v O =>
          cons_opt (Some (TChar (ascii_of_nat (v mod 256)))) normal
      | TDigit d =>
          if is_digit c then tparse (TDigit2 d (digit_val c)) s'
          else cons_opt (add_group ngroups d) normal
      | TDigit2 d e =>
          if (d <=? 7) && (e <=? 7) && is_octdigit c then
            let v := 64 * d + 8 * e + digit_val c in
            if v <=? 255
            then cons_opt (Some (TChar (ascii_of_nat v))) (tparse TNormal s')
            else None
          else cons_opt (add_group ngroups (10 * d + e)) normal
      | TGOpen =>
          if code c =? 60 then tparse (TGName None) s' else None
      | TGName acc =>
          if code c =? 62 then
            match acc with
            | Some idx => cons_opt (add_group ngroups idx) (tparse TNormal s')
            | None => None
            end
          else if is_digit c then
            tparse (TGName (Some (10 * match acc with Some v => v | None => 0 end
                                  + digit_val c))) s'
          else None
      end
  end.

Definition parse_template (repl : text) : option (list titem) :=
  tparse TNormal repl.
End Template.

Definition expand (tpl : list titem) (s : text) (st : mstate) : text :=
  flat_map (fun i => match i with
                     | TChar c => [c]
                     | TGroup n => group n s st
                     end) tpl.

(** [re.sub] with a callable replacement; the callable may raise. *)
Fixpoint join_pieces (f : text -> mstate -> option text) (ps : list piece)
  : option text :=
  match ps with
  | [] => Some []
  | Keep c :: ps' =>
      match join_pieces f ps' with
      | Some t => Some (c :: t)
      | None => None
      end
  | Hit s st :: ps' =>
      match f s st, join_pieces f ps' with
      | Some w, Some t => Some (w ++ t)
      | _, _ => None
      end
  end.

Definition sub_fn (fl : flags) (r : regex) (f : text -> option text)
           (s : text) : option text :=
  join_pieces (fun s0 st => f (group0 s0 st)) (finditer fl r s).

(** [re.sub] with a template; the template is compiled before the
    search, so a bad template raises even when nothing matches. *)
Definition sub (fl : flags) (r : regex) (ngroups : nat) (repl : text)
           (s : text) : option text :=
  match parse_template ngroups repl with
  | None => None
  | Some tpl => join_pieces (fun s0 st => Some (expand tpl s0 st)) (finditer fl r s)
  end.

(** [re.findall] for a pattern with one group and with two groups. *)
Definition hits (ps : list piece) : list (text * mstate) :=
  flat_map (fun p => match p with
                     | Keep _ => []
                     | Hit s st => [(s, st)]
                     end) ps.

Definition findall1 (fl : flags) (r : regex) (s : text) : list text :=
  map (fun h => group 1 (fst h) (snd h)) (hits (finditer fl r s)).

Definition findall2 (fl : flags) (r : regex) (s : text) : list (text * text) :=
  map (fun h => (group 1 (fst h) (snd h), group 2 (fst h) (snd h)))
      (hits (finditer fl r s)).

End Re.

(* ================================================================== *)
(** ** The patterns of [KConfigRenamer] *)
(* ================================================================== *)

Module Patterns.
Import Re.

(** The source pattern is quoted above each definition; where a star is
    followed by a closing parenthesis a blank is inserted between them. *)

Definition ws : ascii -> bool := is_space.                       (* \s *)
Definition non_ws (c : ascii) : bool := negb (is_space c).       (* \S, [^\s] *)
Definition hash : ascii := ascii_of_nat 35.
Definition not_hash (c : ascii) : bool := negb (ascii_eqb c hash).          (* [^#] *)
Definition not_hash_nl (c : ascii) : bool :=
  negb (ascii_eqb c hash) && negb (ascii_eqb c nl).                         (* [^#\n] *)
Definition sym_char (c : ascii) : bool :=
  is_upper c || is_digit c || (code c =? 95).                               (* [A-Z0-9_] *)

Definition kw (s : string) : regex := Lit (txt s).

(** [find_all_subsymbols]:
    "^\s*(config|menuconfig)\s+(SYMBOL[A-Z0-9_]* )\s*$" *)
Definition config_pattern (symbol : text) : regex :=
  seq [Bol; Star true ws; Group 1 (Alt (kw "config") (kw "menuconfig"));
       Plus true ws; Group 2 (Seq (Lit symbol) (Star true sym_char));
       Star true ws; Eol].

(** "^\s*choice\s+(SYMBOL[A-Z0-9_]* )\s*$" *)
Definition choice_pattern (symbol : text) : regex :=
  seq [Bol; Star true ws; kw "choice"; Plus true ws;
       Group 1 (Seq (Lit symbol) (Star true sym_char)); Star true ws; Eol].

(** Every template-based rule has the shape [(before)OLD(after)]. *)
Definition around (before : regex) (old : text) (after : regex) : regex :=
  seq [Group 1 before; Lit old; Group 2 after].

(** 1. "^(\s*(?:config|menuconfig)\s+)OLD(\s* )$" *)
Definition rule1 (old : text) : regex :=
  seq [Bol;
       around (seq [Star true ws; Alt (kw "config") (kw "menuconfig"); Plus true ws])
              old (Star true ws);
       Eol].

(** A line-anchored [keyword OLD]: "^(\s*KEYWORD\s+)OLD(\s* )$" *)
Definition keyword_line (keyword : string) (old : text) : regex :=
  seq [Bol; around (seq [Star true ws; kw keyword; Plus true ws]) old (Star true ws);
       Eol].

(** 2. "^(\s*if\s+)OLD(\s* )$" *)
Definition rule2 := keyword_line "if".

(** 3. "^(\s*endif\s*#\s* )OLD(\s* )$" *)
Definition rule3 (old : text) : regex :=
  seq [Bol;
       around (seq [Star true ws; kw "endif"; Star true ws; kw "#"; Star true ws])
              old (Star true ws);
       Eol].

(** 4. "(\bdepends\s+on\s+[^#\n]*\b)OLD(\b)" *)
Definition rule4 (old : text) : regex :=
  around (seq [WordB; kw "depends"; Plus true ws; kw "on"; Plus true ws;
               Star true not_hash_nl; WordB])
         old WordB.

(** 5. "^(\s*select\s+)OLD(\s* )$" *)
Definition rule5 := keyword_line "select".

(** 6. "depends\s+on\s+[^#]*?(?=\n\s*(?:config|...|visible|\S|$))" and,
    inside each match, "\bOLD\b". *)
Definition multiline_depends_pattern : regex :=
  seq [kw "depends"; Plus true ws; kw "on"; Plus true ws; Star false not_hash;
       Look (seq [Lit [nl]; Star true ws;
                  alt (kw "config")
                      [kw "menuconfig"; kw "choice"; kw "endchoice"; kw "if";
                       kw "endif"; kw "help"; kw "---help---"; kw "default";
                       kw "select"; kw "range"; kw "imply"; kw "visible";
                       Cls non_ws; Eol]])].

Definition whole_word (old : text) : regex := seq [WordB; Lit old; WordB].

(** 7. "^(\s*default\s+)OLD(\s* )$" *)
Definition rule7 := keyword_line "default".

(** 8. "^(\s*choice\s+)OLD(\s* )$" and "^(\s*choice\s+)OLD(\b.*?)$" *)
Definition rule8a := keyword_line "choice".
Definition rule8b (old : text) : regex :=
  seq [Bol;
       around (seq [Star true ws; kw "choice"; Plus true ws]) old
              (Seq WordB (Star false (dot_ok M)));
       Eol].

(** 9. "^(\s*imply\s+)OLD(\s* )$" *)
Definition rule9 := keyword_line "imply".

(** 10. "(\bif\s+)OLD(\b)" *)
Definition rule10 (old : text) : regex :=
  around (seq [WordB; kw "if"; Plus true ws]) old WordB.

(** 11. "^(\s*range\s+[^\s]+\s+)OLD(\s* )$" and
        "^(\s*range\s+)OLD(\s+[^\s]+\s* )$" *)
Definition rule11a (old : text) : regex :=
  seq [Bol;
       around (seq [Star true ws; kw "range"; Plus true ws; Plus true non_ws;
                    Plus true ws])
              old (Star true ws);
       Eol].
Definition rule11b (old : text) : regex :=
  seq [Bol;
       around (seq [Star true ws; kw "range"; Plus true ws]) old
              (seq [Plus true ws; Plus true non_ws; Star true ws]);
       Eol].

(** 12. "(\bvisible\s+if\s+[^#\n]*\b)OLD(\b)" *)
Definition rule12 (old : text) : regex :=
  around (seq [WordB; kw "visible"; Plus true ws; kw "if"; Plus true ws;
               Star true not_hash_nl; WordB])
         old WordB.

End Patterns.

(* ================================================================== *)
(** ** The context rewriter: the loop body of [rename_in_kconfig_file] *)
(* ================================================================== *)

Module Rewriter.
Import Re Patterns.

(** The replacement [r"\1" + new_symbol + r"\2"]. *)
Definition template (new_symbol : text) : text :=
  [backslash; ascii_of_nat 49] ++ new_symbol ++ [backslash; ascii_of_nat 50].

(** [re.sub(pattern, r"\1" + new_symbol + r"\2", content, flags=...)] *)
Definition sub_rule (fl : flags) (r : regex) (new_symbol content : text)
  : option text :=
  sub fl r 2 (template new_symbol) content.

(** [replace_multiline_depends]: re.sub of "\bOLD\b" by new_symbol in match.group(0) *)
Definition replace_multiline_depends (old_symbol new_symbol full_depends : text)
  : option text :=
  sub no_flags (whole_word old_symbol) 0 new_symbol full_depends.

Definition rule6 (old_symbol new_symbol content : text) : option text :=
  sub_fn MSI multiline_depends_pattern
         (replace_multiline_depends old_symbol new_symbol) content.

Definition bind {A B : Type} (x : option A) (f : A -> option B) : option B :=
  match x with Some a => f a | None => None end.

Notation "x <- e ;; k" := (bind e (fun x => k))
  (at level 61, e at next level, right associativity).

(** One iteration of [for old_symbol, new_symbol in mappings.items()]:
    the twelve numbered steps, in the order of the source.  [None] is an
    exception raised by [re.sub]. *)
Definition rename_one (old_symbol new_symbol content : text) : option text :=
  content <- sub_rule M (rule1 old_symbol) new_symbol content ;;
  content <- sub_rule M (rule2 old_symbol) new_symbol content ;;
  content <- sub_rule M (rule3 old_symbol) new_symbol content ;;
  content <- sub_rule I (rule4 old_symbol) new_symbol content ;;
  content <- sub_rule M (rule5 old_symbol) new_symbol content ;;
  content <- rule6 old_symbol new_symbol content ;;
  content <- sub_rule M (rule7 old_symbol) new_symbol content ;;
  content <- sub_rule M (rule8a old_symbol) new_symbol content ;;
  content <- sub_rule M (rule8b old_symbol) new_symbol content ;;
  content <- sub_rule M (rule9 old_symbol) new_symbol content ;;
  content <- sub_rule I (rule10 old_symbol) new_symbol content ;;
  content <- sub_rule M (rule11a old_symbol) new_symbol content ;;
  content <- sub_rule M (rule11b old_symbol) new_symbol content ;;
  sub_rule I (rule12 old_symbol) new_symbol content.

(** The whole loop over [mappings.items()], in insertion order. *)
Fixpoint rename_all (mappings : list (text * text)) (content : text)
  : option text :=
  match mappings with
  | [] => Some content
  | (old_symbol, new_symbol) :: rest =>
      content <- rename_one old_symbol new_symbol content ;;
      rename_all rest content
  end.

End Rewriter.


(* ================================================================== *)
(** ** The renamer and its world *)
(* ================================================================== *)

Module Renamer.
Import Re Patterns Rewriter.

(** A file as Python's text layer sees it: [f_content] is what
    [open(path, "r", encoding="utf-8").read()] returns, [None] when the
    read raises; [f_writable] tells whether [open(path, "w")] succeeds. *)
Record file := File { f_content : option text; f_writable : bool }.

(** The directory tree, in the order [os.walk] lists it: the directory of
    each file and its name. *)
Record entry := Entry { e_dir : text; e_name : text; e_file : file }.

Inductive level : Type := INFO | WARNING | ERROR.

(** The state of a run: the tree, the paths written so far (every write
    renews the file's modification time), and the fields of
    [KConfigRenamer]. *)
Record renamer := Renamer {
  tree : list entry;
  written : list text;
  changes_made : list text;
  dry_run : bool;
  log : list (level * text)
}.

(** A method either returns or lets an exception escape. *)
Inductive result (A : Type) : Type :=
| Ok : A -> result A
| Raise : result A.
Arguments Ok {A} _.
Arguments Raise {A}.

Definition action (A : Type) : Type := renamer -> result A * renamer.

Definition ret {A : Type} (a : A) : action A := fun st => (Ok a, st).
Definition raise {A : Type} : action A := fun st => (Raise, st).
Definition mbind {A B : Type} (m : action A) (k : A -> action B) : action B :=
  fun st => match m st with
            | (Ok a, st') => k a st'
            | (Raise, st') => (Raise, st')
            end.

Notation "x <~ e ;; k" := (mbind e (fun x => k))
  (at level 61, e at next level, right associativity).
Notation "e ;;; k" := (mbind e (fun _ => k))
  (at level 61, right associativity).

(** [self.logger.info / warning / error]; [debug] records are below the
    configured level [INFO] and leave no trace. *)
Definition logger (lv : level) (msg : text) : action unit :=
  fun st => (Ok tt, Renamer (tree st) (written st) (changes_made st) (dry_run st)
                            (log st ++ [(lv, msg)])).
Definition logger_debug (msg : text) : action unit := ret tt.

Definition append_change (msg : text) : action unit :=
  fun st => (Ok tt, Renamer (tree st) (written st) (changes_made st ++ [msg])
                            (dry_run st) (log st)).

(** Decimal rendering of [len(...)] and counters in messages. *)
Fixpoint dec_digits (fuel n : nat) (acc : text) : text :=
  match fuel with
  | O => acc
  | S f =>
      let acc' := ascii_of_nat (48 + n mod 10) :: acc in
      if n <? 10 then acc' else dec_digits f (n / 10) acc'
  end.
Definition dec (n : nat) : text := dec_digits (S n) n [].

(** [os.path.join(root, file)] *)
Definition slash : ascii := ascii_of_nat 47.
Definition os_path_join (root file : text) : text :=
  match rev root with
  | [] => file
  | c :: _ => if ascii_eqb c slash then root ++ file else root ++ slash :: file
  end.

Definition path_of (e : entry) : text := os_path_join (e_dir e) (e_name e).

(** [open(path, "r").read()] *)
Fixpoint lookup_file (path : text) (t : list entry) : option file :=
  match t with
  | [] => None
  | e :: t' => if text_eqb (path_of e) path then Some (e_file e)
               else lookup_file path t'
  end.

Definition read_file (path : text) (st : renamer) : option text :=
  match lookup_file path (tree st) with
  | Some f => f_content f
  | None => None
  end.

(** [open(path, "w").write(content)] *)
Fixpoint store (path content : text) (t : list entry) : list entry :=
  match t with
  | [] => []
  | e :: t' =>
      if text_eqb (path_of e) path
      then Entry (e_dir e) (e_name e) (File (Some content) (f_writable (e_file e))) :: t'
      else e :: store path content t'
  end.

Definition write_file (path content : text) (st : renamer) : option renamer :=
  match lookup_file path (tree st) with
  | Some f =>
      if f_writable f
      then Some (Renamer (store path content (tree st)) (written st ++ [path])
                         (changes_made st) (dry_run st) (log st))
      else None
  | None => None
  end.

(** [os.walk(root_dir)]: the files in [root_dir] and below. *)
Definition with_slash (d : text) : text :=
  match rev d with
  | c :: _ => if ascii_eqb c slash then d else d ++ [slash]
  | [] => d
  end.
Definition below (root_dir d : text) : bool :=
  match root_dir with
  | [] => false      (* [os.walk("")] lists nothing *)
  | _ => text_eqb d root_dir || startswith (with_slash root_dir) d
  end.
Definition os_walk (root_dir : text) (t : list entry) : list entry :=
  filter (fun e => below root_dir (e_dir e)) t.

Definition is_kconfig (file : text) : bool :=
  text_eqb file (txt "Kconfig") || startswith (txt "Kconfig.") file.
Definition is_source (file : text) : bool :=
  endswith (txt ".c") file || endswith (txt ".h") file
  || text_eqb file (txt "CMakeLists.txt").

(** *** [find_all_subsymbols] *)

(** [subsymbols.add(sym)] on a set kept in order of first insertion.
    The code iterates a hashed set, whose order is not fixed; the model
    iterates in the order of first insertion. *)
Definition set_add (sym : text) (s : list text) : list text :=
  if existsb (text_eqb sym) s then s else s ++ [sym].

(** The symbols one file content defines: the [findall] of both
    patterns, in the order of the method's two loops. *)
Definition defined_in (symbol content : text) : list text :=
  map snd (findall2 M (config_pattern symbol) content)
  ++ findall1 M (choice_pattern symbol) content.

Fixpoint scan_kconfig_files (symbol : text) (kconfig_files : list text)
         (subsymbols : list text) : action (list text) :=
  match kconfig_files with
  | [] => ret subsymbols
  | kconfig_file :: rest =>
      fun st =>
        match read_file kconfig_file st with
        | Some content =>
            scan_kconfig_files symbol rest
              (fold_left (fun s sym => set_add sym s) (defined_in symbol content)
                         subsymbols) st
        | None =>
            (logger WARNING (txt "Could not read " ++ kconfig_file ++ txt ": {e}") ;;;
             scan_kconfig_files symbol rest subsymbols) st
        end
  end.

Definition kconfig_paths (root_dir : text) (t : list entry) : list text :=
  map path_of (filter (fun e => is_kconfig (e_name e)) (os_walk root_dir t)).

Definition find_all_subsymbols (symbol root_dir : text) : action (list text) :=
  fun st => scan_kconfig_files symbol (kconfig_paths root_dir (tree st)) [] st.

(** *** [rename_in_kconfig_file] *)
Definition rename_in_kconfig_file (filepath : text) (mappings : list (text * text))
  : action bool :=
  fun st =>
    if dry_run st then
      (logger_debug (txt "DRY RUN: Would process Kconfig file: " ++ filepath) ;;;
       ret true) st
    else
      match read_file filepath st with
      | None =>
          (logger ERROR (txt "Could not read " ++ filepath ++ txt ": {e}") ;;;
           ret false) st
      | Some original_content =>
          match rename_all mappings original_content with
          | None => (Raise, st)
          | Some content =>
              if negb (text_eqb content original_content) then
                match write_file filepath content st with
                | Some st' =>
                    (logger INFO (txt "Updated Kconfig file: " ++ filepath) ;;;
                     append_change (txt "Updated Kconfig file: " ++ filepath) ;;;
                     ret true) st'
                | None =>
                    (logger ERROR (txt "Could not write " ++ filepath ++ txt ": {e}") ;;;
                     ret false) st
                end
              else (Ok false, st)
          end
      end.

(** *** [process_kconfig_files_with_python] *)
Fixpoint count_renamed (kconfig_files : list text) (mappings : list (text * text))
         (processed_count : nat) : action nat :=
  match kconfig_files with
  | [] => ret processed_count
  | kconfig_file :: rest =>
      changed <~ rename_in_kconfig_file kconfig_file mappings ;;
      count_renamed rest mappings
                    (if changed then processed_count + 1 else processed_count)
  end.

Definition process_kconfig_files_with_python (kconfig_files : list text)
           (mappings : list (text * text)) : action nat :=
  fun st =>
    match kconfig_files with
    | [] => (Ok 0, st)
    | _ =>
        if dry_run st then
          (logger INFO (txt "DRY RUN: Would process " ++ dec (length kconfig_files)
                        ++ txt " Kconfig files with Python") ;;;
           ret (length kconfig_files)) st
        else
          (logger INFO (txt "Processing " ++ dec (length kconfig_files)
                        ++ txt " Kconfig files with Python") ;;;
           processed_count <~ count_renamed kconfig_files mappings 0 ;;
           logger INFO (txt "Updated " ++ dec processed_count ++ txt " Kconfig files") ;;;
           ret processed_count) st
    end.

(** *** [create_sed_script_for_source] *)

(** [s.replace(c, r)] for a one-character [c]. *)
Definition replace_char (c : ascii) (r : text) (s : text) : text :=
  flat_map (fun x => if ascii_eqb x c then r else [x]) s.

Definition amp : ascii := ascii_of_nat 38.

Fixpoint join_lines (ls : list text) : text :=
  match ls with
  | [] => []
  | [l] => l
  | l :: ls' => l ++ nl :: join_lines ls'
  end.

Definition sed_command (old_symbol new_symbol : text) : text :=
  let config_old := txt "CONFIG_" ++ old_symbol in
  let config_new := txt "CONFIG_" ++ new_symbol in
  let config_old_escaped := replace_char slash [backslash; slash] config_old in
  let config_new_escaped :=
    replace_char slash [backslash; slash]
                 (replace_char amp [backslash; amp] config_new) in
  txt "s/\<" ++ config_old_escaped ++ txt "\>/" ++ config_new_escaped ++ txt "/g".

Definition create_sed_script_for_source (mappings : list (text * text)) : text :=
  join_lines (map (fun m => sed_command (fst m) (snd m)) mappings).

(** *** [process_files_with_sed]

    [sed] is an external program: what [subprocess.run] does to the tree
    and how it ends is a parameter of the model. *)
Inductive sed_outcome : Type :=
| SedExit : bool -> sed_outcome     (* finished; [true] for return code 0 *)
| SedTimeout : sed_outcome          (* [subprocess.TimeoutExpired] *)
| SedFailure : sed_outcome.         (* any other exception *)

(** How [subprocess.run(["sed", "--version"], check=True)] ends. *)
Inductive version_check : Type :=
| VersionOk : version_check        (* returns, code 0 *)
| VersionMissing : version_check   (* [CalledProcessError], [FileNotFoundError]: caught *)
| VersionError : version_check.    (* any other exception: caught nowhere *)

(** The temporary script is a file of the system's temporary directory,
    outside the tree: writing it may raise, removing it may fail. *)
Record sed_tool := SedTool {
  sed_version : version_check;        (* the check [sed --version] *)
  temp_script_ok : bool;              (* [NamedTemporaryFile] and [f.write] succeed *)
  unlink_ok : bool;                   (* [os.unlink(sed_script_path)] succeeds *)
  sed_run : bool -> text -> list text -> list entry -> sed_outcome * list entry
      (* extended mode, script, files, tree before; outcome and tree after *)
}.

Definition sed_version_ok (sed : sed_tool) : bool :=
  match sed_version sed with
  | VersionOk => true
  | _ => false
  end.

Section External.
Variable sed : sed_tool.

Definition subprocess_run (extended : bool) (sed_script : text)
           (chunk : list text) : action sed_outcome :=
  fun st =>
    let (out, t) := sed_run sed extended sed_script chunk (tree st) in
    (Ok out, Renamer t (written st) (changes_made st) (dry_run st) (log st)).

(** [files[i : i + chunk_size]] for [i] in [range(0, len(files), chunk_size)] *)
Fixpoint chunks (fuel chunk_size : nat) (files : list text) : list (list text) :=
  match fuel with
  | O => []
  | S f =>
      match files with
      | [] => []
      | _ => firstn chunk_size files :: chunks f chunk_size (skipn chunk_size files)
      end
  end.

(** The body of [for use_extended in [True, False]] for one chunk;
    returns what is added to [processed_count]. *)
Definition sed_chunk (sed_script file_type : text) (use_simple : bool)
           (chunk : list text) : action nat :=
  out <~ subprocess_run (negb use_simple) sed_script chunk ;;
  match out with
  | SedExit true => ret (length chunk)
  | SedExit false =>
      out2 <~ subprocess_run false sed_script chunk ;;
      match out2 with
      | SedExit true => ret (length chunk)
      | SedExit false =>
          logger ERROR (txt "sed failed for chunk: {result.stderr}") ;;; ret 0
      | SedTimeout =>
          logger ERROR (txt "sed timed out processing " ++ file_type
                        ++ txt " files chunk") ;;; ret 0
      | SedFailure =>
          logger ERROR (txt "Error running sed on " ++ file_type
                        ++ txt " files: {e}") ;;; ret 0
      end
  | SedTimeout =>
      logger ERROR (txt "sed timed out processing " ++ file_type
                    ++ txt " files chunk") ;;; ret 0
  | SedFailure =>
      logger ERROR (txt "Error running sed on " ++ file_type
                    ++ txt " files: {e}") ;;; ret 0
  end.

Fixpoint sed_chunks (sed_script file_type : text) (use_simple : bool)
         (cs : list (list text)) (processed_count : nat) : action nat :=
  match cs with
  | [] => ret processed_count
  | chunk :: cs' =>
      n <~ sed_chunk sed_script file_type use_simple chunk ;;
      sed_chunks sed_script file_type use_simple cs' (processed_count + n)
  end.

Definition process_files_with_sed (files : list text)
           (sed_script file_type : text) (use_simple : bool) : action nat :=
  fun st =>
    match files, sed_script with
    | [], _ => (Ok 0, st)
    | _, [] => (Ok 0, st)
    | _, _ =>
        if dry_run st then
          (logger INFO (txt "DRY RUN: Would process " ++ dec (length files)
                        ++ txt " " ++ file_type ++ txt " files with sed") ;;;
           logger INFO (txt "Sed script would be:" ++ nl :: sed_script) ;;;
           ret (length files)) st
        else
          (logger INFO (txt "Processing " ++ dec (length files) ++ txt " "
                        ++ file_type ++ txt " files with sed") ;;;
           match sed_version sed with
           | VersionMissing =>
               logger ERROR (txt "sed not available! Please install sed") ;;;
               ret 0
           | VersionError => raise
           | VersionOk =>
               if temp_script_ok sed then
                 processed_count <~
                   sed_chunks sed_script file_type use_simple
                              (chunks (length files) 100 files) 0 ;;
                 (if unlink_ok sed then ret tt
                  else logger WARNING
                         (txt "Could not remove temporary sed script {sed_script_path}: {e}")) ;;;
                 (if 0 <? processed_count
                  then append_change (txt "Processed " ++ dec processed_count
                                      ++ txt " " ++ file_type ++ txt " files with sed")
                  else ret tt) ;;;
                 ret processed_count
               else raise
           end) st
    end.

(** *** [find_files_to_process] *)
Definition find_files_to_process (root_dir : text) (t : list entry)
  : list text * list text :=
  let files := os_walk root_dir t in
  (map path_of (filter (fun e => is_kconfig (e_name e)) files),
   map path_of (filter (fun e => negb (is_kconfig (e_name e)) && is_source (e_name e))
                       files)).

(** *** [rename_symbol] *)

(** [mappings[symbol] = new_sym] on a dict kept in insertion order. *)
Fixpoint dict_set (k v : text) (d : list (text * text)) : list (text * text) :=
  match d with
  | [] => [(k, v)]
  | (k', v') :: d' =>
      if text_eqb k' k then (k', v) :: d' else (k', v') :: dict_set k v d'
  end.

(** [mappings.get(k)] *)
Fixpoint dict_get (k : text) (d : list (text * text)) : option text :=
  match d with
  | [] => None
  | (k', v) :: d' => if text_eqb k' k then Some v else dict_get k d'
  end.

Definition derive_mappings (old_symbol new_symbol : text)
           (subsymbols : list text) : list (text * text) :=
  fold_left
    (fun mappings symbol =>
       if startswith old_symbol symbol
       then dict_set symbol (new_symbol ++ skipn (length old_symbol) symbol) mappings
       else mappings)
    subsymbols [].

Fixpoint log_mappings (mappings : list (text * text)) : action unit :=
  match mappings with
  | [] => ret tt
  | (old, new) :: rest =>
      logger INFO (txt "  " ++ old ++ txt " -> " ++ new) ;;; log_mappings rest
  end.

Definition rename_symbol (old_symbol new_symbol root_dir : text) : action unit :=
  logger INFO (txt "Renaming symbol " ++ old_symbol ++ txt " to " ++ new_symbol) ;;;
  logger INFO (txt "Finding all subsymbols of " ++ old_symbol) ;;;
  subsymbols <~ find_all_subsymbols old_symbol root_dir ;;
  let mappings := derive_mappings old_symbol new_symbol subsymbols in
  match mappings with
  | [] => logger WARNING (txt "No symbols found starting with " ++ old_symbol)
  | _ =>
      logger INFO (txt "Found " ++ dec (length mappings) ++ txt " symbols to rename:") ;;;
      log_mappings mappings ;;;
      fun st =>
        let (kconfig_files, source_files) := find_files_to_process root_dir (tree st) in
        (logger INFO (txt "Processing " ++ dec (length kconfig_files)
                      ++ txt " Kconfig files and " ++ dec (length source_files)
                      ++ txt " source files") ;;;
         kconfig_processed <~ process_kconfig_files_with_python kconfig_files mappings ;;
         let source_sed_script := create_sed_script_for_source mappings in
         source_processed <~
           process_files_with_sed source_files source_sed_script (txt "source") false ;;
         logger INFO (txt "Symbol renaming complete. Processed "
                      ++ dec kconfig_processed ++ txt " Kconfig files and "
                      ++ dec source_processed ++ txt " source files.")) st
  end.

(** *** [rename_from_mapping_file] *)

(** [f.readlines()] *)
Fixpoint readlines (s : text) : list text :=
  match s with
  | [] => []
  | c :: s' =>
      if ascii_eqb c nl then [c] :: readlines s'
      else match readlines s' with
           | [] => [[c]]
           | l :: ls => (c :: l) :: ls
           end
  end.

(** [s.strip()] *)
Definition lstrip (s : text) : text := drop_while is_space s.
Definition rstrip (s : text) : text := rev (lstrip (rev s)).
Definition strip (s : text) : text := rstrip (lstrip s).

(** [sep in s] and [s.split(sep, 1)] *)
Fixpoint contains (sep s : text) : bool :=
  startswith sep s ||
  match s with
  | [] => false
  | _ :: s' => contains sep s'
  end.

Fixpoint split_once (sep s : text) : list text :=
  if startswith sep s then [[]; skipn (length sep) s]
  else match s with
       | [] => [[]]
       | c :: s' =>
           match split_once sep s' with
           | a :: r => (c :: a) :: r
           | [] => [[c]]
           end
       end.

Definition arrow : text := txt " -> ".

(** What the loop body decides for one line. *)
Inductive line_kind : Type :=
| Skipped : line_kind                      (* blank or comment *)
| InvalidFormat : text -> line_kind        (* no arrow: warned about *)
| EmptySymbol : text -> line_kind          (* warned about *)
| Mapping : text -> text -> line_kind      (* handed to [rename_symbol] *)
| Unpack : line_kind.                      (* the tuple assignment raises *)

Definition mapping_line (line : text) : line_kind :=
  let line := strip line in
  match line with
  | [] => Skipped
  | _ =>
      if startswith (txt "#") line then Skipped
      else if negb (contains arrow line) then InvalidFormat line
      else
        match split_once arrow line with
        | [old_symbol; new_symbol] =>
            let old_symbol := strip old_symbol in
            let new_symbol := strip new_symbol in
            match old_symbol, new_symbol with
            | [], _ => EmptySymbol line
            | _, [] => EmptySymbol line
            | _, _ => Mapping old_symbol new_symbol
            end
        | _ => Unpack
        end
  end.

Fixpoint mapping_lines (lines : list text) (line_num : nat) (root_dir : text)
  : action unit :=
  match lines with
  | [] => ret tt
  | line :: rest =>
      match mapping_line line with
      | Skipped => mapping_lines rest (S line_num) root_dir
      | InvalidFormat l =>
          logger WARNING (txt "Invalid format on line " ++ dec line_num
                          ++ txt ": " ++ l) ;;;
          mapping_lines rest (S line_num) root_dir
      | EmptySymbol l =>
          logger WARNING (txt "Empty symbol on line " ++ dec line_num
                          ++ txt ": " ++ l) ;;;
          mapping_lines rest (S line_num) root_dir
      | Mapping old_symbol new_symbol =>
          logger INFO (txt "Processing mapping: " ++ old_symbol ++ txt " -> "
                       ++ new_symbol) ;;;
          rename_symbol old_symbol new_symbol root_dir ;;;
          mapping_lines rest (S line_num) root_dir
      | Unpack => raise
      end
  end.

Definition rename_from_mapping_file (mapping_file root_dir : text) : action unit :=
  fun st =>
    match read_file mapping_file st with
    | None =>
        logger ERROR (txt "Could not read mapping file " ++ mapping_file
                      ++ txt ": {e}") st
    | Some content => mapping_lines (readlines content) 1 root_dir st
    end.
End External.

End Renamer.

(* ================================================================== *)
(** ** What a pattern means

    The matcher above is an algorithm; the relation below says which
    pieces of text a pattern accepts in a given context, with the group
    spans it records.  The matcher only ever returns matches the relation
    accepts ([run_sound]). *)
(* ================================================================== *)

Module Sem.
Import Re Patterns Rewriter Renamer.

(** The character before the cursor after reading [w]. *)
Fixpoint last_char (prev : option ascii) (w : text) : option ascii :=
  match w with
  | [] => prev
  | c :: w' => last_char (Some c) w'
  end.

(** [w] is the literal [l], up to case when [ic] is set. *)
Fixpoint lit_eq (ic : bool) (l w : text) : bool :=
  match l, w with
  | [], [] => true
  | x :: l', c :: w' => char_eq ic x c && lit_eq ic l' w'
  | _, _ => false
  end.

Definition caps := list (nat * (nat * nat)).

Fixpoint denote (fl : flags) (r : regex) (prev : option ascii) (pos : nat)
         (w rest : text) (c_in c_out : caps) {struct r} : Prop :=
  match r with
  | Eps => w = [] /\ c_out = c_in
  | Lit l => lit_eq (IGNORECASE fl) l w = true /\ c_out = c_in
  | Cls p => (exists c, w = [c] /\ p c = true) /\ c_out = c_in
  | Dot => (exists c, w = [c] /\ dot_ok fl c = true) /\ c_out = c_in
  | Seq r1 r2 =>
      exists w1 w2 c_mid,
        w = w1 ++ w2 /\
        denote fl r1 prev pos w1 (w2 ++ rest) c_in c_mid /\
        denote fl r2 (last_char prev w1) (pos + length w1) w2 rest c_mid c_out
  | Alt r1 r2 =>
      denote fl r1 prev pos w rest c_in c_out \/
      denote fl r2 prev pos w rest c_in c_out
  | Star _ p => forallb p w = true /\ c_out = c_in
  | Bol => (w = [] /\ at_bol fl prev = true) /\ c_out = c_in
  | Eol => (w = [] /\ at_eol fl rest = true) /\ c_out = c_in
  | WordB => (w = [] /\ at_word_boundary prev rest = true) /\ c_out = c_in
  | Look r1 =>
      (w = [] /\
       exists w' rest' c', rest = w' ++ rest' /\ denote fl r1 prev pos w' rest' c_in c') /\
      c_out = c_in
  | Group n r1 =>
      exists c1, denote fl r1 prev pos w rest c_in c1 /\
                 c_out = (n, (pos, pos + length w)) :: c1
  end.

(** A whole-word occurrence of [old] in a text, letters compared without
    regard to case when [ic] is set: the text before it does not end, and
    the text after it does not begin, with a word character. *)
Fixpoint occurs_from (ic : bool) (old : text) (prev : option ascii) (s : text)
  : bool :=
  (negb (word_opt prev) && lit_eq ic old (firstn (length old) s)
   && negb (word_opt (next_char (skipn (length old) s))))
  || match s with
     | [] => false
     | c :: s' => occurs_from ic old (Some c) s'
     end.

Definition word_occurs (ic : bool) (old s : text) : bool :=
  occurs_from ic old None s.

(** Names the rewriter can take: an old symbol is a non-empty run of word
    characters; a new symbol is literal text in the replacement template
    (no backslash, and no digit right after the [\1] it follows). *)
Definition is_symbol (s : text) : bool :=
  match s with
  | [] => false
  | _ => forallb is_word s
  end.

Definition template_safe (new : text) : bool :=
  forallb (fun c => negb (ascii_eqb c backslash)) new
  && match new with
     | c :: _ => negb (is_digit c)
     | [] => true
     end.

(** A mapping the rewriter can take, and a text none of whose words is an
    old symbol of the mapping set. *)
Definition renamable (m : text * text) : bool :=
  is_symbol (fst m) && negb (lit_eq true (txt "depends") (fst m))
  && template_safe (snd m).

Definition no_word_of (mappings : list (text * text)) (s : text) : bool :=
  forallb (fun m => negb (word_occurs true (fst m) s)) mappings.

(** A pattern that matches nowhere in a text. *)
Definition no_match (fl : flags) (r : regex) (s0 : text) : Prop :=
  forall pre s adv st,
    s0 = pre ++ s -> match_at fl r adv (last_char None pre) s <> Some st.

(** A pattern selects a word: whatever it matches contains the old symbol
    (up to case under [IGNORECASE]) between two places that are not word
    characters. *)
Definition selects_word (fl : flags) (R : regex) (old : text) : Prop :=
  forall prev pos w rest ci co,
    denote fl R prev pos w rest ci co ->
    exists g1 o post,
      w ++ rest = g1 ++ o ++ post /\
      lit_eq (IGNORECASE fl) old o = true /\
      word_opt (last_char prev g1) = false /\
      word_opt (next_char post) = false.

(** What precedes the symbol ends where no word character stands, given
    that a word character follows. *)
Definition before_ok (fl : flags) (B : regex) : Prop :=
  forall prev pos w rest ci co c,
    denote fl B prev pos w rest ci co ->
    next_char rest = Some c -> is_word c = true ->
    word_opt (last_char prev w) = false.

(** What follows the symbol, up to the end of the line, does not begin
    with a word character. *)
Definition after_line (fl : flags) (A : regex) : Prop :=
  forall prev pos w rest ci co,
    denote fl A prev pos w rest ci co ->
    word_opt prev = true -> at_eol fl rest = true ->
    word_opt (next_char (w ++ rest)) = false.

(** The text is over, or goes on with a character outside the class. *)
Definition stops (p : ascii -> bool) (rest : text) : Prop :=
  match rest with
  | [] => True
  | c :: _ => p c = false
  end.

Definition sp : ascii := " "%char.
Definition not_nl (c : ascii) : bool := negb (ascii_eqb c nl).

(** The shape shared by steps 4 and 12:
    "(\bK1\s+K2\s+[^#\n]*\b)OLD(\b)". *)
Definition two_keywords (k1 k2 old : text) : regex :=
  around (seq [WordB; Lit k1; Plus true ws; Lit k2; Plus true ws;
               Star true not_hash_nl; WordB])
         old WordB.

Definition prefix2 (k1 k2 : text) : text := k1 ++ sp :: k2 ++ [sp].

(** What a definition found by the discovery patterns looks like: at the
    start of a line, white space, a keyword, white space, the name (the
    root symbol and more symbol characters), white space, the end of a
    line.  White space includes line breaks. *)
Definition definition_at (symbol sym : text) (keywords : list text)
           (prev : option ascii) (w rest : text) : Prop :=
  exists w0 kwd w1 tail w2,
    w = w0 ++ kwd ++ w1 ++ sym ++ w2 /\
    at_bol M prev = true /\
    forallb is_space w0 = true /\
    In kwd keywords /\
    w1 <> [] /\ forallb is_space w1 = true /\
    sym = symbol ++ tail /\ forallb sym_char tail = true /\
    forallb is_space w2 = true /\
    at_eol M rest = true.

Definition defined_at (keywords : list text) (symbol sym content : text) : Prop :=
  exists pre w rest,
    content = pre ++ w ++ rest /\
    definition_at symbol sym keywords (last_char None pre) w rest.

(** The surroundings of a name on its definition line: [pre] is empty or
    ends a line; then white space, the keyword and at least one white
    space stand before the name; after it, white space up to the end of
    a line. *)
Definition definition_context (pre w0 k w1 w2 rest : text) : bool :=
  at_bol M (last_char None pre) && forallb is_space w0
  && (text_eqb k (txt "config") || text_eqb k (txt "menuconfig"))
  && match w1 with [] => false | _ => forallb is_space w1 end
  && forallb is_space w2 && at_eol M rest.

(** A file that holds [name] on a definition line: the text [pre], the
    line made of [w0], the keyword [k], [w1], the name and [w2], and the
    text [rest]. *)
Definition with_definition (pre w0 k w1 name w2 rest : text) : text :=
  (pre ++ w0 ++ k ++ w1) ++ name ++ w2 ++ rest.

(** Two states with the same files: same tree, same writes, same change
    log, same mode; only the logger's output may differ. *)
Definition same_files (st st' : renamer) : Prop :=
  tree st' = tree st /\ written st' = written st /\
  changes_made st' = changes_made st /\ dry_run st' = dry_run st.

(** [new_symbol + symbol[len(old_symbol):]] *)
Definition derived (old_symbol new_symbol symbol : text) : text :=
  new_symbol ++ skipn (length old_symbol) symbol.

(** A text with no white space at either end. *)
Definition tight (x : text) : Prop := stops is_space x /\ stops is_space (rev x).




(** Every new symbol of a mapping set is literal in the replacement
    template. *)
Definition safe_mappings (mappings : list (text * text)) : bool :=
  forallb (fun m => template_safe (snd m)) mappings.

(** One run of [sed] over a chunk, seen from the tree. *)
Definition sed_pass (sed : sed_tool) (extended : bool) (sed_script : text)
           (t : list entry) (chunk : list text) : list entry :=
  snd (sed_run sed extended sed_script chunk t).

(** A [sed] whose every run returns code 0. *)
Definition sed_succeeds (sed : sed_tool) : Prop :=
  forall extended sed_script chunk t,
    fst (sed_run sed extended sed_script chunk t) = SedExit true.

(** The environment of [sed] raises an exception that
    [process_files_with_sed] does not catch: the version check ends in an
    exception other than the two it names, or the temporary script
    cannot be written. *)
Definition sed_raises (sed : sed_tool) : bool :=
  match sed_version sed with
  | VersionOk => negb (temp_script_ok sed)
  | VersionMissing => false
  | VersionError => true
  end.

(** The entry [process_files_with_sed] appends to the change log. *)
Definition sed_change (n : nat) (file_type : text) : text :=
  txt "Processed " ++ dec n ++ txt " " ++ file_type ++ txt " files with sed".

(** A pattern without capturing groups. *)
Fixpoint group_free (r : regex) : bool :=
  match r with
  | Seq r1 r2 => group_free r1 && group_free r2
  | Alt r1 r2 => group_free r1 && group_free r2
  | Look r1 => group_free r1
  | Group _ _ => false
  | _ => true
  end.

(** What a rule does where it matches: the match is a text [g1], a word
    [o] that is the old symbol (up to case under [IGNORECASE]) between
    two places that are not word characters, and a text [g2]; the
    replacement [\1 new \2] gives [g1], the new symbol and [g2]. *)
Definition replaces_word (fl : flags) (R : regex) (old : text) : Prop :=
  forall new adv prev s st,
    match_at fl R adv prev s = Some st ->
    exists g1 o g2 rest,
      s = g1 ++ o ++ g2 ++ rest /\ m_pos st = length (g1 ++ o ++ g2) /\
      lit_eq (IGNORECASE fl) old o = true /\
      word_opt (last_char prev g1) = false /\
      word_opt (next_char (g2 ++ rest)) = false /\
      expand (TGroup 1 :: map TChar new ++ [TGroup 2]) s st = g1 ++ new ++ g2.

(** [replaced old new prev s s']: the text [s'] is the text [s] in which
    some whole words that are the old symbol, letters compared without
    regard to case, have been replaced by the new symbol, and nothing
    else has changed; [prev] is the character before [s]. *)
Inductive replaced (old new : text) : option ascii -> text -> text -> Prop :=
| Same_end : forall prev, replaced old new prev [] []
| Same_char : forall prev c s s',
    replaced old new (Some c) s s' -> replaced old new prev (c :: s) (c :: s')
| New_word : forall prev o s s',
    lit_eq true old o = true ->
    word_opt prev = false -> word_opt (next_char s) = false ->
    replaced old new (last_char prev o) s s' ->
    replaced old new prev (o ++ s) (new ++ s').

(** A sequence of such passes over a whole text, and one sequence per
    mapping, in the order of the mappings. *)
Inductive passes (old new : text) : text -> text -> Prop :=
| No_pass : forall s, passes old new s s
| One_more : forall s s1 s2,
    replaced old new None s s1 -> passes old new s1 s2 -> passes old new s s2.

Fixpoint mapped (mappings : list (text * text)) (s s' : text) : Prop :=
  match mappings with
  | [] => s' = s
  | (old_symbol, new_symbol) :: rest =>
      exists s1, passes old_symbol new_symbol s s1 /\ mapped rest s1 s'
  end.




(** The character the template escape [\1 d1 d2] stands for when both
    digits are octal: the three digits are read as one octal number. *)
Definition octal_escape (d1 d2 : ascii) : ascii :=
  ascii_of_nat (64 + 8 * digit_val d1 + digit_val d2).

End Sem.

(* ================================================================== *)
(** ** Sample inputs *)
(* ================================================================== *)

Module Inputs.
Import Re Patterns Rewriter Renamer.

Definition FOO : text := txt "FOO".
Definition BAR_FOO : text := txt "BAR_FOO".
Definition X_FOO : text := txt "X_FOO".

(** A file made of lines, each ended by a line break. *)
Definition lines (ls : list text) : text := flat_map (fun l => l ++ [nl]) ls.

Definition kconfig (content : text) : entry :=
  Entry (txt ".") (txt "Kconfig") (File (Some content) true).

Definition start (t : list entry) (dry : bool) : renamer := Renamer t [] [] dry [].

(** A [sed] that is installed, succeeds and finds nothing to change. *)
Definition quiet_sed : sed_tool :=
  SedTool VersionOk true true (fun _ _ _ t => (SedExit true, t)).

(** A dependency expression over three lines, the symbol on the last. *)
Definition depends_three_lines : text :=
  lines [tab :: txt "depends on A ||"; tab :: tab :: txt "B ||";
         tab :: tab :: txt "FOO"].

(** A file that does not mention the symbol. *)
Definition unrelated_tree : list entry := [kconfig (lines [txt "config BAR"])].

(** A named choice with more text on its line. *)
Definition choice_tree : list entry :=
  [kconfig (lines [txt "choice FOO_MODE extra"])].

(** The four definitions of the subsymbol example. *)
Definition four_definitions : list entry :=
  [kconfig (lines [txt "config FOO"; txt "config FOOBAR"; txt "config FOOBAR_X";
                   txt "menuconfig FOOZ"])].

(** The old symbol in lower case next to a longer symbol. *)
Definition lower_case_depends : text := txt "depends on foo || FOOBAR".

(** Two mappings that chain: the new name of the second is the old name
    of the first. *)
Definition chain : list (text * text) := [(txt "B", txt "C"); (txt "A", txt "B")].

(** The same symbol twice in one [depends on] line that ends the file. *)
Definition depends_twice : text := txt "depends on FOO && FOO".

(** A dependency on a tristate symbol, with a comment, in a file whose
    lines end with a line break; and a dependency that names the symbol
    twice, in lower case and as defined. *)
Definition depends_with_comment : text :=
  lines [txt "config BAR"; tab :: txt "bool";
         tab :: txt "depends on FOO=y || FOO=m # both"].



(** A tree with Kconfig files, source files and a file of neither kind. *)
Definition plain (dir name content : string) : entry :=
  Entry (txt dir) (txt name) (File (Some (txt content)) true).

Definition mixed_tree : list entry :=
  [kconfig (lines [txt "config FOO"]);
   plain "." "main.c" "int x = CONFIG_FOO;";
   plain "./drivers" "Kconfig.c" "config FOOBAR";
   plain "./drivers" "CMakeLists.txt" "if(CONFIG_FOO)";
   plain "./drivers" "README" "FOO"].

(** A [sed] that is not installed. *)
Definition no_sed : sed_tool :=
  SedTool VersionMissing true true (fun _ _ _ t => (SedFailure, t)).

(** A [sed] whose version check ends in an exception that is not caught
    (the program is there and may not be executed), and an environment
    in which the temporary script cannot be written. *)
Definition forbidden_sed : sed_tool :=
  SedTool VersionError true true (fun _ _ _ t => (SedFailure, t)).
Definition no_temp_sed : sed_tool :=
  SedTool VersionOk false true (fun _ _ _ t => (SedExit true, t)).

(** The same tree with a mapping file: a comment, a mapping and a line
    without arrow. *)
Definition mapping_tree : list entry :=
  Entry (txt ".") (txt "mappings.txt")
        (File (Some (lines [txt "# renames"; txt "FOO -> BAR_FOO"; txt "oops"])) true)
  :: mixed_tree.

End Inputs.

(* ================================================================== *)
(** ** Facts about the model *)
(* ================================================================== *)

Import Re Patterns Rewriter Renamer Sem Inputs.

Unset Implicit Arguments.

Module SemFacts.

Lemma last_char_app prev w1 w2 :
  last_char prev (w1 ++ w2) = last_char (last_char prev w1) w2.
Proof. revert prev; induction w1; simpl; auto. Qed.

Lemma orelse_some a b res :
  orelse a b = Some res -> a = Some res \/ (a = None /\ b tt = Some res).
Proof. destruct a; simpl; intros H; [left | right]; auto. Qed.

Lemma match_lit_sound fl l : forall prev pos s c k res,
  match_lit fl l prev pos s c k = Some res ->
  exists w rest, s = w ++ rest /\ lit_eq (IGNORECASE fl) l w = true /\
    k (MState (last_char prev w) (pos + length w) rest c) = Some res.
Proof.
  induction l as [|x l IH]; simpl; intros prev pos s c k res H.
  - exists [], s. simpl. rewrite Nat.add_0_r. auto.
  - destruct s as [|a s]; [discriminate|].
    destruct (char_eq (IGNORECASE fl) x a) eqn:E; [|discriminate].
    apply IH in H. destruct H as (w & rest & -> & Hl & Hk).
    exists (a :: w), rest. simpl. rewrite E, Hl.
    replace (pos + S (length w)) with (S pos + length w) by lia. auto.
Qed.

Lemma star_greedy_sound p : forall s prev pos c k res,
  star_greedy p prev pos s c k = Some res ->
  exists w rest, s = w ++ rest /\ forallb p w = true /\
    k (MState (last_char prev w) (pos + length w) rest c) = Some res.
Proof.
  induction s as [|a s IH]; simpl; intros prev pos c k res H.
  - exists [], []. simpl. rewrite Nat.add_0_r. auto.
  - destruct (p a) eqn:E.
    + apply orelse_some in H. destruct H as [H | [_ H]].
      * apply IH in H. destruct H as (w & rest & -> & Hl & Hk).
        exists (a :: w), rest. simpl. rewrite E, Hl.
        replace (pos + S (length w)) with (S pos + length w) by lia. auto.
      * exists [], (a :: s). simpl. rewrite Nat.add_0_r. auto.
    + exists [], (a :: s). simpl. rewrite Nat.add_0_r. auto.
Qed.

Lemma star_lazy_sound p : forall s prev pos c k res,
  star_lazy p prev pos s c k = Some res ->
  exists w rest, s = w ++ rest /\ forallb p w = true /\
    k (MState (last_char prev w) (pos + length w) rest c) = Some res.
Proof.
  induction s as [|a s IH]; simpl; intros prev pos c k res H.
  - apply orelse_some in H. destruct H as [H | [_ H]]; [|discriminate].
    exists [], []. simpl. rewrite Nat.add_0_r. auto.
  - apply orelse_some in H. destruct H as [H | [_ H]].
    + exists [], (a :: s). simpl. rewrite Nat.add_0_r. auto.
    + destruct (p a) eqn:E; [|discriminate].
      apply IH in H. destruct H as (w & rest & -> & Hl & Hk).
      exists (a :: w), rest. simpl. rewrite E, Hl.
      replace (pos + S (length w)) with (S pos + length w) by lia. auto.
Qed.

(** The matcher is sound: a successful run reads a word the pattern
    accepts and hands the position after it to its continuation. *)
Lemma run_sound fl r : forall st k res,
  run fl r st k = Some res ->
  exists w rest c_out,
    m_rest st = w ++ rest /\
    denote fl r (m_prev st) (m_pos st) w rest (m_caps st) c_out /\
    k (MState (last_char (m_prev st) w) (m_pos st + length w) rest c_out) = Some res.
Proof.
  induction r; intros st k res H; simpl in H.
  - exists [], (m_rest st), (m_caps st). simpl. rewrite Nat.add_0_r.
    destruct st; auto.
  - apply match_lit_sound in H. destruct H as (w & rest & E & Hl & Hk).
    exists w, rest, (m_caps st). simpl. auto.
  - destruct (m_rest st) as [|c s'] eqn:E; [discriminate|].
    destruct (b c) eqn:Ep; [|discriminate].
    exists [c], s', (m_caps st). simpl. rewrite Nat.add_1_r. repeat split; eauto.
  - destruct (m_rest st) as [|c s'] eqn:E; [discriminate|].
    destruct (dot_ok fl c) eqn:Ep; [|discriminate].
    exists [c], s', (m_caps st). simpl. rewrite Nat.add_1_r. repeat split; eauto.
  - apply IHr1 in H. destruct H as (w1 & rest1 & c1 & E1 & D1 & H).
    apply IHr2 in H. simpl in H. destruct H as (w2 & rest2 & c2 & E2 & D2 & H).
    subst rest1. exists (w1 ++ w2), rest2, c2. rewrite <- app_assoc.
    split; [auto|]. split.
    + simpl. exists w1, w2, c1. auto.
    + rewrite last_char_app, length_app, Nat.add_assoc. auto.
  - apply orelse_some in H. destruct H as [H | [_ H]].
    + apply IHr1 in H. destruct H as (w & rest & c & E & D & H).
      exists w, rest, c. simpl. auto.
    + apply IHr2 in H. destruct H as (w & rest & c & E & D & H).
      exists w, rest, c. simpl. auto.
  - destruct b.
    + apply star_greedy_sound in H. destruct H as (w & rest & E & Hl & Hk).
      exists w, rest, (m_caps st). simpl. auto.
    + apply star_lazy_sound in H. destruct H as (w & rest & E & Hl & Hk).
      exists w, rest, (m_caps st). simpl. auto.
  - destruct (at_bol fl (m_prev st)) eqn:E; [|discriminate].
    exists [], (m_rest st), (m_caps st). simpl. rewrite Nat.add_0_r.
    destruct st; simpl in *; auto.
  - destruct (at_eol fl (m_rest st)) eqn:E; [|discriminate].
    exists [], (m_rest st), (m_caps st). simpl. rewrite Nat.add_0_r.
    destruct st; simpl in *; auto.
  - destruct (at_word_boundary (m_prev st) (m_rest st)) eqn:E; [|discriminate].
    exists [], (m_rest st), (m_caps st). simpl. rewrite Nat.add_0_r.
    destruct st; simpl in *; auto.
  - destruct (run fl r st (fun st' => Some st')) eqn:E; [|discriminate].
    apply IHr in E. destruct E as (w & rest & c & E & D & _).
    exists [], (m_rest st), (m_caps st). simpl. rewrite Nat.add_0_r.
    split; [auto|]. split.
    + split; [|auto]. split; [auto|]. exists w, rest, c. auto.
    + destruct st; simpl in *; auto.
  - apply IHr in H. destruct H as (w & rest & c & E & D & H). simpl in H.
    exists w, rest, ((n, (m_pos st, m_pos st + length w)) :: c). simpl.
    split; [auto|]. split; [|auto]. exists c. auto.
Qed.


(** *** Character facts, by enumeration of the 256 characters *)

Ltac all_chars c :=
  destruct c as [[] [] [] [] [] [] [] []]; vm_compute; try reflexivity;
  try discriminate; auto.

Lemma space_not_word c : is_space c = true -> is_word c = false.
Proof. all_chars c. Qed.

Lemma is_word_lower c : is_word (lower c) = is_word c.
Proof. all_chars c. Qed.

Lemma ascii_eqb_eq a b : ascii_eqb a b = true <-> a = b.
Proof. apply Ascii.eqb_eq. Qed.

Lemma ascii_eqb_refl a : ascii_eqb a a = true.
Proof. apply Ascii.eqb_refl. Qed.

Lemma char_eq_word ic x c : char_eq ic x c = true -> is_word c = is_word x.
Proof.
  unfold char_eq. destruct ic; intros H; apply ascii_eqb_eq in H.
  - rewrite <- (is_word_lower c), <- (is_word_lower x). congruence.
  - congruence.
Qed.

Lemma char_eq_weaken ic x c : char_eq ic x c = true -> char_eq true x c = true.
Proof.
  destruct ic; auto. unfold char_eq. intros H. apply ascii_eqb_eq in H.
  subst. apply ascii_eqb_refl.
Qed.

Lemma char_eq_refl ic x : char_eq ic x x = true.
Proof. unfold char_eq. destruct ic; apply ascii_eqb_refl. Qed.

(** *** Literals *)

Lemma lit_eq_length ic l : forall w, lit_eq ic l w = true -> length w = length l.
Proof.
  induction l; destruct w; simpl; intros H; try discriminate; auto.
  apply andb_true_iff in H. destruct H. f_equal. auto.
Qed.

Lemma lit_eq_weaken ic l : forall w, lit_eq ic l w = true -> lit_eq true l w = true.
Proof.
  induction l; destruct w; simpl; intros H; try discriminate; auto.
  apply andb_true_iff in H. destruct H as [H1 H2].
  apply andb_true_iff. split; [apply (char_eq_weaken _ _ _ H1) | auto].
Qed.

Lemma lit_eq_word ic l : forall w,
  lit_eq ic l w = true -> forallb is_word l = true -> forallb is_word w = true.
Proof.
  induction l; destruct w; simpl; intros H Hl; try discriminate; auto.
  apply andb_true_iff in H. destruct H as [H1 H2].
  apply andb_true_iff in Hl. destruct Hl as [Hl1 Hl2].
  rewrite (char_eq_word _ _ _ H1), Hl1. simpl. auto.
Qed.

Lemma lit_eq_exact l : forall w, lit_eq false l w = true -> w = l.
Proof.
  induction l; destruct w; simpl; intros H; try discriminate; auto.
  apply andb_true_iff in H. destruct H as [H1 H2].
  apply ascii_eqb_eq in H1. subst. f_equal. auto.
Qed.

Lemma lit_eq_refl ic l : lit_eq ic l l = true.
Proof.
  induction l; simpl; auto. apply andb_true_iff. split; [apply char_eq_refl | auto].
Qed.

Lemma symbol_first old : is_symbol old = true ->
  exists c old', old = c :: old' /\ is_word c = true /\ forallb is_word old' = true.
Proof.
  destruct old as [|c old']; simpl; [discriminate|]. intros H.
  apply andb_true_iff in H. destruct H. eauto.
Qed.

Lemma last_char_forall (p : ascii -> bool) : forall w prev,
  forallb p w = true -> w <> [] -> exists c, last_char prev w = Some c /\ p c = true.
Proof.
  induction w as [|a w IH]; simpl; intros prev H Hne; [congruence|].
  apply andb_true_iff in H. destruct H as [Ha Hw].
  destruct w as [|b w'].
  - simpl. eauto.
  - apply IH; auto. discriminate.
Qed.

(** *** Whole-word occurrences *)

Lemma firstn_length_app {A} (a b : list A) : firstn (length a) (a ++ b) = a.
Proof. induction a; simpl; auto. f_equal. auto. Qed.

Lemma skipn_length_app {A} (a b : list A) : skipn (length a) (a ++ b) = b.
Proof. induction a; simpl; auto. Qed.

Lemma occurs_from_intro ic old o post : forall pre prev,
  lit_eq ic old o = true ->
  word_opt (last_char prev pre) = false ->
  word_opt (next_char post) = false ->
  occurs_from ic old prev (pre ++ o ++ post) = true.
Proof.
  intros pre. induction pre as [|a pre IH]; intros prev Hl Hb Ha.
  - simpl in *. pose proof (lit_eq_length _ _ _ Hl) as Hlen.
    destruct (o ++ post) eqn:E.
    + simpl. destruct o; [|discriminate]. destruct post; [|discriminate].
      rewrite <- Hlen. simpl in *. rewrite Hb.
      destruct old; [|discriminate]. reflexivity.
    + rewrite <- E. unfold occurs_from.
      destruct (o ++ post) eqn:E2 in |- *; [congruence|].
      rewrite <- E2. rewrite <- Hlen, firstn_length_app, skipn_length_app.
      rewrite Hb, Hl, Ha. reflexivity.
  - simpl. rewrite (IH (Some a)); auto. apply orb_true_r.
Qed.

Lemma word_occurs_intro ic old pre o post :
  lit_eq ic old o = true ->
  word_opt (last_char None pre) = false ->
  word_opt (next_char post) = false ->
  word_occurs ic old (pre ++ o ++ post) = true.
Proof. apply occurs_from_intro. Qed.

End SemFacts.
Import SemFacts.

Module ScanFacts.
Import SemFacts.

Lemma match_at_sound fl r adv prev s st :
  match_at fl r adv prev s = Some st ->
  exists w rest,
    s = w ++ rest /\ denote fl r prev 0 w rest [] (m_caps st) /\
    m_pos st = length w /\ m_rest st = rest /\ m_prev st = last_char prev w.
Proof.
  unfold match_at. intros H. apply run_sound in H.
  destruct H as (w & rest & c & E & D & H). simpl in *.
  destruct (adv && (length w =? 0)); [discriminate|].
  injection H as <-. simpl. exists w, rest. auto.
Qed.

(** Every match the scanning loop reports was found by the matcher at a
    position of the text. *)
Lemma scan_hit fl r : forall s0 prev0 skip s st,
  In (Hit s st) (scan fl r prev0 s0 skip) ->
  exists pre adv, s0 = pre ++ s /\ match_at fl r adv (last_char prev0 pre) s = Some st.
Proof.
  induction s0 as [|c s0 IH]; intros prev0 skip s st H.
  - simpl in H. destruct skip; [|contradiction].
    destruct (match_at fl r false prev0 []) eqn:E; [|contradiction].
    destruct H as [H|[]]. injection H as <- <-. exists [], false. auto.
  - assert (Hrec : forall n, In (Hit s st) (scan fl r (Some c) s0 n) ->
      exists pre adv, c :: s0 = pre ++ s /\
        match_at fl r adv (last_char prev0 pre) s = Some st).
    { intros n Hn. apply IH in Hn. destruct Hn as (pre & adv & -> & Hm).
      exists (c :: pre), adv. auto. }
    simpl in H. destruct skip; [|eauto].
    destruct (match_at fl r false prev0 (c :: s0)) as [st1|] eqn:E.
    + destruct (m_pos st1) eqn:Ep.
      * destruct H as [H|H].
        { injection H as <- <-. exists [], false. auto. }
        destruct (match_at fl r true prev0 (c :: s0)) as [st2|] eqn:E2.
        { destruct (m_pos st2).
          - destruct H as [H|H]; [discriminate|eauto].
          - destruct H as [H|H]; [|eauto].
            injection H as <- <-. exists [], true. auto. }
        destruct H as [H|H]; [discriminate|eauto].
      * destruct H as [H|H]; [|eauto].
        injection H as <- <-. exists [], false. auto.
    + destruct H as [H|H]; [discriminate|eauto].
Qed.

(** Replacing every match by its own text gives the text back. *)
Lemma join_identity fl r f : forall s0 prev0 skip,
  (forall s st, In (Hit s st) (scan fl r prev0 s0 skip) -> f s st = Some (group0 s st)) ->
  join_pieces f (scan fl r prev0 s0 skip) = Some (skipn skip s0).
Proof.
  induction s0 as [|c s0 IH]; intros prev0 skip Hf.
  - simpl in *. destruct skip; [|reflexivity].
    destruct (match_at fl r false prev0 []) as [st|] eqn:E; [|reflexivity].
    simpl. rewrite (Hf [] st (or_introl eq_refl)). unfold group0.
    rewrite firstn_nil. reflexivity.
  - simpl in *. destruct skip.
    2:{ apply IH. auto. }
    destruct (match_at fl r false prev0 (c :: s0)) as [st1|] eqn:E.
    + destruct (m_pos st1) eqn:Ep.
      * simpl. rewrite (Hf _ st1 (or_introl eq_refl)). unfold group0 at 1.
        rewrite Ep. simpl.
        destruct (match_at fl r true prev0 (c :: s0)) as [st2|] eqn:E2.
        { destruct (m_pos st2) eqn:Ep2.
          - simpl. rewrite IH; [reflexivity|]. intros; apply Hf; simpl; auto.
          - simpl. rewrite (Hf _ st2 (or_intror (or_introl eq_refl))).
            rewrite IH by (intros; apply Hf; simpl; auto).
            unfold group0. rewrite Ep2. simpl. rewrite firstn_skipn. reflexivity. }
        simpl. rewrite IH; [reflexivity|]. intros; apply Hf; simpl; auto.
      * simpl. rewrite (Hf _ st1 (or_introl eq_refl)).
        rewrite IH by (intros; apply Hf; simpl; auto).
        unfold group0. rewrite Ep. simpl. rewrite firstn_skipn. reflexivity.
    + simpl. rewrite IH; [reflexivity|]. intros; apply Hf; simpl; auto.
Qed.


Lemma sub_no_match fl r n repl s0 :
  parse_template n repl <> None -> no_match fl r s0 ->
  sub fl r n repl s0 = Some s0.
Proof.
  intros Hp Hn. unfold sub. destruct (parse_template n repl); [|congruence].
  unfold finditer. rewrite join_identity; [reflexivity|].
  intros s st H. apply scan_hit in H. destruct H as (pre & adv & E & Hm).
  exfalso. eapply Hn; eauto.
Qed.

Lemma sub_fn_identity fl r f s0 :
  (forall pre s adv st, s0 = pre ++ s ->
     match_at fl r adv (last_char None pre) s = Some st ->
     f (group0 s st) = Some (group0 s st)) ->
  sub_fn fl r f s0 = Some s0.
Proof.
  intros H. unfold sub_fn, finditer. rewrite join_identity; [reflexivity|].
  intros s st Hin. apply scan_hit in Hin. destruct Hin as (pre & adv & E & Hm).
  eapply H; eauto.
Qed.

(** *** Templates *)

Lemma tparse_plain n : forall new rest,
  forallb (fun c => negb (ascii_eqb c backslash)) new = true ->
  tparse n TNormal (new ++ rest) =
  match tparse n TNormal rest with
  | Some l => Some (map TChar new ++ l)
  | None => None
  end.
Proof.
  induction new as [|c new IH]; intros rest H.
  - simpl. destruct (tparse n TNormal rest); reflexivity.
  - simpl in H. apply andb_true_iff in H. destruct H as [Hc Hn].
    apply negb_true_iff in Hc. simpl. rewrite Hc. rewrite IH by auto.
    destruct (tparse n TNormal rest); reflexivity.
Qed.

Lemma parse_template_safe new :
  template_safe new = true ->
  parse_template 2 (template new) = Some (TGroup 1 :: map TChar new ++ [TGroup 2]).
Proof.
  unfold template_safe, parse_template, template. intros H.
  apply andb_true_iff in H. destruct H as [Hb Hd].
  destruct new as [|c new].
  - reflexivity.
  - simpl in Hb. apply andb_true_iff in Hb. destruct Hb as [Hc Hn].
    apply negb_true_iff in Hc. apply negb_true_iff in Hd.
    change (tparse 2 TNormal ([backslash; ascii_of_nat 49] ++ (c :: new) ++ [backslash; ascii_of_nat 50]))
      with (tparse 2 (TDigit 1) (c :: new ++ [backslash; ascii_of_nat 50])).
    simpl tparse at 1. rewrite Hd, Hc. rewrite tparse_plain by auto.
    reflexivity.
Qed.

Lemma parse_template_plain new :
  forallb (fun c => negb (ascii_eqb c backslash)) new = true ->
  parse_template 0 new = Some (map TChar new).
Proof.
  intros H. unfold parse_template. rewrite <- (app_nil_r new) at 1.
  rewrite tparse_plain by auto. simpl. rewrite app_nil_r. reflexivity.
Qed.

End ScanFacts.
Import ScanFacts.

Module RuleFacts.
Import SemFacts ScanFacts.

Ltac break :=
  repeat match goal with
         | H : exists _, _ |- _ => destruct H
         | H : _ /\ _ |- _ => destruct H
         end.




Lemma before_ok_seq fl r1 r2 : before_ok fl r2 -> before_ok fl (Seq r1 r2).
Proof.
  intros H prev pos w rest ci co c D Hn Hw. simpl in D. break. subst.
  rewrite last_char_app. eapply H; eauto.
Qed.

Lemma before_ok_wordb fl : before_ok fl WordB.
Proof.
  intros prev pos w rest ci co c D Hn Hw. simpl in D. break. subst. simpl.
  unfold at_word_boundary in *. rewrite Hn in *. simpl in *. rewrite Hw in *.
  destruct (word_opt prev); simpl in *; congruence.
Qed.

Lemma plus_first fl g p prev pos w rest ci co :
  denote fl (Plus g p) prev pos w rest ci co ->
  exists c w', w = c :: w' /\ p c = true /\ forallb p w' = true.
Proof.
  simpl. intros D. break. subst. simpl. eauto.
Qed.

Lemma before_ok_plus_ws fl g : before_ok fl (Plus g ws).
Proof.
  intros prev pos w rest ci co c D Hn Hw. apply plus_first in D.
  destruct D as (a & w' & -> & Ha & Hw').
  destruct (last_char_forall ws (a :: w') prev) as (x & -> & Hx).
  - simpl. rewrite Ha. auto.
  - discriminate.
  - simpl. apply space_not_word. auto.
Qed.

Lemma hash_only ic c : char_eq ic hash c = true -> c = hash.
Proof. destruct ic; all_chars c. Qed.

Lemma nl_only ic c : char_eq ic nl c = true -> c = nl.
Proof. destruct ic; all_chars c. Qed.

Lemma before_ok_hash_ws fl g : before_ok fl (Seq (kw "#") (Star g ws)).
Proof.
  intros prev pos w rest ci co c D Hn Hw. simpl in D. break. subst.
  destruct x as [|a [|b x]]; simpl in H0; try discriminate.
  - destruct (char_eq (IGNORECASE fl) "#" a) eqn:E; [|discriminate].
    apply hash_only in E. subst a. simpl.
    destruct x0 as [|b x0]; [reflexivity|].
    destruct (last_char_forall ws (b :: x0) (Some hash)) as (y & Hy & Hs); auto.
    + discriminate.
    + cbn [app last_char] in *. rewrite Hy. simpl. apply space_not_word. auto.
  - destruct (char_eq (IGNORECASE fl) "#" a); discriminate.
Qed.

Lemma after_line_star_ws fl g : after_line fl (Star g ws).
Proof.
  intros prev pos w rest ci co D Hp He. simpl in D. break.
  destruct w as [|a w]; simpl in *.
  - destruct rest as [|b rest]; [reflexivity|]. simpl in *.
    apply andb_true_iff in He. destruct He as [He _].
    apply ascii_eqb_eq in He. subst. reflexivity.
  - apply andb_true_iff in H. destruct H. apply space_not_word. auto.
Qed.

Lemma after_line_wordb fl X : after_line fl (Seq WordB X).
Proof.
  intros prev pos w rest ci co D Hp He. simpl in D. break. subst. simpl.
  unfold at_word_boundary in *. rewrite Hp in *.
  destruct (word_opt (next_char (x0 ++ rest))); simpl in *; congruence.
Qed.

Lemma after_line_plus_ws fl g X : after_line fl (Seq (Plus g ws) X).
Proof.
  intros prev pos w rest ci co D Hp He.
  cbn [denote] in D. destruct D as (w1 & w2 & cm & -> & D1 & D2).
  apply plus_first in D1. destruct D1 as (a & w' & -> & Ha & _).
  simpl. apply space_not_word. auto.
Qed.

Lemma symbol_word_last o old ic prev :
  is_symbol old = true -> lit_eq ic old o = true ->
  word_opt (last_char prev o) = true /\
  exists c o', o = c :: o' /\ is_word c = true.
Proof.
  intros Hs Hl. destruct (symbol_first _ Hs) as (c & old' & -> & Hc & Ho).
  assert (Hw : forallb is_word o = true).
  { eapply lit_eq_word; eauto. }
  destruct o as [|a o]; [discriminate|]. split.
  - destruct (last_char_forall is_word (a :: o) prev) as (x & -> & Hx); auto.
    discriminate.
  - simpl in Hw. apply andb_true_iff in Hw. destruct Hw. eauto.
Qed.

(** The line-anchored rules: [^(before)OLD(after)$]. *)
Lemma line_rule fl B A old :
  before_ok fl B -> after_line fl A -> is_symbol old = true ->
  selects_word fl (seq [Bol; around B old A; Eol]) old.
Proof.
  intros HB HA Hs prev pos w rest ci co D.
  cbn [seq around denote] in D.
  destruct D as (w0 & wX & c0 & -> & ((-> & Hbol) & ->) & D).
  destruct D as (wa & we & c1 & -> & D & ((-> & Heol) & ->)).
  destruct D as (g1 & og & c2 & -> & (c3 & DB & ->) & D).
  destruct D as (o & g2 & c4 & -> & (Hl & ->) & (c5 & DA & ->)).
  simpl in *. rewrite app_nil_r in *.
  pose proof (symbol_word_last o old _ (last_char prev g1) Hs Hl) as [Hlast (c & o' & -> & Hc)].
  exists g1, (c :: o'), (g2 ++ rest). repeat rewrite <- app_assoc. simpl.
  split; [reflexivity|]. split; [auto|]. split.
  - eapply HB; eauto. simpl. reflexivity.
  - eapply HA; eauto.
Qed.


(** The free rules: [(before)OLD(\b)]. *)
Lemma free_rule fl B old :
  before_ok fl B -> is_symbol old = true ->
  selects_word fl (around B old WordB) old.
Proof.
  intros HB Hs prev pos w rest ci co D.
  cbn [seq around denote] in D.
  destruct D as (g1 & og & c2 & -> & (c3 & DB & ->) & D).
  destruct D as (o & g2 & c4 & -> & (Hl & ->) & (c5 & ((-> & Hb) & ->) & ->)).
  rewrite app_nil_r in *.
  pose proof (symbol_word_last o old _ (last_char prev g1) Hs Hl) as [Hlast (c & o' & -> & Hc)].
  exists g1, (c :: o'), rest. rewrite <- app_assoc.
  split; [reflexivity|]. split; [auto|]. split.
  - eapply HB; eauto. simpl. reflexivity.
  - unfold at_word_boundary in Hb. rewrite Hlast in Hb.
    destruct (word_opt (next_char rest)); simpl in *; congruence.
Qed.

Ltac before_tac :=
  first [ apply before_ok_plus_ws
        | apply before_ok_hash_ws
        | apply before_ok_wordb
        | apply before_ok_seq; before_tac ].

Lemma keyword_line_selects k old :
  is_symbol old = true -> selects_word M (keyword_line k old) old.
Proof.
  intros Hs. apply line_rule; auto.
  - cbn [seq]. before_tac.
  - apply after_line_star_ws.
Qed.

Lemma rule1_selects old : is_symbol old = true -> selects_word M (rule1 old) old.
Proof.
  intros Hs. apply line_rule; auto.
  - cbn [seq]. before_tac.
  - apply after_line_star_ws.
Qed.

Lemma rule3_selects old : is_symbol old = true -> selects_word M (rule3 old) old.
Proof.
  intros Hs. apply line_rule; auto.
  - cbn [seq]. before_tac.
  - apply after_line_star_ws.
Qed.

Lemma rule4_selects old : is_symbol old = true -> selects_word I (rule4 old) old.
Proof. intros Hs. apply free_rule; auto. cbn [seq]. before_tac. Qed.

Lemma rule8b_selects old : is_symbol old = true -> selects_word M (rule8b old) old.
Proof.
  intros Hs. apply line_rule; auto.
  - cbn [seq]. before_tac.
  - apply after_line_wordb.
Qed.

Lemma rule10_selects old : is_symbol old = true -> selects_word I (rule10 old) old.
Proof. intros Hs. apply free_rule; auto. cbn [seq]. before_tac. Qed.

Lemma rule11a_selects old : is_symbol old = true -> selects_word M (rule11a old) old.
Proof.
  intros Hs. apply line_rule; auto.
  - cbn [seq]. before_tac.
  - apply after_line_star_ws.
Qed.

Lemma rule11b_selects old : is_symbol old = true -> selects_word M (rule11b old) old.
Proof.
  intros Hs. apply line_rule; auto.
  - cbn [seq]. before_tac.
  - cbn [seq]. apply after_line_plus_ws.
Qed.

Lemma rule12_selects old : is_symbol old = true -> selects_word I (rule12 old) old.
Proof. intros Hs. apply free_rule; auto. cbn [seq]. before_tac. Qed.

(** A rule that selects a word cannot match a text in which the word
    does not occur. *)
Lemma selects_no_match fl R old text :
  selects_word fl R old -> word_occurs true old text = false -> no_match fl R text.
Proof.
  intros HR Ho pre s adv st E Hm. apply match_at_sound in Hm.
  destruct Hm as (w & rest & -> & D & _).
  apply HR in D. destruct D as (g1 & o & post & E2 & Hl & Hb & Ha).
  assert (word_occurs true old text = true); [|congruence].
  subst text. rewrite E2, app_assoc. apply word_occurs_intro.
  - eapply lit_eq_weaken; eauto.
  - rewrite last_char_app. auto.
  - auto.
Qed.

Lemma sub_rule_identity fl R old new text :
  selects_word fl R old -> template_safe new = true ->
  word_occurs true old text = false ->
  sub_rule fl R new text = Some text.
Proof.
  intros HR Hn Ho. unfold sub_rule. apply sub_no_match.
  - rewrite parse_template_safe by auto. discriminate.
  - eapply selects_no_match; eauto.
Qed.


(** *** Step 6: the multi-line [depends on] span *)

(** What the outer pattern matches begins with the keyword, followed by
    white space, and stops in front of a line break. *)
Lemma depends_shape prev pos w rest ci co :
  denote MSI multiline_depends_pattern prev pos w rest ci co ->
  exists d c tl,
    w = d ++ c :: tl /\ lit_eq true (txt "depends") d = true /\
    is_space c = true /\ next_char rest = Some nl.
Proof.
  unfold multiline_depends_pattern. cbn [seq]. intros D.
  destruct D as (d & w1 & c1 & -> & (Hd & _) & D).
  destruct D as (sp & w2 & c2 & -> & Dsp & D).
  apply plus_first in Dsp. destruct Dsp as (c & sp' & -> & Hc & _).
  destruct D as (w3 & w4 & c3 & -> & _ & D).
  destruct D as (w5 & w6 & c4 & -> & _ & D).
  destruct D as (w7 & w8 & c5 & -> & _ & D).
  destruct D as ((-> & (la & rest' & c6 & -> & D)) & _).
  destruct D as (n & more & c7 & -> & (Hn & _) & _).
  exists d, c, (sp' ++ w3 ++ w5 ++ w7). split.
  - simpl. repeat rewrite <- app_assoc. simpl. rewrite app_nil_r. reflexivity.
  - split; [exact Hd|]. split; [exact Hc|].
    destruct n as [|x [|y n]]; simpl in Hn; try discriminate.
    + apply andb_true_iff in Hn. destruct Hn as [Hn _].
      apply (nl_only true) in Hn. subst. reflexivity.
    + rewrite andb_false_r in Hn. discriminate.
Qed.

Lemma last_char_nonempty prev prev' w : w <> [] -> last_char prev w = last_char prev' w.
Proof. destruct w; [congruence|]. reflexivity. Qed.

Lemma next_char_app_nonempty (a b : text) : a <> [] -> next_char (a ++ b) = next_char a.
Proof. destruct a; [congruence|]. reflexivity. Qed.

Lemma rule6_identity old new text :
  is_symbol old = true -> lit_eq true (txt "depends") old = false ->
  template_safe new = true ->
  word_occurs true old text = false ->
  rule6 old new text = Some text.
Proof.
  intros Hs Hd Hn Ho. unfold rule6. apply sub_fn_identity.
  intros pre s adv st E Hm.
  unfold replace_multiline_depends. apply sub_no_match.
  { rewrite parse_template_plain; [discriminate|].
    unfold template_safe in Hn. apply andb_true_iff in Hn. tauto. }
  intros pre2 s2 adv2 st2 E2 Hm2.
  apply match_at_sound in Hm. destruct Hm as (w & rest & Es & D & Hpos & _).
  assert (Hg : group0 s st = w).
  { unfold group0. rewrite Hpos, Es, firstn_length_app. reflexivity. }
  rewrite Hg in E2. clear Hg.
  apply match_at_sound in Hm2. destruct Hm2 as (w2 & rest2 & Es2 & D2 & _).
  unfold whole_word in D2. cbn [seq] in D2.
  destruct D2 as (e1 & w3 & c1 & -> & ((-> & Hb1) & _) & D2).
  destruct D2 as (o & e2 & c2 & -> & (Hl & _) & ((-> & Hb2) & _)).
  simpl in Hl. apply lit_eq_exact in Hl. subst o.
  simpl in Hb1, Hb2, Es2. rewrite app_nil_r in *.
  pose proof (symbol_word_last old old false (last_char None pre2) Hs (lit_eq_refl _ _))
    as [Hlast (c & o' & Eo & Hc)].
  assert (Hbefore : word_opt (last_char None pre2) = false).
  { unfold at_word_boundary in Hb1. rewrite Eo in Hb1. simpl in Hb1. rewrite Hc in Hb1.
    destruct (word_opt (last_char None pre2)); simpl in *; congruence. }
  assert (Hafter : word_opt (next_char rest2) = false).
  { unfold at_word_boundary in Hb2. rewrite Hlast in Hb2.
    destruct (word_opt (next_char rest2)); simpl in *; congruence. }
  apply depends_shape in D. destruct D as (d & sp & tl & Ew & Hdep & Hsp & Hnl).
  assert (word_occurs true old text = true); [|congruence].
  subst text s s2.
  assert (Hw : w = pre2 ++ old ++ rest2) by auto. clear E2.
  rewrite Hw. repeat rewrite <- app_assoc. rewrite (app_assoc pre pre2).
  apply word_occurs_intro.
  - apply lit_eq_refl.
  - rewrite last_char_app. destruct pre2 as [|p pre2].
    + (* the word opens the span: it would be the keyword itself *)
      exfalso. simpl in Hw. rewrite Ew in Hw.
      assert (Hdw : forallb is_word d = true).
      { eapply lit_eq_word; eauto. }
      apply app_eq_app in Hw. destruct Hw as (l & [[E1 E3] | [E1 E3]]).
      * destruct l as [|x l].
        { rewrite app_nil_r in E1. subst d. congruence. }
        subst d rest2. rewrite forallb_app in Hdw.
        apply andb_true_iff in Hdw. destruct Hdw as [_ Hdw]. simpl in Hdw.
        apply andb_true_iff in Hdw. destruct Hdw as [Hx _].
        simpl in Hafter. congruence.
      * destruct l as [|x l].
        { rewrite app_nil_r in E1. subst d. congruence. }
        simpl in E3. injection E3 as -> ->.
        assert (Hall : forallb is_word old = true).
        { destruct old; [discriminate|exact Hs]. }
        rewrite E1, forallb_app in Hall.
        apply andb_true_iff in Hall. destruct Hall as [_ Hall]. simpl in Hall.
        apply andb_true_iff in Hall. destruct Hall as [Hx _].
        apply space_not_word in Hsp. congruence.
    + rewrite (last_char_nonempty _ None) by discriminate. exact Hbefore.
  - destruct rest2 as [|r rest2].
    + simpl. rewrite Hnl. reflexivity.
    + simpl in *. exact Hafter.
Qed.

(** *** The whole pass *)

Lemma rename_one_identity old new text :
  is_symbol old = true -> lit_eq true (txt "depends") old = false ->
  template_safe new = true ->
  word_occurs true old text = false ->
  rename_one old new text = Some text.
Proof.
  intros Hs Hd Hn Ho. unfold rename_one, rule2, rule5, rule7, rule8a, rule9.
  assert (Hsub : forall fl R, selects_word fl R old ->
                              sub_rule fl R new text = Some text).
  { intros. eapply sub_rule_identity; eauto. }
  repeat (first
    [ rewrite rule6_identity by auto
    | rewrite Hsub
        by (auto using rule1_selects, keyword_line_selects, rule3_selects,
              rule4_selects, rule8b_selects, rule10_selects, rule11a_selects,
              rule11b_selects, rule12_selects) ];
    cbn [bind]).
  reflexivity.
Qed.

End RuleFacts.
Import RuleFacts.

Module EvalFacts.

(** *** Running the matcher forward on a known text *)

Lemma match_lit_app fl l : forall w rest prev pos c k,
  lit_eq (IGNORECASE fl) l w = true ->
  match_lit fl l prev pos (w ++ rest) c k =
  k (MState (last_char prev w) (pos + length w) rest c).
Proof.
  induction l as [|x l IH]; intros [|a w] rest prev pos c k H; simpl in H;
    try discriminate.
  - simpl. rewrite Nat.add_0_r. reflexivity.
  - apply andb_true_iff in H. destruct H as [H1 H2].
    cbn [app match_lit]. rewrite H1. rewrite IH by auto.
    cbn [last_char length]. rewrite Nat.add_succ_r. reflexivity.
Qed.

Lemma run_lit fl l w rest prev pos c k :
  lit_eq (IGNORECASE fl) l w = true ->
  run fl (Lit l) (MState prev pos (w ++ rest) c) k =
  k (MState (last_char prev w) (pos + length w) rest c).
Proof. intros H. cbn [run m_prev m_pos m_rest m_caps]. apply match_lit_app. auto. Qed.

Lemma run_cls fl p a s prev pos c k :
  p a = true ->
  run fl (Cls p) (MState prev pos (a :: s) c) k = k (MState (Some a) (S pos) s c).
Proof. intros H. cbn [run m_prev m_pos m_rest m_caps]. rewrite H. reflexivity. Qed.


Lemma star_greedy_stop p rest prev pos c k :
  stops p rest -> star_greedy p prev pos rest c k = k (MState prev pos rest c).
Proof. destruct rest; simpl; intros H; [reflexivity|]. rewrite H. reflexivity. Qed.

(** The greedy star gives everything back when no longer run lets the
    rest match. *)
Lemma star_greedy_backtrack p : forall w rest prev pos c k,
  forallb p w = true -> stops p rest ->
  (forall w1 w2, w = w1 ++ w2 -> w1 <> [] ->
     k (MState (last_char prev w1) (pos + length w1) (w2 ++ rest) c) = None) ->
  star_greedy p prev pos (w ++ rest) c k = k (MState prev pos (w ++ rest) c).
Proof.
  induction w as [|a w IH]; intros rest prev pos c k Hp Hs Hk.
  - simpl. apply star_greedy_stop. auto.
  - simpl in Hp. apply andb_true_iff in Hp. destruct Hp as [Ha Hw].
    cbn [app star_greedy]. rewrite Ha. rewrite IH; auto.
    + pose proof (Hk [a] w eq_refl ltac:(discriminate)) as H1.
      cbn [last_char length] in H1. rewrite Nat.add_1_r in H1. rewrite H1.
      reflexivity.
    + intros w1 w2 E Hne. specialize (Hk (a :: w1) w2).
      cbn [last_char length] in Hk. rewrite Nat.add_succ_r in Hk.
      apply Hk; [subst; reflexivity | discriminate].
Qed.

Lemma run_wordb fl prev pos s c k :
  at_word_boundary prev s = true ->
  run fl WordB (MState prev pos s c) k = k (MState prev pos s c).
Proof. intros H. cbn [run m_prev m_pos m_rest m_caps]. rewrite H. reflexivity. Qed.

Lemma run_wordb_fail fl prev pos s c k :
  at_word_boundary prev s = false ->
  run fl WordB (MState prev pos s c) k = None.
Proof. intros H. cbn [run m_prev m_pos m_rest m_caps]. rewrite H. reflexivity. Qed.

Lemma run_bol fl prev pos s c k :
  at_bol fl prev = true -> run fl Bol (MState prev pos s c) k = k (MState prev pos s c).
Proof. intros H. cbn [run m_prev m_pos m_rest m_caps]. rewrite H. reflexivity. Qed.

Lemma run_eol fl prev pos s c k :
  at_eol fl s = true -> run fl Eol (MState prev pos s c) k = k (MState prev pos s c).
Proof. intros H. cbn [run m_prev m_pos m_rest m_caps]. rewrite H. reflexivity. Qed.

Lemma run_star_stop fl p prev pos s c k :
  stops p s ->
  run fl (Star true p) (MState prev pos s c) k = k (MState prev pos s c).
Proof. intros H. cbn [run m_prev m_pos m_rest m_caps]. apply star_greedy_stop. auto. Qed.

Lemma run_plus_one fl p a s prev pos c k :
  p a = true -> stops p s ->
  run fl (Plus true p) (MState prev pos (a :: s) c) k = k (MState (Some a) (S pos) s c).
Proof.
  intros Ha Hs. unfold Plus. cbn [run m_prev m_pos m_rest m_caps]. rewrite Ha.
  apply star_greedy_stop. auto.
Qed.

Lemma run_star_backtrack fl p w rest prev pos c k :
  forallb p w = true -> stops p rest ->
  (forall w1 w2, w = w1 ++ w2 -> w1 <> [] ->
     k (MState (last_char prev w1) (pos + length w1) (w2 ++ rest) c) = None) ->
  run fl (Star true p) (MState prev pos (w ++ rest) c) k =
  k (MState prev pos (w ++ rest) c).
Proof. intros. cbn [run m_prev m_pos m_rest m_caps]. apply star_greedy_backtrack; auto. Qed.

(** *** The scanning loop around a single match that reaches the end *)

Lemma scan_skip_all fl r : forall s prev,
  scan fl r prev s (length s) = scan fl r (last_char prev s) [] 0.
Proof. induction s as [|a s IH]; intros prev; simpl; auto. Qed.

Lemma scan_one_hit fl r prev a s st :
  match_at fl r false prev (a :: s) = Some st ->
  m_pos st = S (length s) ->
  match_at fl r false (last_char (Some a) s) [] = None ->
  scan fl r prev (a :: s) 0 = [Hit (a :: s) st].
Proof.
  intros Hm Hp He. cbn [scan]. rewrite Hm, Hp, scan_skip_all.
  cbn [scan]. rewrite He. reflexivity.
Qed.

Lemma expand_template new s st :
  expand (TGroup 1 :: map TChar new ++ [TGroup 2]) s st =
  group 1 s st ++ new ++ group 2 s st.
Proof.
  unfold expand. cbn [flat_map]. f_equal. rewrite flat_map_app. f_equal.
  - induction new; simpl; auto. f_equal. auto.
  - simpl. rewrite app_nil_r. reflexivity.
Qed.

Lemma sub_rule_one_hit fl R new a s st :
  template_safe new = true ->
  match_at fl R false None (a :: s) = Some st ->
  m_pos st = S (length s) ->
  match_at fl R false (last_char (Some a) s) [] = None ->
  sub_rule fl R new (a :: s) =
  Some (group 1 (a :: s) st ++ new ++ group 2 (a :: s) st).
Proof.
  intros Hn Hm Hp He. unfold sub_rule, sub. rewrite parse_template_safe by auto.
  unfold finditer. rewrite (scan_one_hit _ _ _ _ _ _ Hm Hp He).
  cbn [join_pieces]. rewrite expand_template, app_nil_r. reflexivity.
Qed.

End EvalFacts.
Import EvalFacts.

Module CaseFacts.

Lemma run_seq fl a b st k :
  run fl (Seq a b) st k = run fl a st (fun st' => run fl b st' k).
Proof. reflexivity. Qed.

Lemma run_group fl n r st k :
  run fl (Group n r) st k =
  run fl r st (fun st' => k (MState (m_prev st') (m_pos st') (m_rest st')
                                    ((n, (m_pos st, m_pos st')) :: m_caps st'))).
Proof. reflexivity. Qed.

Ltac tidy := cbv beta; cbn [m_prev m_pos m_rest m_caps].

Lemma word_not_hash_nl c : is_word c = true -> not_hash_nl c = true.
Proof. all_chars c. Qed.

Lemma word_not_space c : is_word c = true -> is_space c = false.
Proof. all_chars c. Qed.

Lemma forallb_impl {A} (p q : A -> bool) l :
  (forall x, p x = true -> q x = true) -> forallb p l = true -> forallb q l = true.
Proof.
  intros H. induction l; simpl; auto. intros H1.
  apply andb_true_iff in H1. destruct H1. rewrite H, IHl; auto.
Qed.




Lemma prefix2_app k1 k2 v : prefix2 k1 k2 ++ v = k1 ++ sp :: k2 ++ sp :: v.
Proof. unfold prefix2. rewrite <- app_assoc. simpl. rewrite <- app_assoc. reflexivity. Qed.

Lemma prefix2_length k1 k2 : length (prefix2 k1 k2) = S (S (0 + length k1) + length k2).
Proof. unfold prefix2. rewrite length_app. simpl. rewrite length_app. simpl. lia. Qed.

Lemma two_keywords_match k1 k2 old v :
  word_opt (next_char k1) = true -> stops ws k2 -> k2 <> [] ->
  is_symbol old = true -> lit_eq true old v = true ->
  match_at I (two_keywords k1 k2 old) false None (prefix2 k1 k2 ++ v) =
  Some (MState (last_char (Some sp) v) (length (prefix2 k1 k2) + length v) []
               [(2, (length (prefix2 k1 k2) + length v,
                     length (prefix2 k1 k2) + length v));
                (1, (0, length (prefix2 k1 k2)))]).
Proof.
  intros Hk1 Hk2 Hk2' Hs Hl.
  pose proof (symbol_word_last v old true (Some sp) Hs Hl) as [Hlast (c & v' & Ev & Hc)].
  assert (Hw : forallb is_word v = true).
  { eapply lit_eq_word; eauto. destruct old; [discriminate|exact Hs]. }
  rewrite prefix2_app, prefix2_length.
  unfold match_at, two_keywords, around. cbn [seq].
  rewrite run_seq, run_group, run_seq.
  rewrite run_wordb.
  2:{ unfold at_word_boundary. destruct k1; simpl in *; [discriminate|].
      rewrite Hk1. reflexivity. }
  tidy.
  rewrite run_seq, run_lit by apply (lit_eq_refl true). tidy.
  rewrite run_seq, run_plus_one;
    [|reflexivity| destruct k2; [congruence | exact Hk2]]. tidy.
  rewrite run_seq, run_lit by apply (lit_eq_refl true). tidy.
  rewrite run_seq, run_plus_one;
    [|reflexivity| subst v; simpl; apply word_not_space; auto]. tidy.
  rewrite run_seq. rewrite <- (app_nil_r v) at 1.
  destruct (symbol_first _ Hs) as (x & old' & Eold & _ & _).
  rewrite run_star_backtrack.
  - tidy. rewrite app_nil_r. rewrite run_wordb.
    2:{ subst v. unfold at_word_boundary. simpl. rewrite Hc. reflexivity. }
    tidy. rewrite run_seq. rewrite <- (app_nil_r v) at 1.
    rewrite run_lit by exact Hl. tidy.
    rewrite run_group, run_wordb.
    2:{ unfold at_word_boundary. rewrite Hlast. reflexivity. }
    tidy. reflexivity.
  - eapply forallb_impl; [apply word_not_hash_nl | exact Hw].
  - exact Logic.I.
  - intros w1 w2 E Hne. tidy. rewrite app_nil_r.
    assert (Hw1 : word_opt (last_char (Some sp) w1) = true).
    { rewrite E, forallb_app in Hw. apply andb_true_iff in Hw. destruct Hw as [Hw1 _].
      destruct (last_char_forall is_word w1 (Some sp) Hw1 Hne) as (y & -> & Hy).
      exact Hy. }
    destruct w2 as [|y w2].
    + rewrite run_wordb.
      2:{ unfold at_word_boundary. rewrite Hw1. reflexivity. }
      tidy. rewrite run_seq. subst old. reflexivity.
    + rewrite run_wordb_fail; [reflexivity|].
      unfold at_word_boundary. rewrite Hw1.
      rewrite E, forallb_app in Hw. apply andb_true_iff in Hw. destruct Hw as [_ Hw2].
      simpl in Hw2. apply andb_true_iff in Hw2. destruct Hw2 as [Hy _].
      simpl. rewrite Hy. reflexivity.
Qed.

(** At the end of the text nothing is left for a keyword to match. *)
Lemma two_keywords_end k1 k2 old prev :
  k1 <> [] -> match_at I (two_keywords k1 k2 old) false prev [] = None.
Proof.
  intros Hk. unfold match_at, two_keywords, around. cbn [seq].
  rewrite run_seq, run_group, run_seq.
  destruct (at_word_boundary prev []) eqn:E.
  - rewrite run_wordb by auto. tidy. rewrite run_seq.
    destruct k1; [congruence|]. reflexivity.
  - rewrite run_wordb_fail by auto. reflexivity.
Qed.

Lemma two_keywords_sub k1 k2 old new v :
  word_opt (next_char k1) = true -> stops ws k2 -> k2 <> [] ->
  is_symbol old = true -> lit_eq true old v = true ->
  template_safe new = true ->
  sub_rule I (two_keywords k1 k2 old) new (prefix2 k1 k2 ++ v) =
  Some (prefix2 k1 k2 ++ new).
Proof.
  intros Hk1 Hk2 Hk2' Hs Hl Hn.
  pose proof (two_keywords_match k1 k2 old v Hk1 Hk2 Hk2' Hs Hl) as Hm.
  assert (Hne : k1 <> []) by (destruct k1; [discriminate|congruence]).
  destruct (prefix2 k1 k2 ++ v) as [|a s] eqn:Et.
  { unfold prefix2 in Et. destruct k1; [congruence|discriminate]. }
  rewrite (sub_rule_one_hit I _ new a s _ Hn Hm).
  - unfold group. cbn [cap_lookup Nat.eqb m_caps]. rewrite <- Et.
    rewrite Nat.sub_0_r, Nat.sub_diag. cbn [skipn firstn].
    rewrite firstn_length_app, app_nil_r. reflexivity.
  - cbn [m_pos]. rewrite <- length_app, Et. reflexivity.
  - apply two_keywords_end. auto.
Qed.

(** Step 10: [(\bif\s+)OLD(\b)] on the text [if v]. *)
Lemma rule10_sub old new v :
  is_symbol old = true -> lit_eq true old v = true ->
  template_safe new = true ->
  sub_rule I (rule10 old) new (txt "if " ++ v) = Some (txt "if " ++ new).
Proof.
  intros Hs Hl Hn.
  pose proof (symbol_word_last v old true (Some sp) Hs Hl) as [Hlast (c & v' & Ev & Hc)].
  assert (Hm : match_at I (rule10 old) false None (txt "if " ++ v) =
               Some (MState (last_char (Some sp) v) (3 + length v) []
                            [(2, (3 + length v, 3 + length v)); (1, (0, 3))])).
  { unfold match_at, rule10, around. cbn [seq].
    rewrite run_seq, run_group, run_seq.
    rewrite run_wordb by reflexivity. tidy.
    rewrite run_seq. unfold kw.
    change (txt "if " ++ v) with (txt "if" ++ sp :: v).
    rewrite run_lit by reflexivity. tidy.
    rewrite run_plus_one;
      [|reflexivity| subst v; simpl; apply word_not_space; auto]. tidy.
    rewrite run_seq. rewrite <- (app_nil_r v) at 1.
    rewrite run_lit by exact Hl. tidy.
    rewrite run_group, run_wordb.
    2:{ unfold at_word_boundary. rewrite Hlast. reflexivity. }
    tidy. reflexivity. }
  change (txt "if " ++ v) with ("i"%char :: txt "f " ++ v) in *.
  rewrite (sub_rule_one_hit I _ new _ _ _ Hn Hm).
  - unfold group. cbn [cap_lookup Nat.eqb m_caps].
    rewrite Nat.sub_diag. simpl. rewrite app_nil_r. reflexivity.
  - cbn [m_pos]. rewrite length_app. reflexivity.
  - unfold match_at, rule10, around. cbn [seq].
    rewrite run_seq, run_group, run_seq.
    destruct (at_word_boundary (last_char (Some "i"%char) (txt "f " ++ v)) []) eqn:E.
    + rewrite run_wordb by auto. reflexivity.
    + rewrite run_wordb_fail by auto. reflexivity.
Qed.

End CaseFacts.
Import CaseFacts.

Module DiscoveryFacts.

Lemma text_eqb_eq a : forall b, text_eqb a b = true <-> a = b.
Proof.
  induction a as [|x a IH]; destruct b as [|y b]; simpl; split; intros H;
    try discriminate; auto.
  - apply andb_true_iff in H. destruct H as [H1 H2].
    apply ascii_eqb_eq in H1. apply IH in H2. subst. reflexivity.
  - injection H as -> ->. rewrite ascii_eqb_refl. apply IH. reflexivity.
Qed.

Lemma text_eqb_refl a : text_eqb a a = true.
Proof. apply text_eqb_eq. reflexivity. Qed.

Lemma startswith_app p s : startswith p (p ++ s) = true.
Proof. induction p; simpl; auto. rewrite ascii_eqb_refl. auto. Qed.

Lemma startswith_prefix p : forall s, startswith p s = true -> s = p ++ skipn (length p) s.
Proof.
  induction p as [|x p IH]; intros [|y s] H; simpl in *; try discriminate; auto.
  apply andb_true_iff in H. destruct H as [H1 H2].
  apply ascii_eqb_eq in H1. subst. f_equal. auto.
Qed.

Lemma in_hits s st ps : In (s, st) (hits ps) <-> In (Hit s st) ps.
Proof.
  unfold hits. rewrite in_flat_map. split.
  - intros ([c|s' st'] & Hin & H); simpl in H; [contradiction|].
    destruct H as [H|[]]. injection H as <- <-. auto.
  - intros H. exists (Hit s st). simpl. auto.
Qed.

Lemma skipn_exact {A} n (a b : list A) : n = length a -> skipn n (a ++ b) = b.
Proof. intros ->. apply skipn_length_app. Qed.

Lemma firstn_exact {A} n (a b : list A) : n = length a -> firstn n (a ++ b) = a.
Proof. intros ->. apply firstn_length_app. Qed.


Lemma config_pattern_shape symbol prev w rest co :
  denote M (config_pattern symbol) prev 0 w rest [] co ->
  exists sym a b,
    definition_at symbol sym [txt "config"; txt "menuconfig"] prev w rest /\
    cap_lookup 2 co = Some (a, b) /\ firstn (b - a) (skipn a (w ++ rest)) = sym.
Proof.
  unfold config_pattern. cbn [seq]. intros D.
  destruct D as (e0 & wx & c0 & -> & ((-> & Hbol) & ->) & D).
  destruct D as (w0 & wx1 & c1 & -> & (Hw0 & ->) & D).
  destruct D as (k & wx2 & c2 & -> & (c3 & Dk & ->) & D).
  destruct D as (w1 & wx3 & c4 & -> & Dw1 & D).
  destruct D as (g & wx4 & c5 & -> & (c6 & Dg & ->) & D).
  destruct D as (w2 & e1 & c7 & -> & (Hw2 & ->) & ((-> & Heol) & ->)).
  pose proof Dw1 as Dw1'. apply plus_first in Dw1'.
  destruct Dw1' as (x & w1' & -> & Hx & Hw1').
  assert (c4 = (1, (0 + length (@nil ascii) + length w0,
                     0 + length (@nil ascii) + length w0 + length k)) :: c3)
    by (cbn [denote Plus] in Dw1; break; congruence).
  subst c4.
  destruct Dg as (s1 & tl & c8 & -> & (Hs1 & ->) & (Htl & ->)).
  simpl in Hs1. apply lit_eq_exact in Hs1. subst s1.
  exists (symbol ++ tl). eexists. eexists. split; [|split].
  - exists w0, k, (x :: w1'), tl, w2. repeat split; auto.
    + simpl. rewrite app_nil_r. reflexivity.
    + destruct Dk as [[Hk _] | [Hk _]]; apply lit_eq_exact in Hk;
        subst; simpl; auto.
    + discriminate.
    + simpl. unfold ws in Hx. rewrite Hx. exact Hw1'.
  - cbn [cap_lookup Nat.eqb]. reflexivity.
  - simpl length. rewrite Nat.add_0_l.
    replace (length w0 + length k + S (length w1') + length (symbol ++ tl)
             - (length w0 + length k + S (length w1')))
      with (length (symbol ++ tl)) by lia.
    simpl app. rewrite app_nil_r.
    replace (w0 ++ k ++ x :: w1' ++ (symbol ++ tl) ++ w2)
      with ((w0 ++ k ++ x :: w1') ++ (symbol ++ tl) ++ w2).
    2:{ repeat rewrite <- app_assoc. simpl. reflexivity. }
    rewrite <- app_assoc. rewrite skipn_exact.
    + rewrite <- app_assoc. apply firstn_exact. reflexivity.
    + rewrite !length_app. simpl. lia.
Qed.


Lemma choice_pattern_shape symbol prev w rest co :
  denote M (choice_pattern symbol) prev 0 w rest [] co ->
  exists sym a b,
    definition_at symbol sym [txt "choice"] prev w rest /\
    cap_lookup 1 co = Some (a, b) /\ firstn (b - a) (skipn a (w ++ rest)) = sym.
Proof.
  unfold choice_pattern. cbn [seq]. intros D.
  destruct D as (e0 & wx & c0 & -> & ((-> & Hbol) & ->) & D).
  destruct D as (w0 & wx1 & c1 & -> & (Hw0 & ->) & D).
  destruct D as (k & wx2 & c2 & -> & (Hk & ->) & D).
  destruct D as (w1 & wx3 & c4 & -> & Dw1 & D).
  destruct D as (g & wx4 & c5 & -> & (c6 & Dg & ->) & D).
  destruct D as (w2 & e1 & c7 & -> & (Hw2 & ->) & ((-> & Heol) & ->)).
  pose proof Dw1 as Dw1'. apply plus_first in Dw1'.
  destruct Dw1' as (x & w1' & -> & Hx & Hw1').
  destruct Dg as (s1 & tl & c8 & -> & (Hs1 & ->) & (Htl & ->)).
  apply lit_eq_exact in Hs1. subst s1. apply lit_eq_exact in Hk.
  exists (symbol ++ tl). eexists. eexists. split; [|split].
  - exists w0, k, (x :: w1'), tl, w2. repeat split; auto.
    + simpl. rewrite app_nil_r. reflexivity.
    + subst k. simpl. auto.
    + discriminate.
    + simpl. unfold ws in Hx. rewrite Hx. exact Hw1'.
  - cbn [cap_lookup Nat.eqb]. reflexivity.
  - clear Hk. simpl length. rewrite Nat.add_0_l.
    replace (length w0 + length k + S (length w1') + length (symbol ++ tl)
             - (length w0 + length k + S (length w1')))
      with (length (symbol ++ tl)) by lia.
    simpl app. rewrite app_nil_r.
    replace (w0 ++ k ++ x :: w1' ++ (symbol ++ tl) ++ w2)
      with ((w0 ++ k ++ x :: w1') ++ (symbol ++ tl) ++ w2).
    2:{ repeat rewrite <- app_assoc. simpl. reflexivity. }
    rewrite <- app_assoc. rewrite skipn_exact.
    + rewrite <- app_assoc. apply firstn_exact. reflexivity.
    + rewrite !length_app. simpl. lia.
Qed.


Lemma defined_in_sound symbol content sym :
  In sym (defined_in symbol content) ->
  defined_at [txt "config"; txt "menuconfig"; txt "choice"] symbol sym content.
Proof.
  unfold defined_in. rewrite in_app_iff. intros [H | H].
  - rewrite in_map_iff in H. destruct H as ([kwd sym'] & E & H). simpl in E. subst sym'.
    unfold findall2 in H. rewrite in_map_iff in H.
    destruct H as ([s st] & E & H). simpl in E. injection E as _ E.
    apply in_hits in H. apply scan_hit in H. destruct H as (pre & adv & Ec & Hm).
    apply match_at_sound in Hm. destruct Hm as (w & rest & -> & D & _).
    apply config_pattern_shape in D. destruct D as (sym' & a & b & Hd & Hc & Hg).
    unfold group in E. rewrite Hc, Hg in E. subst sym'.
    exists pre, w, rest. split; [auto|].
    destruct Hd as (w0 & kwd' & w1 & tl & w2 & H1 & H2 & H3 & H4 & H5).
    exists w0, kwd', w1, tl, w2. repeat split; try tauto.
    simpl in *. tauto.
  - unfold findall1 in H. rewrite in_map_iff in H.
    destruct H as ([s st] & E & H). simpl in E.
    apply in_hits in H. apply scan_hit in H. destruct H as (pre & adv & Ec & Hm).
    apply match_at_sound in Hm. destruct Hm as (w & rest & -> & D & _).
    apply choice_pattern_shape in D. destruct D as (sym' & a & b & Hd & Hc & Hg).
    unfold group in E. rewrite Hc, Hg in E. subst sym'.
    exists pre, w, rest. split; [auto|].
    destruct Hd as (w0 & kwd' & w1 & tl & w2 & H1 & H2 & H3 & H4 & H5).
    exists w0, kwd', w1, tl, w2. repeat split; try tauto.
    simpl in *. tauto.
Qed.

End DiscoveryFacts.
Import DiscoveryFacts.

Module WorldFacts.


Lemma same_files_refl st : same_files st st.
Proof. unfold same_files. auto. Qed.

Lemma same_files_trans a b c : same_files a b -> same_files b c -> same_files a c.
Proof. unfold same_files. intros (?&?&?&?) (?&?&?&?). repeat split; congruence. Qed.

Lemma logger_same lv msg st :
  exists st', logger lv msg st = (Ok tt, st') /\ same_files st st'.
Proof. eexists. split; [reflexivity|]. unfold same_files. simpl. auto. Qed.

Lemma read_file_same path st st' :
  same_files st st' -> read_file path st' = read_file path st.
Proof. intros (H & _). unfold read_file. rewrite H. reflexivity. Qed.

(** *** [find_all_subsymbols] *)

Lemma set_add_in sym x s : In sym (set_add x s) <-> In sym s \/ sym = x.
Proof.
  unfold set_add. destruct (existsb (text_eqb x) s) eqn:E.
  - split; [auto|]. intros [H | ->]; [auto|].
    apply existsb_exists in E. destruct E as (y & Hy & E).
    apply text_eqb_eq in E. subst. auto.
  - rewrite in_app_iff. simpl. intuition.
Qed.

Lemma fold_set_add_in sym l : forall s,
  In sym (fold_left (fun s x => set_add x s) l s) <-> In sym s \/ In sym l.
Proof.
  induction l as [|x l IH]; intros s; simpl.
  - intuition.
  - rewrite IH, set_add_in. intuition.
Qed.

Lemma scan_kconfig_files_spec symbol : forall files acc st,
  exists subs st',
    scan_kconfig_files symbol files acc st = (Ok subs, st') /\
    same_files st st' /\
    forall sym, In sym subs ->
      In sym acc \/
      exists f content,
        In f files /\ read_file f st = Some content /\
        In sym (defined_in symbol content).
Proof.
  induction files as [|f files IH]; intros acc st.
  - exists acc, st. simpl. split; [reflexivity|]. split; [apply same_files_refl|auto].
  - cbn [scan_kconfig_files]. destruct (read_file f st) as [content|] eqn:E.
    + destruct (IH (fold_left (fun s x => set_add x s) (defined_in symbol content) acc) st)
        as (subs & st' & H1 & H2 & H3).
      exists subs, st'. split; [exact H1|]. split; [exact H2|].
      intros sym Hin. apply H3 in Hin. destruct Hin as [Hin | Hin].
      * apply fold_set_add_in in Hin. destruct Hin as [Hin | Hin]; [auto|].
        right. exists f, content. simpl. auto.
      * destruct Hin as (f' & c' & Hf & Hr & Hd). right. exists f', c'. simpl. auto.
    + unfold mbind.
      destruct (logger_same WARNING (txt "Could not read " ++ f ++ txt ": {e}") st)
        as (st1 & -> & Hs1).
      destruct (IH acc st1) as (subs & st' & H1 & H2 & H3).
      exists subs, st'. split; [exact H1|]. split.
      * eapply same_files_trans; eauto.
      * intros sym Hin. apply H3 in Hin. destruct Hin as [Hin | Hin]; [auto|].
        destruct Hin as (f' & c' & Hf & Hr & Hd). right. exists f', c'.
        rewrite (read_file_same f' st st1 Hs1) in Hr. simpl. auto.
Qed.

Lemma find_all_subsymbols_spec symbol root_dir st :
  exists subs st',
    find_all_subsymbols symbol root_dir st = (Ok subs, st') /\
    same_files st st' /\
    forall sym, In sym subs ->
      exists f content,
        In f (kconfig_paths root_dir (tree st)) /\ read_file f st = Some content /\
        In sym (defined_in symbol content).
Proof.
  unfold find_all_subsymbols.
  destruct (scan_kconfig_files_spec symbol (kconfig_paths root_dir (tree st)) [] st)
    as (subs & st' & H1 & H2 & H3).
  exists subs, st'. split; [exact H1|]. split; [exact H2|].
  intros sym Hin. apply H3 in Hin. destruct Hin as [[] | H]. exact H.
Qed.

(** Every discovered symbol begins with the root symbol. *)
Lemma defined_in_prefix symbol content sym :
  In sym (defined_in symbol content) -> exists tail, sym = symbol ++ tail.
Proof.
  intros H. apply defined_in_sound in H.
  destruct H as (pre & w & rest & _ & (w0 & k & w1 & tl & w2 & H)).
  exists tl. tauto.
Qed.

(** *** [derive_mappings] *)

Lemma dict_get_set_same k v : forall d, dict_get k (dict_set k v d) = Some v.
Proof.
  induction d as [|[k' v'] d IH]; simpl.
  - rewrite text_eqb_refl. reflexivity.
  - destruct (text_eqb k' k) eqn:E; simpl; rewrite E; auto.
Qed.

Lemma dict_get_set_other k k' v : forall d,
  k <> k' -> dict_get k' (dict_set k v d) = dict_get k' d.
Proof.
  intros d Hne. induction d as [|[k0 v0] d IH]; simpl.
  - destruct (text_eqb k k') eqn:E; [apply text_eqb_eq in E; congruence | reflexivity].
  - destruct (text_eqb k0 k) eqn:E; simpl.
    + apply text_eqb_eq in E. subst k0.
      destruct (text_eqb k k') eqn:E2; [apply text_eqb_eq in E2; congruence | reflexivity].
    + destruct (text_eqb k0 k'); auto.
Qed.


Lemma derive_step_get old new sym : forall subs d,
  startswith old sym = true ->
  In sym subs \/ dict_get sym d = Some (derived old new sym) ->
  dict_get sym
    (fold_left
       (fun mappings symbol =>
          if startswith old symbol
          then dict_set symbol (new ++ skipn (length old) symbol) mappings
          else mappings) subs d) = Some (derived old new sym).
Proof.
  induction subs as [|x subs IH]; intros d Hs H; simpl.
  - destruct H as [[] | H]. exact H.
  - apply IH; [exact Hs|].
    destruct H as [[-> | H] | H]; [right | left; exact H | right].
    + rewrite Hs. apply dict_get_set_same.
    + destruct (startswith old x) eqn:E; [|exact H].
      destruct (text_eqb x sym) eqn:E2.
      * apply text_eqb_eq in E2. subst x. apply dict_get_set_same.
      * rewrite dict_get_set_other; [exact H|].
        intros ->. rewrite text_eqb_refl in E2. discriminate.
Qed.

Lemma derive_step_inv old new k v : forall subs d,
  dict_get k
    (fold_left
       (fun mappings symbol =>
          if startswith old symbol
          then dict_set symbol (new ++ skipn (length old) symbol) mappings
          else mappings) subs d) = Some v ->
  (In k subs /\ startswith old k = true /\ v = derived old new k) \/
  dict_get k d = Some v.
Proof.
  induction subs as [|x subs IH]; intros d H; simpl in H.
  - auto.
  - apply IH in H. destruct H as [(H1 & H2 & H3) | H].
    + left. simpl. auto.
    + destruct (startswith old x) eqn:E; [|auto].
      destruct (text_eqb x k) eqn:E2.
      * apply text_eqb_eq in E2. subst x. rewrite dict_get_set_same in H.
        injection H as <-. left. simpl. auto.
      * rewrite dict_get_set_other in H; [auto|].
        intros ->. rewrite text_eqb_refl in E2. discriminate.
Qed.

Lemma derive_mappings_inv old new subs k v :
  dict_get k (derive_mappings old new subs) = Some v ->
  In k subs /\ startswith old k = true /\ v = derived old new k.
Proof.
  intros H. apply derive_step_inv in H. destruct H as [H | H]; [exact H|].
  discriminate.
Qed.

Lemma derive_mappings_get old new subs sym :
  In sym subs -> startswith old sym = true ->
  dict_get sym (derive_mappings old new subs) = Some (derived old new sym).
Proof. intros Hin Hs. unfold derive_mappings. apply derive_step_get; auto. Qed.


(** *** Dry run *)

Lemma rename_in_kconfig_file_dry filepath mappings st :
  dry_run st = true -> rename_in_kconfig_file filepath mappings st = (Ok true, st).
Proof. intros H. unfold rename_in_kconfig_file. rewrite H. reflexivity. Qed.

Lemma process_kconfig_dry files mappings st :
  dry_run st = true ->
  exists st', process_kconfig_files_with_python files mappings st = (Ok (length files), st')
              /\ same_files st st'.
Proof.
  intros H. unfold process_kconfig_files_with_python. destruct files as [|f files].
  - exists st. split; [reflexivity | apply same_files_refl].
  - rewrite H. unfold mbind.
    match goal with |- context [logger ?l ?m st] =>
      destruct (logger_same l m st) as (st1 & -> & Hs) end.
    exists st1. split; [reflexivity | exact Hs].
Qed.

Lemma process_sed_dry sed files script file_type use_simple st :
  dry_run st = true ->
  exists n st', process_files_with_sed sed files script file_type use_simple st = (Ok n, st')
                /\ same_files st st' /\ n <= length files.
Proof.
  intros H. unfold process_files_with_sed. destruct files as [|f files].
  - exists 0, st. split; [reflexivity|]. split; [apply same_files_refl | simpl; lia].
  - destruct script as [|c script].
    + exists 0, st. split; [reflexivity|]. split; [apply same_files_refl | simpl; lia].
    + rewrite H. unfold mbind.
      match goal with |- context [logger ?l ?m st] =>
        destruct (logger_same l m st) as (st1 & -> & Hs1) end.
      match goal with |- context [logger ?l ?m st1] =>
        destruct (logger_same l m st1) as (st2 & -> & Hs2) end.
      exists (length (f :: files)), st2. split; [reflexivity|].
      split; [eapply same_files_trans; eauto | lia].
Qed.

Lemma log_mappings_same : forall mappings st,
  exists st', log_mappings mappings st = (Ok tt, st') /\ same_files st st'.
Proof.
  induction mappings as [|[o n] m IH]; intros st.
  - exists st. split; [reflexivity | apply same_files_refl].
  - cbn [log_mappings]. unfold mbind.
    match goal with |- context [logger ?l ?m st] =>
      destruct (logger_same l m st) as (st1 & -> & Hs1) end.
    destruct (IH st1) as (st2 & -> & Hs2).
    exists st2. split; [reflexivity | eapply same_files_trans; eauto].
Qed.

Ltac sf :=
  unfold same_files in *;
  repeat match goal with H : _ /\ _ |- _ => destruct H end;
  repeat split; congruence.

Ltac log_step st :=
  match goal with |- context [logger ?l ?m st] =>
    let st1 := fresh "st" in
    let Hs := fresh "Hs" in
    destruct (logger_same l m st) as (st1 & -> & Hs)
  end.

Ltac log_in H st :=
  match type of H with context [logger ?l ?m st] =>
    let st1 := fresh "st" in
    let Hs := fresh "Hs" in
    let E := fresh "E" in
    destruct (logger_same l m st) as (st1 & E & Hs); rewrite E in H; clear E
  end.

(** In dry-run mode [rename_symbol] returns and leaves every file, the
    write record and the change log as they were. *)
Lemma rename_symbol_dry sed old new root_dir st :
  dry_run st = true ->
  exists st', rename_symbol sed old new root_dir st = (Ok tt, st') /\ same_files st st'.
Proof.
  intros Hd. unfold rename_symbol. unfold mbind at 1. log_step st.
  unfold mbind at 1. log_step st0.
  unfold mbind at 1.
  destruct (find_all_subsymbols_spec old root_dir st1) as (subs & st2 & -> & Hs2 & _).
  assert (H2 : same_files st st2) by sf.
  destruct (derive_mappings old new subs) as [|m ms] eqn:Em.
  - log_step st2. exists st3. split; [reflexivity | sf].
  - unfold mbind at 1. log_step st2.
    unfold mbind at 1.
    destruct (log_mappings_same (m :: ms) st3) as (st4 & -> & Hs4).
    destruct (find_files_to_process root_dir (tree st4)) as [kfiles sfiles].
    unfold mbind at 1. log_step st4.
    assert (H5 : same_files st st5) by sf.
    assert (Hd5 : dry_run st5 = true) by (destruct H5 as (_&_&_&->); exact Hd).
    unfold mbind at 1.
    destruct (process_kconfig_dry kfiles (m :: ms) st5 Hd5) as (st6 & -> & Hs6).
    assert (Hd6 : dry_run st6 = true) by (destruct Hs6 as (_&_&_&->); exact Hd5).
    unfold mbind at 1.
    destruct (process_sed_dry sed sfiles (create_sed_script_for_source (m :: ms))
                (txt "source") false st6 Hd6) as (n & st7 & -> & Hs7 & _).
    log_step st7. exists st8. split; [reflexivity|]. sf.
Qed.

(** *** The count of a real run *)

Lemma count_renamed_le : forall files mappings k st n st',
  count_renamed files mappings k st = (Ok n, st') -> n <= k + length files.
Proof.
  induction files as [|f files IH]; intros mappings k st n st' H.
  - simpl in H. injection H as <- _. simpl. lia.
  - cbn [count_renamed] in H. unfold mbind in H.
    destruct (rename_in_kconfig_file f mappings st) as [[b|] st1]; [|discriminate].
    apply IH in H. destruct b; simpl; lia.
Qed.

Lemma process_kconfig_le files mappings st n st' :
  process_kconfig_files_with_python files mappings st = (Ok n, st') ->
  n <= length files.
Proof.
  unfold process_kconfig_files_with_python. destruct files as [|f files].
  - intros H. injection H as <- _. lia.
  - destruct (dry_run st).
    + unfold mbind. log_step st. intros H. injection H as <- _. simpl. lia.
    + unfold mbind at 1. log_step st. unfold mbind at 1.
      destruct (count_renamed (f :: files) mappings 0 st0) as [[k|] st1] eqn:E;
        [|discriminate].
      apply count_renamed_le in E. unfold mbind. log_step st1.
      intros H. injection H as <- _. simpl in *. lia.
Qed.

(** *** [rename_in_kconfig_file]: what happens to the file *)

Lemma rename_in_kconfig_file_unchanged filepath mappings st content :
  dry_run st = false ->
  read_file filepath st = Some content ->
  rename_all mappings content = Some content ->
  rename_in_kconfig_file filepath mappings st = (Ok false, st).
Proof.
  intros Hd Hr Hc. unfold rename_in_kconfig_file.
  rewrite Hd, Hr, Hc, text_eqb_refl. reflexivity.
Qed.

Lemma rename_in_kconfig_file_touch filepath mappings st r st' :
  rename_in_kconfig_file filepath mappings st = (r, st') ->
  tree st' <> tree st \/ written st' <> written st \/
  changes_made st' <> changes_made st ->
  dry_run st = false /\
  exists content content',
    read_file filepath st = Some content /\
    rename_all mappings content = Some content' /\
    content' <> content /\
    written st' = written st ++ [filepath] /\
    changes_made st' = changes_made st ++ [txt "Updated Kconfig file: " ++ filepath].
Proof.
  unfold rename_in_kconfig_file. intros H Hch.
  destruct (dry_run st) eqn:Hd.
  { cbv [mbind logger_debug ret] in H. injection H as _ <-. exfalso. tauto. }
  destruct (read_file filepath st) as [content|] eqn:Hr.
  2:{ unfold mbind in H. log_in H st. injection H as _ <-.
      destruct Hs as (?&?&?&?). exfalso. tauto. }
  destruct (rename_all mappings content) as [content'|] eqn:Hc.
  2:{ injection H as _ <-. exfalso. tauto. }
  destruct (text_eqb content' content) eqn:E; cbn [negb] in H.
  { injection H as _ <-. exfalso. tauto. }
  destruct (write_file filepath content' st) as [st1|] eqn:Hw.
  2:{ unfold mbind in H. log_in H st. injection H as _ <-.
      destruct Hs as (?&?&?&?). exfalso. tauto. }
  split; [reflexivity|]. exists content, content'.
  split; [auto|]. split; [auto|]. split.
  { intros ->. rewrite text_eqb_refl in E. discriminate. }
  unfold write_file in Hw. destruct (lookup_file filepath (tree st)); [|discriminate].
  destruct (f_writable f); [|discriminate]. injection Hw as <-.
  cbv [mbind logger append_change ret] in H.
  cbn [tree written changes_made dry_run log] in H.
  injection H as _ <-. cbn [tree written changes_made dry_run log]. auto.
Qed.

End WorldFacts.
Import WorldFacts.

Module LineFacts.

Lemma drop_while_app p : forall w x,
  forallb p w = true -> stops p x -> drop_while p (w ++ x) = x.
Proof.
  induction w as [|a w IH]; intros x Hw Hx; simpl.
  - destruct x; simpl in *; [reflexivity|]. rewrite Hx. reflexivity.
  - simpl in Hw. apply andb_true_iff in Hw. destruct Hw as [Ha Hw].
    rewrite Ha. auto.
Qed.



Lemma forallb_rev {A} (p : A -> bool) l : forallb p (rev l) = forallb p l.
Proof.
  induction l; simpl; auto. rewrite forallb_app. simpl.
  rewrite IHl, andb_true_r, andb_comm. reflexivity.
Qed.

Lemma stops_app p x y : x <> [] -> stops p x -> stops p (x ++ y).
Proof. destruct x; [congruence|]. simpl. auto. Qed.





Lemma tight_non_ws x : forallb non_ws x = true -> tight x.
Proof.
  intros H. split.
  - destruct x; simpl in *; auto. apply andb_true_iff in H. destruct H as [H _].
    unfold non_ws in H. apply negb_true_iff in H. exact H.
  - rewrite <- forallb_rev in H. destruct (rev x); simpl in *; auto.
    apply andb_true_iff in H. destruct H as [H _].
    unfold non_ws in H. apply negb_true_iff in H. exact H.
Qed.

Lemma tight_app x y : x <> [] -> y <> [] -> tight x -> tight y -> tight (x ++ y).
Proof.
  intros Hx Hy [Hx1 _] [_ Hy2]. split.
  - apply stops_app; auto.
  - rewrite rev_app_distr. apply stops_app; auto.
    intros E. apply (f_equal (@rev ascii)) in E. rewrite rev_involutive in E.
    simpl in E. congruence.
Qed.

(** *** The arrow *)







Lemma split_once_cons sep c s :
  split_once sep (c :: s) =
  if startswith sep (c :: s) then [[]; skipn (length sep) (c :: s)]
  else match split_once sep s with
       | a :: r => (c :: a) :: r
       | [] => [[c]]
       end.
Proof. reflexivity. Qed.



Lemma split_once_two sep : forall s,
  contains sep s = true -> exists a b, split_once sep s = [a; b].
Proof.
  induction s as [|c s IH]; intros H.
  - cbn [contains] in H. rewrite orb_false_r in H. cbn [split_once]. rewrite H. eauto.
  - rewrite split_once_cons. cbn [contains] in H.
    destruct (startswith sep (c :: s)); [eauto|]. simpl in H.
    destruct (IH H) as (a & b & ->). eauto.
Qed.

(** *** [mapping_line] *)

Lemma mapping_line_stripped line l :
  strip line = l ->
  mapping_line line =
  match l with
  | [] => Skipped
  | _ =>
      if startswith (txt "#") l then Skipped
      else if negb (contains arrow l) then InvalidFormat l
      else
        match split_once arrow l with
        | [old_symbol; new_symbol] =>
            match strip old_symbol, strip new_symbol with
            | [], _ => EmptySymbol l
            | _, [] => EmptySymbol l
            | o, n => Mapping o n
            end
        | _ => Unpack
        end
  end.
Proof.
  intros <-. unfold mapping_line. destruct (strip line) as [|a t]; [reflexivity|].
  destruct (startswith (txt "#") (a :: t)); [reflexivity|].
  destruct (negb (contains arrow (a :: t))); [reflexivity|].
  destruct (split_once arrow (a :: t)) as [|o [|n [|x r]]]; try reflexivity.
  destruct (strip o); [reflexivity|]. destruct (strip n); reflexivity.
Qed.

Lemma non_ws_nonempty_tight x : forallb non_ws x = true -> tight x.
Proof. apply tight_non_ws. Qed.




Lemma drop_while_last p c : forall s,
  p c = false -> exists l, drop_while p (s ++ [c]) = l ++ [c].
Proof.
  induction s as [|a s IH]; intros H; simpl.
  - rewrite H. exists []. reflexivity.
  - destruct (p a).
    + auto.
    + exists (a :: s). reflexivity.
Qed.



Lemma mapping_line_nonempty line o n :
  mapping_line line = Mapping o n -> o <> [] /\ n <> [].
Proof.
  rewrite (mapping_line_stripped line _ eq_refl).
  destruct (strip line) as [|a l]; [discriminate|].
  destruct (startswith (txt "#") (a :: l)); [discriminate|].
  destruct (negb (contains arrow (a :: l))); [discriminate|].
  destruct (split_once arrow (a :: l)) as [|o' [|n' [|x r]]]; try discriminate.
  destruct (strip o'); [discriminate|]. destruct (strip n'); [discriminate|].
  intros H. injection H as <- <-. split; discriminate.
Qed.

(** The tuple assignment never fails: the test for the arrow comes first. *)
Lemma mapping_line_unpacks line : mapping_line line <> Unpack.
Proof.
  rewrite (mapping_line_stripped line _ eq_refl).
  destruct (strip line) as [|a l]; [discriminate|].
  destruct (startswith (txt "#") (a :: l)); [discriminate|].
  destruct (contains arrow (a :: l)) eqn:E; [|discriminate]. cbn [negb].
  destruct (split_once_two arrow _ E) as (o & n & ->).
  destruct (strip o); [discriminate|]. destruct (strip n); discriminate.
Qed.



(** *** The loop goes on after a line that yields no mapping *)



End LineFacts.
Import LineFacts.

Module ChoiceFacts.


Lemma sym_char_word c : sym_char c = true -> is_word c = true.
Proof. all_chars c. Qed.

Lemma space_stops_word (w : text) : forallb is_space w = true -> stops is_word w.
Proof.
  destruct w; simpl; auto. intros H. apply andb_true_iff in H. destruct H.
  apply space_not_word. auto.
Qed.

Lemma word_stops_space (w : text) : forallb is_word w = true -> stops is_space w.
Proof.
  destruct w; simpl; auto. intros H. apply andb_true_iff in H. destruct H.
  apply word_not_space. auto.
Qed.

Lemma all_and_some (p : ascii -> bool) (l : text) :
  forallb p l = true -> existsb (fun c => negb (p c)) l = true -> False.
Proof.
  induction l; simpl; [discriminate|]. intros H1 H2.
  apply andb_true_iff in H1. destruct H1 as [Ha Hl].
  rewrite Ha in H2. simpl in H2. auto.
Qed.

(** A [choice] line with more after the name defines nothing for the
    discovery. *)
Lemma choice_extra_not_found symbol name extra :
  is_symbol symbol = true -> is_symbol name = true ->
  forallb not_nl extra = true -> existsb non_ws extra = true ->
  defined_in symbol (txt "choice " ++ name ++ sp :: extra) = [].
Proof.
  intros Hsym Hname Hnl Hex.
  destruct (defined_in symbol (txt "choice " ++ name ++ sp :: extra)) as [|sym l] eqn:E;
    [reflexivity|exfalso].
  assert (Hin : In sym (defined_in symbol (txt "choice " ++ name ++ sp :: extra)))
    by (rewrite E; simpl; auto).
  clear E l. apply defined_in_sound in Hin.
  destruct Hin as (pre & w & rest & Ec & (w0 & kwd & w1 & tl & w2 & Hd)).
  destruct Hd as (Ew & Hbol & Hw0 & Hk & Hw1 & Hw1s & -> & Htl & Hw2 & Heol).
  assert (Hnw : forallb is_word name = true)
    by (destruct name; [discriminate|exact Hname]).
  assert (Hsw : forallb is_word symbol = true)
    by (destruct symbol; [discriminate|exact Hsym]).
  assert (Hall : forallb not_nl (txt "choice " ++ name ++ sp :: extra) = true).
  { rewrite !forallb_app. cbn [forallb]. rewrite Hnl.
    rewrite (forallb_impl is_word not_nl name); auto.
    intros c Hc. destruct (not_nl c) eqn:En; [reflexivity|].
    unfold not_nl in En. apply negb_false_iff in En. apply ascii_eqb_eq in En.
    subst c. discriminate. }
  rewrite Ec in Hall. rewrite !forallb_app in Hall.
  apply andb_true_iff in Hall. destruct Hall as [Hp Hall].
  apply andb_true_iff in Hall. destruct Hall as [_ Hr].
  (* the definition starts the text *)
  assert (pre = []).
  { destruct pre as [|p pre]; [reflexivity|exfalso].
    destruct (last_char_forall not_nl (p :: pre) None Hp) as (c & Hc & Hn);
      [discriminate|].
    rewrite Hc in Hbol. cbn [at_bol MULTILINE M andb] in Hbol.
    unfold not_nl in Hn. rewrite Hbol in Hn. discriminate. }
  subst pre.
  (* and ends it *)
  assert (rest = []).
  { destruct rest as [|r rest]; [reflexivity|exfalso].
    cbn [forallb at_eol] in Hr, Heol.
    apply andb_true_iff in Hr. destruct Hr as [Hr _].
    apply andb_true_iff in Heol. destruct Heol as [Heol _].
    unfold not_nl in Hr. rewrite Heol in Hr. discriminate. }
  subst rest. rewrite app_nil_r in Ec. cbn [app] in Ec. subst w.
  rename Ew into Ec.
  (* no white space leads it *)
  assert (w0 = []).
  { destruct w0 as [|a w0]; [reflexivity|exfalso].
    simpl in Ec, Hw0. injection Ec as <- _. discriminate. }
  subst w0. simpl in Ec.
  destruct Hk as [<- | [<- | [<- | []]]]; try discriminate.
  cbn [app txt list_ascii_of_string] in Ec. injection Ec as Ec.
  (* strip the white space, then the name *)
  apply (f_equal (drop_while is_space)) in Ec.
  rewrite (drop_while_app is_space w1) in Ec; auto.
  2:{ destruct symbol as [|c s]; [discriminate|]. simpl in *.
      apply andb_true_iff in Hsw. destruct Hsw. apply word_not_space. auto. }
  change (" "%char :: name ++ sp :: extra) with ([sp] ++ name ++ sp :: extra) in Ec.
  rewrite (drop_while_app is_space [sp]) in Ec; auto.
  2:{ destruct name as [|c s]; [discriminate|]. simpl in *.
      apply andb_true_iff in Hnw. destruct Hnw. apply word_not_space. auto. }
  apply (f_equal (drop_while is_word)) in Ec.
  rewrite (drop_while_app is_word name) in Ec; [|auto|reflexivity].
  rewrite (drop_while_app is_word (symbol ++ tl)) in Ec.
  - subst w2. simpl in Hw2. eapply (all_and_some is_space extra); auto.
  - rewrite forallb_app, Hsw. simpl.
    eapply forallb_impl; [apply sym_char_word | exact Htl].
  - apply space_stops_word. auto.
Qed.

End ChoiceFacts.
Import ChoiceFacts.

Module RoundTrip.

(** *** The matcher is complete: when the pattern accepts a word and the
    continuation accepts what follows, the search succeeds (with this
    match or with one tried earlier). *)

Lemma orelse_not_none a b : a <> None \/ b tt <> None -> orelse a b <> None.
Proof. destruct a; simpl; intros [H | H]; congruence. Qed.

Lemma star_greedy_complete p : forall w rest prev pos c k,
  forallb p w = true ->
  k (MState (last_char prev w) (pos + length w) rest c) <> None ->
  star_greedy p prev pos (w ++ rest) c k <> None.
Proof.
  induction w as [|a w IH]; intros rest prev pos c k Hp Hk.
  - simpl in *. rewrite Nat.add_0_r in Hk. destruct rest as [|x rest]; simpl; auto.
    destruct (p x); auto. apply orelse_not_none. auto.
  - simpl in Hp. apply andb_true_iff in Hp. destruct Hp as [Ha Hw].
    cbn [app star_greedy]. rewrite Ha. apply orelse_not_none. left.
    apply IH; auto. cbn [last_char length] in Hk. rewrite Nat.add_succ_r in Hk. exact Hk.
Qed.

Lemma star_lazy_complete p : forall w rest prev pos c k,
  forallb p w = true ->
  k (MState (last_char prev w) (pos + length w) rest c) <> None ->
  star_lazy p prev pos (w ++ rest) c k <> None.
Proof.
  induction w as [|a w IH]; intros rest prev pos c k Hp Hk.
  - simpl in *. rewrite Nat.add_0_r in Hk.
    destruct rest; simpl; apply orelse_not_none; auto.
  - simpl in Hp. apply andb_true_iff in Hp. destruct Hp as [Ha Hw].
    cbn [app star_lazy]. apply orelse_not_none.
    destruct (k (MState prev pos (a :: w ++ rest) c)) eqn:E; [left; discriminate|right].
    rewrite Ha. apply IH; auto.
    cbn [last_char length] in Hk. rewrite Nat.add_succ_r in Hk. exact Hk.
Qed.

Lemma run_complete fl r : forall prev pos w rest ci co k,
  denote fl r prev pos w rest ci co ->
  k (MState (last_char prev w) (pos + length w) rest co) <> None ->
  run fl r (MState prev pos (w ++ rest) ci) k <> None.
Proof.
  induction r; intros prev pos w rest ci co k D Hk; cbn [denote] in D.
  - destruct D as [-> ->]. simpl in *. rewrite Nat.add_0_r in Hk. exact Hk.
  - destruct D as [Hl ->]. rewrite run_lit by auto. exact Hk.
  - destruct D as [(c & -> & Hc) ->]. cbn [app]. rewrite run_cls by auto.
    cbn [last_char length] in Hk. rewrite Nat.add_1_r in Hk. exact Hk.
  - destruct D as [(c & -> & Hc) ->]. cbn [app run m_rest m_prev m_pos m_caps].
    rewrite Hc. cbn [last_char length] in Hk. rewrite Nat.add_1_r in Hk. exact Hk.
  - destruct D as (w1 & w2 & cm & -> & D1 & D2).
    rewrite run_seq, <- app_assoc. eapply IHr1; [exact D1|].
    eapply IHr2; [exact D2|].
    rewrite <- last_char_app, <- Nat.add_assoc, <- length_app. exact Hk.
  - cbn [run]. apply orelse_not_none. destruct D as [D | D].
    + left. eapply IHr1; eauto.
    + destruct (run fl r1 (MState prev pos (w ++ rest) ci) k) eqn:E;
        [left; discriminate|right]. eapply IHr2; eauto.
  - destruct D as [Hp ->]. cbn [run m_rest m_prev m_pos m_caps]. destruct b.
    + apply star_greedy_complete; auto.
    + apply star_lazy_complete; auto.
  - destruct D as [[-> Hb] ->]. cbn [app]. rewrite run_bol by auto.
    simpl in Hk. rewrite Nat.add_0_r in Hk. exact Hk.
  - destruct D as [[-> Hb] ->]. cbn [app]. rewrite run_eol by auto.
    simpl in Hk. rewrite Nat.add_0_r in Hk. exact Hk.
  - destruct D as [[-> Hb] ->]. cbn [app]. rewrite run_wordb by auto.
    simpl in Hk. rewrite Nat.add_0_r in Hk. exact Hk.
  - destruct D as [[-> (w' & rest' & c' & -> & D)] ->].
    cbn [app run].
    destruct (run fl r (MState prev pos (w' ++ rest') ci) (fun st' => Some st')) eqn:E.
    + simpl in Hk. rewrite Nat.add_0_r in Hk. exact Hk.
    + exfalso. revert E. eapply IHr; [exact D|]. discriminate.
  - destruct D as (c1 & D & ->). rewrite run_group.
    eapply IHr; [exact D|]. cbn [m_prev m_pos m_rest m_caps]. exact Hk.
Qed.

Lemma match_at_complete fl r prev w rest co :
  denote fl r prev 0 w rest [] co -> w <> [] ->
  exists st, match_at fl r false prev (w ++ rest) = Some st.
Proof.
  intros D Hw. unfold match_at.
  destruct (run fl r (MState prev 0 (w ++ rest) [])
              (fun st => if false && (m_pos st =? 0) then None else Some st)) eqn:E.
  - eauto.
  - exfalso. revert E. eapply run_complete; [exact D|]. discriminate.
Qed.

(** *** The shape of a match of a line rule, with its two groups *)

Lemma line_shape fl B A old prev pos w rest ci co :
  denote fl (seq [Bol; around B old A; Eol]) prev pos w rest ci co ->
  exists g1 o g2 c1 c2,
    w = g1 ++ o ++ g2 /\
    at_bol fl prev = true /\
    denote fl B prev pos g1 (o ++ g2 ++ rest) ci c1 /\
    lit_eq (IGNORECASE fl) old o = true /\
    denote fl A (last_char prev (g1 ++ o)) (pos + length g1 + length o) g2 rest
           ((1, (pos, pos + length g1)) :: c1) c2 /\
    at_eol fl rest = true /\
    co = (2, (pos + length g1 + length o,
              pos + length g1 + length o + length g2)) :: c2.
Proof.
  intros D. cbn [seq around denote] in D.
  destruct D as (e & w' & c0 & -> & [[-> Hb] ->] & D).
  destruct D as (w1 & e' & cm & -> & D & [[-> He] ->]).
  destruct D as (g1 & w2 & c1' & -> & (c1 & D1 & ->) & D).
  destruct D as (o & g2 & c2' & -> & [Ho ->] & (c2 & D2 & ->)).
  cbn [last_char app length] in *. rewrite Nat.add_0_r in *.
  rewrite app_nil_r in *.
  exists g1, o, g2, c1, c2.
  rewrite <- app_assoc in D1. rewrite last_char_app. repeat split; auto.
Qed.

Lemma line_shape_intro fl B A old prev pos g1 o g2 rest ci c1 c2 :
  at_bol fl prev = true ->
  denote fl B prev pos g1 (o ++ g2 ++ rest) ci c1 ->
  lit_eq (IGNORECASE fl) old o = true ->
  denote fl A (last_char prev (g1 ++ o)) (pos + length g1 + length o) g2 rest
         ((1, (pos, pos + length g1)) :: c1) c2 ->
  at_eol fl rest = true ->
  denote fl (seq [Bol; around B old A; Eol]) prev pos (g1 ++ o ++ g2) rest ci
         ((2, (pos + length g1 + length o,
               pos + length g1 + length o + length g2)) :: c2).
Proof.
  intros Hb D1 Ho D2 He. cbn [seq around denote].
  exists [], (g1 ++ o ++ g2), ci. split; [reflexivity|]. split; [auto|].
  cbn [last_char length]. rewrite Nat.add_0_r.
  exists (g1 ++ o ++ g2), [], ((2, (pos + length g1 + length o,
               pos + length g1 + length o + length g2)) :: c2).
  split; [rewrite app_nil_r; reflexivity|]. split; [|auto].
  cbn [app].
  exists g1, (o ++ g2), ((1, (pos, pos + length g1)) :: c1).
  split; [reflexivity|]. split.
  - exists c1. rewrite <- app_assoc. auto.
  - exists o, g2, ((1, (pos, pos + length g1)) :: c1).
    split; [reflexivity|]. split; [auto|].
    exists c2. rewrite <- last_char_app. auto.
Qed.

(** What stands before the name in step 1 ends with white space and
    holds no group. *)
Lemma definition_prefix fl prev pos g1 rest ci c1 :
  denote fl (seq [Star true ws; Alt (kw "config") (kw "menuconfig"); Plus true ws])
         prev pos g1 rest ci c1 ->
  c1 = ci /\ word_opt (last_char prev g1) = false.
Proof.
  intros D. cbn [seq denote] in D. unfold Plus in D. cbn [denote] in D.
  destruct D as (s0 & w' & cm & -> & [Hs0 ->] & k & s1 & cm' & -> & Hk & D).
  destruct D as (x & y & cmm & -> & [(c & -> & Hc) ->] & [Hy ->]).
  split.
  - destruct Hk as [[_ ->] | [_ ->]]; reflexivity.
  - rewrite !last_char_app.
    destruct (last_char_forall ws ([c] ++ y)
                (last_char (last_char prev s0) k)) as (c' & Hl & Hc').
    + cbn [app forallb]. rewrite Hc, Hy. reflexivity.
    + discriminate.
    + rewrite <- last_char_app, Hl. cbn [word_opt]. apply space_not_word. exact Hc'.
Qed.

Lemma eol_not_word fl g2 rest :
  forallb ws g2 = true -> at_eol fl rest = true ->
  word_opt (next_char (g2 ++ rest)) = false.
Proof.
  intros Hg He. destruct g2 as [|c g2].
  - destruct rest as [|c rest]; [reflexivity|].
    cbn [app next_char word_opt]. cbn [at_eol] in He.
    apply andb_true_iff in He. destruct He as [He _].
    apply ascii_eqb_eq in He. subst c. reflexivity.
  - cbn [app next_char word_opt]. cbn [forallb] in Hg.
    apply andb_true_iff in Hg. destruct Hg as [Hc _].
    apply space_not_word. exact Hc.
Qed.


(** *** One occurrence only *)

Lemma symbol_chars old :
  is_symbol old = true -> old <> [] /\ forallb is_word old = true.
Proof. destruct old; [discriminate|]. intros H. split; [discriminate|exact H]. Qed.

Lemma word_first (u v : text) :
  u <> [] -> forallb is_word u = true -> word_opt (next_char (u ++ v)) = true.
Proof.
  destruct u as [|c u]; [congruence|]. intros _ H. cbn [forallb] in H.
  apply andb_true_iff in H. destruct H as [H _]. exact H.
Qed.

Lemma word_last prev (u : text) :
  u <> [] -> forallb is_word u = true -> word_opt (last_char prev u) = true.
Proof.
  intros Hn H. destruct (last_char_forall is_word u prev H Hn) as (c & -> & Hc).
  exact Hc.
Qed.

Lemma all_app (f : ascii -> bool) (u v : text) :
  forallb f (u ++ v) = true -> forallb f u = true /\ forallb f v = true.
Proof. rewrite forallb_app. apply andb_true_iff. Qed.

Lemma nil_or_not (l : text) : l = [] \/ l <> [].
Proof. destruct l; [left; reflexivity|right; discriminate]. Qed.

(** If the old name does not occur in [a ++ new ++ b], its only
    whole-word occurrence in [a ++ old ++ b] is the one in the middle. *)
Lemma occurrence_unique old new a b p o q :
  is_symbol old = true ->
  word_occurs true old (a ++ new ++ b) = false ->
  p ++ o ++ q = a ++ old ++ b ->
  lit_eq true old o = true ->
  word_opt (last_char None p) = false ->
  word_opt (next_char q) = false ->
  p = a.
Proof.
  intros Hs Hno E Ho Hp Hq.
  destruct (symbol_chars old Hs) as [Hne Hw].
  pose proof (lit_eq_length true old o Ho) as Hlen.
  apply app_eq_app in E. destruct E as [l [[-> E] | [-> E]]].
  - (* the occurrence starts after [a] *)
    destruct (nil_or_not l) as [-> | Hl]; [apply app_nil_r|]. exfalso.
    apply app_eq_app in E. destruct E as [l' [[E1 E2] | [E1 E2]]].
    + (* inside the name *)
      rewrite E1 in Hw. apply all_app in Hw. destruct Hw as [Hw _].
      rewrite last_char_app, word_last in Hp by auto. discriminate.
    + (* after the name *)
      subst l b. destruct (nil_or_not l') as [-> | Hl'].
      * rewrite app_nil_r, last_char_app, word_last in Hp by auto. discriminate.
      * assert (Hocc : word_occurs true old ((a ++ new ++ l') ++ o ++ q) = true).
        { apply word_occurs_intro; auto.
          rewrite app_assoc, last_char_app.
          rewrite (last_char_nonempty _ (last_char None (a ++ old)) l') by auto.
          rewrite <- last_char_app, <- app_assoc. exact Hp. }
        rewrite <- !app_assoc in Hocc. congruence.
  - (* the occurrence starts before the end of [a] *)
    destruct (nil_or_not l) as [-> | Hl]; [symmetry; apply app_nil_r|]. exfalso.
    apply app_eq_app in E. destruct E as [l' [[E1 E2] | [E1 E2]]].
    + (* it ends after [a] *)
      subst o. apply app_eq_app in E2. rewrite length_app in Hlen.
      destruct E2 as [l'' [[E3 E4] | [E3 E4]]].
      * subst q. rewrite E3 in Hw, Hlen. rewrite length_app in Hlen.
        apply all_app in Hw. destruct Hw as [_ Hw].
        destruct (nil_or_not l'') as [-> | Hl''].
        { destruct l; [congruence|]. cbn [length] in Hlen. lia. }
        rewrite word_first in Hq by auto. discriminate.
      * rewrite E3, length_app in Hlen.
        destruct l; [congruence|]. cbn [length] in Hlen. lia.
    + (* it ends inside [a] *)
      subst l q. destruct (nil_or_not l') as [-> | Hl'].
      * cbn [app] in Hq. rewrite word_first in Hq by auto. discriminate.
      * assert (Hocc : word_occurs true old (p ++ o ++ l' ++ new ++ b) = true).
        { apply word_occurs_intro; auto.
          rewrite next_char_app_nonempty by auto.
          rewrite next_char_app_nonempty in Hq by auto. exact Hq. }
        rewrite <- !app_assoc in Hno. congruence.
Qed.

(** *** The scanning loop when every match covers the one occurrence *)

(** A match found by the loop starts at or after the place the loop was
    told to resume at. *)
Lemma scan_hit_from fl r : forall s0 prev0 skip s st,
  In (Hit s st) (scan fl r prev0 s0 skip) ->
  exists pre adv, s0 = pre ++ s /\ skip <= length pre /\
    match_at fl r adv (last_char prev0 pre) s = Some st.
Proof.
  induction s0 as [|c s0 IH]; intros prev0 skip s st H.
  - simpl in H. destruct skip; [|contradiction].
    destruct (match_at fl r false prev0 []) eqn:E; [|contradiction].
    destruct H as [H|[]]. injection H as <- <-. exists [], false. auto.
  - assert (Hrec : forall n m, In (Hit s st) (scan fl r (Some c) s0 n) -> m <= S n ->
      exists pre adv, c :: s0 = pre ++ s /\ m <= length pre /\
        match_at fl r adv (last_char prev0 pre) s = Some st).
    { intros n m Hn Hm. apply IH in Hn. destruct Hn as (pre & adv & -> & Hl & Hm').
      exists (c :: pre), adv. cbn [length]. repeat split; auto. lia. }
    assert (Hhere : forall adv, match_at fl r adv prev0 (c :: s0) = Some st ->
      s = c :: s0 ->
      exists pre adv, c :: s0 = pre ++ s /\ 0 <= length pre /\
        match_at fl r adv (last_char prev0 pre) s = Some st).
    { intros adv Hm ->. exists [], adv. repeat split; auto. }
    simpl in H. destruct skip; [|eapply Hrec; eauto].
    destruct (match_at fl r false prev0 (c :: s0)) as [st1|] eqn:E.
    + destruct (m_pos st1) eqn:Ep.
      * destruct H as [H|H].
        { injection H as <- <-. eapply Hhere; eauto. }
        destruct (match_at fl r true prev0 (c :: s0)) as [st2|] eqn:E2.
        { destruct (m_pos st2).
          - destruct H as [H|H]; [discriminate|eapply Hrec; eauto; lia].
          - destruct H as [H|H]; [|eapply Hrec; eauto; lia].
            injection H as <- <-. eapply Hhere; eauto. }
        destruct H as [H|H]; [discriminate|eapply Hrec; eauto; lia].
      * destruct H as [H|H]; [|eapply Hrec; eauto; lia].
        injection H as <- <-. eapply Hhere; eauto.
    + destruct H as [H|H]; [discriminate|eapply Hrec; eauto; lia].
Qed.

Section OneHit.

Variables (fl : flags) (r : regex) (f : text -> mstate -> option text).
Variables (a old new b : text).

Hypothesis old_nonempty : old <> [].

(** Every match, wherever it starts, runs over the occurrence between
    [a] and [b], and is replaced by itself with the new name. *)
Hypothesis all_hits : forall p s adv st,
  a ++ old ++ b = p ++ s ->
  match_at fl r adv (last_char None p) s = Some st ->
  exists g1 g2 rest,
    s = g1 ++ old ++ g2 ++ rest /\ p ++ g1 = a /\
    m_pos st = length (g1 ++ old ++ g2) /\
    f s st = Some (g1 ++ new ++ g2).



End OneHit.

(** *** Step 1 on a file that names the symbol once, on its definition *)

Lemma definition_context_elim pre w0 k w1 w2 rest :
  definition_context pre w0 k w1 w2 rest = true ->
  at_bol M (last_char None pre) = true /\ forallb is_space w0 = true /\
  (k = txt "config" \/ k = txt "menuconfig") /\
  (exists c w1', w1 = c :: w1' /\ is_space c = true /\ forallb is_space w1' = true) /\
  forallb is_space w2 = true /\ at_eol M rest = true.
Proof.
  unfold definition_context. intros H.
  apply andb_true_iff in H. destruct H as [H He].
  apply andb_true_iff in H. destruct H as [H H2].
  apply andb_true_iff in H. destruct H as [H H1].
  apply andb_true_iff in H. destruct H as [H Hk].
  apply andb_true_iff in H. destruct H as [Hb H0].
  repeat split; auto.
  - apply orb_true_iff in Hk. destruct Hk as [E | E]; apply text_eqb_eq in E; auto.
  - destruct w1 as [|c w1']; [discriminate|]. exists c, w1'.
    cbn [forallb] in H1. apply andb_true_iff in H1. tauto.
Qed.

Lemma definition_matches old pre w0 k w1 w2 rest :
  is_symbol old = true ->
  definition_context pre w0 k w1 w2 rest = true ->
  exists st, match_at M (rule1 old) false (last_char None pre)
               (((w0 ++ k ++ w1) ++ old ++ w2) ++ rest) = Some st.
Proof.
  intros Hs Hc. apply definition_context_elim in Hc.
  destruct Hc as (Hb & H0 & Hk & (c & w1' & -> & Hc & H1) & H2 & He).
  eapply match_at_complete.
  - unfold rule1. apply line_shape_intro with (c1 := []); auto.
    + cbn [seq denote]. exists w0, (k ++ c :: w1'), [].
      split; [reflexivity|]. split; [auto|].
      exists k, (c :: w1'), []. split; [reflexivity|]. split.
      * unfold kw. cbn [denote].
        destruct Hk as [-> | ->]; [left|right]; split; auto; apply lit_eq_refl.
      * unfold Plus. cbn [denote]. exists [c], w1', [].
        split; [reflexivity|]. split; [eauto|auto].
    + apply lit_eq_refl.
    + cbn [denote]. split; [exact H2|reflexivity].
  - destruct (symbol_chars old Hs) as [Hne _]. intros E.
    apply app_eq_nil in E. destruct E as [_ E].
    apply app_eq_nil in E. tauto.
Qed.





End RoundTrip.
Import RoundTrip.

Module OneFile.

(** *** [rename_symbol] on a tree that holds one Kconfig file *)












End OneFile.
Import OneFile.

(* ================================================================== *)
(** ** The claims *)
(* ================================================================== *)

(** The whole loop leaves a text alone when none of its words is an old
    symbol. *)
Lemma rename_all_identity : forall mappings s,
  forallb renamable mappings = true -> no_word_of mappings s = true ->
  rename_all mappings s = Some s.
Proof.
  induction mappings as [|[old new] m IH]; intros s Hr Hn; [reflexivity|].
  cbn [forallb no_word_of] in Hr, Hn. unfold no_word_of in IH.
  apply andb_true_iff in Hr. destruct Hr as [Hr Hm].
  apply andb_true_iff in Hn. destruct Hn as [Hn Hs].
  unfold renamable in Hr. cbn [fst snd] in Hr, Hn.
  apply andb_true_iff in Hr. destruct Hr as [Hr Ht].
  apply andb_true_iff in Hr. destruct Hr as [Hsym Hd].
  apply negb_true_iff in Hd. apply negb_true_iff in Hn.
  cbn [rename_all]. rewrite rename_one_identity by auto. cbn [bind]. auto.
Qed.

(** C1: a [depends on] clause that spans three lines with the symbol only
    on the last one should be rewritten.  The code does not do it: the
    span step 6 captures ends at the first line break, so the text comes
    back unchanged. *)
Theorem three_line_depends_not_rewritten :
  map (fun h => group0 (fst h) (snd h))
      (hits (finditer MSI multiline_depends_pattern depends_three_lines))
  = [txt "depends on A ||"] /\
  rename_all [(FOO, BAR_FOO)] depends_three_lines = Some depends_three_lines.
Proof. split; vm_compute; reflexivity. Qed.

(** C2, as stated, fails: for a tree whose only Kconfig file does not
    mention the symbol, the dry run reports one file and the real run
    updates none. *)
Lemma dry_run_count_counterexample :
  fst (process_kconfig_files_with_python [txt "./Kconfig"] [(FOO, X_FOO)]
         (start unrelated_tree true)) = Ok 1 /\
  fst (process_kconfig_files_with_python [txt "./Kconfig"] [(FOO, X_FOO)]
         (start unrelated_tree false)) = Ok 0.
Proof. split; vm_compute; reflexivity. Qed.

(** C2, amended: in dry-run mode nothing is written (the tree, the write
    record and the change log stay as they are), the count reported for
    the Kconfig files is the number of files given, and that number is an
    upper bound of what a real run counts as updated. *)
Theorem dry_run_writes_nothing sed old new root_dir files mappings st :
  dry_run st = true ->
  (exists st', rename_symbol sed old new root_dir st = (Ok tt, st') /\
               same_files st st') /\
  (exists st', process_kconfig_files_with_python files mappings st
               = (Ok (length files), st') /\ same_files st st') /\
  (forall sources script file_type use_simple,
     exists n st', process_files_with_sed sed sources script file_type use_simple st
                   = (Ok n, st') /\ same_files st st' /\ n <= length sources) /\
  (forall st2 n st2',
     process_kconfig_files_with_python files mappings st2 = (Ok n, st2') ->
     n <= length files).
Proof.
  intros Hd. split; [apply rename_symbol_dry; auto|].
  split; [apply process_kconfig_dry; auto|].
  split.
  - intros. apply process_sed_dry; auto.
  - intros st2 n st2' H. eapply process_kconfig_le; eauto.
Qed.

Lemma dry_run_writes_nothing_witness :
  (exists st', rename_symbol quiet_sed FOO BAR_FOO (txt ".") (start four_definitions true)
               = (Ok tt, st') /\ same_files (start four_definitions true) st') /\
  (exists st', process_kconfig_files_with_python [txt "./Kconfig"] [(FOO, BAR_FOO)]
                 (start four_definitions true)
               = (Ok 1, st') /\ same_files (start four_definitions true) st') /\
  (forall sources script file_type use_simple,
     exists n st', process_files_with_sed quiet_sed sources script file_type use_simple
                     (start four_definitions true)
                   = (Ok n, st') /\ same_files (start four_definitions true) st'
                   /\ n <= length sources) /\
  (forall st2 n st2',
     process_kconfig_files_with_python [txt "./Kconfig"] [(FOO, BAR_FOO)] st2
     = (Ok n, st2') -> n <= 1).
Proof.
  exact (dry_run_writes_nothing quiet_sed FOO BAR_FOO (txt ".") [txt "./Kconfig"]
           [(FOO, BAR_FOO)] (start four_definitions true) eq_refl).
Defined.

(** C3, as stated, fails: a [choice] line with more text after the name
    is not recognized by the discovery. *)
Lemma choice_with_extra_counterexample :
  fst (find_all_subsymbols FOO (txt ".") (start choice_tree false)) = Ok [].
Proof. vm_compute. reflexivity. Qed.

(** C3, amended: the discovery always returns, and every symbol it
    returns stands in a readable Kconfig file of the tree in a definition:
    at the start of a line, white space, one of the keywords [config],
    [menuconfig], [choice], white space, the root symbol followed by
    symbol characters, white space, the end of a line (white space may
    include line breaks).  A [choice] line with a further token after the
    name defines nothing. *)
Theorem discovery_is_anchored symbol root_dir st name extra :
  is_symbol symbol = true -> is_symbol name = true ->
  forallb not_nl extra = true -> existsb non_ws extra = true ->
  (exists subs st',
     find_all_subsymbols symbol root_dir st = (Ok subs, st') /\
     forall sym, In sym subs ->
       exists f content,
         In f (kconfig_paths root_dir (tree st)) /\
         read_file f st = Some content /\
         defined_at [txt "config"; txt "menuconfig"; txt "choice"] symbol sym content) /\
  defined_in symbol (txt "choice " ++ name ++ sp :: extra) = [].
Proof.
  intros Hs Hn Hnl Hex. split.
  - destruct (find_all_subsymbols_spec symbol root_dir st) as (subs & st' & H1 & _ & H3).
    exists subs, st'. split; [exact H1|]. intros sym Hin.
    destruct (H3 sym Hin) as (f & content & Hf & Hr & Hd).
    exists f, content. split; [exact Hf|]. split; [exact Hr|].
    apply defined_in_sound. exact Hd.
  - apply choice_extra_not_found; auto.
Qed.

Lemma discovery_is_anchored_witness :
  (exists subs st',
     find_all_subsymbols FOO (txt ".") (start four_definitions false) = (Ok subs, st') /\
     forall sym, In sym subs ->
       exists f content,
         In f (kconfig_paths (txt ".") (tree (start four_definitions false))) /\
         read_file f (start four_definitions false) = Some content /\
         defined_at [txt "config"; txt "menuconfig"; txt "choice"] FOO sym content) /\
  defined_in FOO (txt "choice " ++ txt "FOO_MODE" ++ sp :: txt "extra") = [].
Proof.
  exact (discovery_is_anchored FOO (txt ".") (start four_definitions false)
           (txt "FOO_MODE") (txt "extra") eq_refl eq_refl eq_refl eq_refl).
Defined.

(** C4: the discovery returns, every symbol it returns is the root symbol
    followed by a remainder, and the derived mapping sends it to the new
    symbol followed by the same remainder; the mapping set holds nothing
    else.  On the four definitions of the example the mappings are FOO to
    BAR_FOO, FOOBAR to BAR_FOOBAR, FOOBAR_X to BAR_FOOBAR_X and FOOZ to
    BAR_FOOZ. *)
Theorem derived_mappings_keep_the_rest old new root_dir st :
  (exists subs st',
     find_all_subsymbols old root_dir st = (Ok subs, st') /\
     (forall sym, In sym subs ->
        exists rest, sym = old ++ rest /\
          dict_get sym (derive_mappings old new subs) = Some (new ++ rest)) /\
     (forall k v, dict_get k (derive_mappings old new subs) = Some v ->
        In k subs /\ exists rest, k = old ++ rest /\ v = new ++ rest)) /\
  fst (find_all_subsymbols FOO (txt ".") (start four_definitions false))
  = Ok [txt "FOO"; txt "FOOBAR"; txt "FOOBAR_X"; txt "FOOZ"] /\
  derive_mappings FOO BAR_FOO [txt "FOO"; txt "FOOBAR"; txt "FOOBAR_X"; txt "FOOZ"]
  = [(txt "FOO", txt "BAR_FOO"); (txt "FOOBAR", txt "BAR_FOOBAR");
     (txt "FOOBAR_X", txt "BAR_FOOBAR_X"); (txt "FOOZ", txt "BAR_FOOZ")].
Proof.
  split; [|split; vm_compute; reflexivity].
  destruct (find_all_subsymbols_spec old root_dir st) as (subs & st' & H1 & _ & H3).
  exists subs, st'. split; [exact H1|]. split.
  - intros sym Hin. destruct (H3 sym Hin) as (f & content & _ & _ & Hd).
    apply defined_in_prefix in Hd. destruct Hd as (rest & ->).
    exists rest. split; [reflexivity|].
    rewrite derive_mappings_get; auto using startswith_app.
    unfold derived. rewrite skipn_length_app. reflexivity.
  - intros k v H. apply derive_mappings_inv in H. destruct H as (Hin & Hs & ->).
    split; [exact Hin|]. exists (skipn (length old) k). split.
    + apply startswith_prefix. exact Hs.
    + reflexivity.
Qed.

(** C5, as stated, fails: the old symbol FOO occurs in the text only
    inside FOOBAR, yet the text is changed, because steps 4, 10 and 12
    compare the symbol without regard to case. *)
Lemma lower_case_counterexample :
  word_occurs false FOO lower_case_depends = false /\
  rename_all [(FOO, txt "BAR")] lower_case_depends
  = Some (txt "depends on BAR || FOOBAR").
Proof. split; vm_compute; reflexivity. Qed.

(** Why the word [depends] is left out as an old symbol: step 6 searches
    the span it captured as a text of its own, so the start of the span
    counts as a word boundary whatever stands before it in the file.
    With DEPENDS mapped to Y the identifier XDEPENDS is cut in two. *)
Lemma depends_as_symbol_is_cut :
  rename_all [(txt "DEPENDS", txt "Y")] (lines [txt "XDEPENDS on A"])
  = Some (lines [txt "XY on A"]).
Proof. vm_compute. reflexivity. Qed.

(** Mappings are applied one after the other, without a guard: with the
    chained mappings B to C, A to B the first pass turns [config A] into
    [config B] and a second pass turns that into [config C]. *)
Lemma chain_counterexample :
  rename_all chain (txt "config A") = Some (txt "config B") /\
  rename_all chain (txt "config B") = Some (txt "config C").
Proof. split; vm_compute; reflexivity. Qed.

(** What the pass leaves behind when one [depends on] line names the
    symbol twice and ends the file: step 4 rewrites the last occurrence
    only, and a second pass is needed for the other. *)
Lemma depends_twice_needs_two_passes :
  rename_all [(FOO, X_FOO)] depends_twice = Some (txt "depends on FOO && X_FOO") /\
  rename_all [(FOO, X_FOO)] (txt "depends on FOO && X_FOO")
  = Some (txt "depends on X_FOO && X_FOO").
Proof. split; vm_compute; reflexivity. Qed.




(** C8: when the rewritten content equals the original, the file is not
    written and nothing is logged: the state is returned as it was.  This
    is the case for a file none of whose words is an old symbol.  A run
    that changes the tree, the write record or the change log has read a
    content that the rewriting changed, and has written that file and
    logged it once. *)
Theorem unchanged_file_is_not_written filepath mappings st content :
  dry_run st = false -> read_file filepath st = Some content ->
  (rename_all mappings content = Some content ->
   rename_in_kconfig_file filepath mappings st = (Ok false, st)) /\
  (forallb renamable mappings = true -> no_word_of mappings content = true ->
   rename_in_kconfig_file filepath mappings st = (Ok false, st)) /\
  (forall r st',
     rename_in_kconfig_file filepath mappings st = (r, st') ->
     tree st' <> tree st \/ written st' <> written st \/
     changes_made st' <> changes_made st ->
     exists content',
       rename_all mappings content = Some content' /\ content' <> content /\
       written st' = written st ++ [filepath] /\
       changes_made st' = changes_made st ++ [txt "Updated Kconfig file: " ++ filepath]).
Proof.
  intros Hd Hr. split; [|split].
  - intros Hc. eapply rename_in_kconfig_file_unchanged; eauto.
  - intros Hm Hn. eapply rename_in_kconfig_file_unchanged; eauto.
    apply rename_all_identity; auto.
  - intros r st' H Hch.
    destruct (rename_in_kconfig_file_touch _ _ _ _ _ H Hch)
      as (_ & c & c' & H1 & H2 & H3 & H4 & H5).
    rewrite Hr in H1. injection H1 as <-. exists c'. auto.
Qed.

Lemma unchanged_file_is_not_written_witness :
  (rename_all [(FOO, BAR_FOO)] (lines [txt "config BAR"]) = Some (lines [txt "config BAR"]) ->
   rename_in_kconfig_file (txt "./Kconfig") [(FOO, BAR_FOO)] (start unrelated_tree false)
   = (Ok false, start unrelated_tree false)) /\
  (forallb renamable [(FOO, BAR_FOO)] = true ->
   no_word_of [(FOO, BAR_FOO)] (lines [txt "config BAR"]) = true ->
   rename_in_kconfig_file (txt "./Kconfig") [(FOO, BAR_FOO)] (start unrelated_tree false)
   = (Ok false, start unrelated_tree false)) /\
  (forall r st',
     rename_in_kconfig_file (txt "./Kconfig") [(FOO, BAR_FOO)] (start unrelated_tree false)
     = (r, st') ->
     tree st' <> tree (start unrelated_tree false) \/
     written st' <> written (start unrelated_tree false) \/
     changes_made st' <> changes_made (start unrelated_tree false) ->
     exists content',
       rename_all [(FOO, BAR_FOO)] (lines [txt "config BAR"]) = Some content' /\
       content' <> lines [txt "config BAR"] /\
       written st' = written (start unrelated_tree false) ++ [txt "./Kconfig"] /\
       changes_made st' = changes_made (start unrelated_tree false)
                          ++ [txt "Updated Kconfig file: " ++ txt "./Kconfig"]).
Proof.
  exact (unchanged_file_is_not_written (txt "./Kconfig") [(FOO, BAR_FOO)]
           (start unrelated_tree false) (lines [txt "config BAR"]) eq_refl eq_refl).
Defined.

Module Raising.

(** *** When [re.sub] raises

    The only exception the rewriting steps can raise is the one of the
    replacement template. *)

Lemma join_pieces_some f : forall ps,
  (forall s st, f s st <> None) -> join_pieces f ps <> None.
Proof.
  intros ps Hf. induction ps as [|[c|s st] ps IH]; cbn [join_pieces].
  - discriminate.
  - destruct (join_pieces f ps); [discriminate|congruence].
  - specialize (Hf s st). destruct (f s st); [|congruence].
    destruct (join_pieces f ps); [discriminate|congruence].
Qed.

Lemma sub_some fl r n repl s :
  parse_template n repl <> None -> sub fl r n repl s <> None.
Proof.
  intros H. unfold sub. destruct (parse_template n repl); [|congruence].
  apply join_pieces_some. discriminate.
Qed.


Lemma sub_rule_some fl r new s :
  template_safe new = true -> exists s', sub_rule fl r new s = Some s'.
Proof.
  intros H. destruct (sub_rule fl r new s) eqn:E; [eauto|]. exfalso.
  revert E. apply sub_some. rewrite parse_template_safe by auto. discriminate.
Qed.

Lemma template_safe_plain new :
  template_safe new = true ->
  forallb (fun c => negb (ascii_eqb c backslash)) new = true.
Proof. unfold template_safe. intros H. apply andb_true_iff in H. tauto. Qed.

Lemma rule6_some old new s :
  template_safe new = true -> exists s', rule6 old new s = Some s'.
Proof.
  intros H. destruct (rule6 old new s) eqn:E; [eauto|]. exfalso.
  revert E. unfold rule6, sub_fn. apply join_pieces_some. intros s0 st.
  unfold replace_multiline_depends. apply sub_some.
  rewrite parse_template_plain by (apply template_safe_plain; auto). discriminate.
Qed.

Lemma rename_one_some old new s :
  template_safe new = true -> exists s', rename_one old new s = Some s'.
Proof.
  intros H. unfold rename_one.
  repeat match goal with
  | |- context [bind (rule6 ?o ?n ?c) _] =>
      let x := fresh "s" in let E := fresh "E" in
      destruct (rule6_some o n c H) as [x E]; rewrite E; cbn [bind]
  | |- context [bind (sub_rule ?fl ?r ?n ?c) _] =>
      let x := fresh "s" in let E := fresh "E" in
      destruct (sub_rule_some fl r n c H) as [x E]; rewrite E; cbn [bind]
  end.
  apply sub_rule_some. exact H.
Qed.

Lemma rename_all_some : forall mappings s,
  forallb (fun m => template_safe (snd m)) mappings = true ->
  exists s', rename_all mappings s = Some s'.
Proof.
  induction mappings as [|[old new] ms IH]; intros s H; cbn [rename_all].
  - eauto.
  - cbn [forallb snd] in H. apply andb_true_iff in H. destruct H as [Hn Hm].
    destruct (rename_one_some old new s Hn) as [s1 ->]. cbn [bind]. auto.
Qed.



End Raising.
Import Raising.

Module FileFacts.

(** *** Reading and writing in the tree *)


Lemma lookup_store_other path other content : forall t,
  other <> path ->
  lookup_file other (store path content t) = lookup_file other t.
Proof.
  induction t as [|e t IH]; intros H; cbn [lookup_file store].
  - reflexivity.
  - destruct (text_eqb (path_of e) path) eqn:E.
    + cbn [lookup_file].
      change (path_of (Entry (e_dir e) (e_name e)
                 (File (Some content) (f_writable (e_file e)))))
        with (path_of e).
      destruct (text_eqb (path_of e) other) eqn:E2; [|reflexivity].
      apply text_eqb_eq in E. apply text_eqb_eq in E2. congruence.
    + cbn [lookup_file]. rewrite IH by auto. reflexivity.
Qed.

(** [os.walk] sees the same paths after a write. *)
Lemma store_paths path content : forall t,
  map (fun e => (e_dir e, e_name e)) (store path content t)
  = map (fun e => (e_dir e, e_name e)) t.
Proof.
  induction t as [|e t IH]; cbn [store map]; [reflexivity|].
  destruct (text_eqb (path_of e) path); cbn [map e_dir e_name]; congruence.
Qed.

(** What one call of [rename_in_kconfig_file] does to the tree, case by
    case of its result. *)
Lemma rename_in_kconfig_file_effect filepath mappings st r st' :
  dry_run st = false ->
  rename_in_kconfig_file filepath mappings st = (r, st') ->
  dry_run st' = false /\
  (forall other, other <> filepath ->
     lookup_file other (tree st') = lookup_file other (tree st)) /\
  match r with
  | Ok true =>
      exists c c' fl,
        read_file filepath st = Some c /\ rename_all mappings c = Some c' /\
        c' <> c /\ lookup_file filepath (tree st) = Some fl /\
        f_writable fl = true /\
        tree st' = store filepath c' (tree st)
  | Ok false =>
      tree st' = tree st /\ written st' = written st /\
      changes_made st' = changes_made st /\
      (read_file filepath st = None \/
       (exists c, read_file filepath st = Some c /\
                  rename_all mappings c = Some c) \/
       (exists c c', read_file filepath st = Some c /\
                     rename_all mappings c = Some c' /\ c' <> c /\
                     write_file filepath c' st = None))
  | Raise =>
      st' = st /\
      exists c, read_file filepath st = Some c /\ rename_all mappings c = None
  end.
Proof.
  unfold rename_in_kconfig_file. intros Hd H. rewrite Hd in H.
  destruct (read_file filepath st) as [content|] eqn:Hr.
  2:{ cbv [mbind logger ret] in H. injection H as <- <-.
      cbn [tree written changes_made dry_run]. auto 10. }
  destruct (rename_all mappings content) as [content'|] eqn:Hc.
  2:{ injection H as <- <-. split; [auto|]. split; [auto|]. split; [auto|]. exists content. auto. }
  destruct (text_eqb content' content) eqn:E; cbn [negb] in H.
  { injection H as <- <-. apply text_eqb_eq in E. subst content'.
    split; [auto|]. split; [auto|]. split; [auto|]. split; [auto|]. split; [auto|].
    right. left. exists content. auto. }
  assert (Hne : content' <> content).
  { intros ->. rewrite text_eqb_refl in E. discriminate. }
  destruct (write_file filepath content' st) as [st1|] eqn:Hw.
  2:{ cbv [mbind logger ret] in H. injection H as <- <-.
      cbn [tree written changes_made dry_run].
      split; [auto|]. split; [auto|]. split; [auto|]. split; [auto|]. split; [auto|].
      right. right. exists content, content'. auto. }
  unfold write_file in Hw.
  destruct (lookup_file filepath (tree st)) as [fl|] eqn:Hl; [|discriminate].
  destruct (f_writable fl) eqn:Hwr; [|discriminate]. injection Hw as <-.
  cbv [mbind logger append_change ret] in H.
  cbn [tree written changes_made dry_run log] in H.
  injection H as <- <-. cbn [tree written changes_made dry_run log].
  split; [auto|]. split.
  - intros other Ho. apply lookup_store_other. exact Ho.
  - exists content, content', fl. auto 10.
Qed.

Lemma read_file_lookup path st st' :
  lookup_file path (tree st') = lookup_file path (tree st) ->
  read_file path st' = read_file path st.
Proof. unfold read_file. intros ->. reflexivity. Qed.

(** With new symbols that are literal in the template a call returns. *)
Lemma rename_in_kconfig_file_returns filepath mappings st :
  safe_mappings mappings = true ->
  exists b st', rename_in_kconfig_file filepath mappings st = (Ok b, st').
Proof.
  intros Hs. destruct (rename_in_kconfig_file filepath mappings st) as [[b|] st'] eqn:E.
  - eauto.
  - exfalso. unfold rename_in_kconfig_file in E.
    destruct (dry_run st).
    { cbv [mbind logger_debug ret] in E. discriminate. }
    destruct (read_file filepath st) as [c|].
    2:{ cbv [mbind logger ret] in E. discriminate. }
    destruct (rename_all_some mappings c Hs) as [c' Hc]. rewrite Hc in E.
    destruct (negb (text_eqb c' c)); [|discriminate].
    destruct (write_file filepath c' st); cbv [mbind logger append_change ret] in E;
      discriminate.
Qed.






End FileFacts.
Import FileFacts.

Module Discovery.

(** *** What [find_all_subsymbols] returns *)

Lemma set_add_nodup x s : NoDup s -> NoDup (set_add x s).
Proof.
  intros H. unfold set_add. destruct (existsb (text_eqb x) s) eqn:E; [exact H|].
  apply NoDup_app; [exact H| repeat constructor; intros [] |].
  intros y Hy [<- | []].
  assert (Hx : existsb (text_eqb x) s = true).
  { apply existsb_exists. exists x. split; [exact Hy|apply text_eqb_refl]. }
  congruence.
Qed.

Lemma fold_set_add_nodup l : forall s,
  NoDup s -> NoDup (fold_left (fun s x => set_add x s) l s).
Proof.
  induction l as [|x l IH]; intros s H; cbn [fold_left]; [exact H|].
  apply IH. apply set_add_nodup. exact H.
Qed.

Lemma scan_kconfig_files_exact symbol : forall files acc st,
  exists subs st',
    scan_kconfig_files symbol files acc st = (Ok subs, st') /\
    same_files st st' /\
    (forall sym, In sym subs <->
       In sym acc \/
       exists f content,
         In f files /\ read_file f st = Some content /\
         In sym (defined_in symbol content)) /\
    (NoDup acc -> NoDup subs) /\
    log st' = log st ++
      map (fun f => (WARNING, txt "Could not read " ++ f ++ txt ": {e}"))
          (filter (fun f => match read_file f st with None => true | _ => false end)
                  files).
Proof.
  induction files as [|f files IH]; intros acc st.
  - exists acc, st. cbn [scan_kconfig_files ret filter map].
    split; [reflexivity|]. split; [apply same_files_refl|]. split.
    + intros sym. split; [auto|]. intros [H | (f & c & [] & _)]. exact H.
    + split; [auto|]. rewrite app_nil_r. reflexivity.
  - cbn [scan_kconfig_files filter]. destruct (read_file f st) as [content|] eqn:E.
    + destruct (IH (fold_left (fun s x => set_add x s) (defined_in symbol content) acc) st)
        as (subs & st' & H1 & H2 & H3 & H4 & H5).
      exists subs, st'. split; [exact H1|]. split; [exact H2|]. split; [|split].
      * intros sym. rewrite H3, fold_set_add_in. split.
        -- intros [[H | H] | (f' & c' & Hf & Hr & Hd)]; [auto| |].
           ++ right. exists f, content. cbn [In]. auto.
           ++ right. exists f', c'. cbn [In]. auto.
        -- intros [H | (f' & c' & [<- | Hf] & Hr & Hd)]; [auto| |].
           ++ left. right. congruence.
           ++ right. exists f', c'. auto.
      * intros Hn. apply H4. apply fold_set_add_nodup. exact Hn.
      * exact H5.
    + unfold mbind.
      cbv [logger]. 
      match goal with |- context [scan_kconfig_files _ _ _ ?s] =>
        destruct (IH acc s) as (subs & st' & H1 & H2 & H3 & H4 & H5)
      end.
      exists subs, st'. split; [exact H1|]. split; [|split; [|split]].
      * unfold same_files in *. cbn [tree written changes_made dry_run] in H2. exact H2.
      * intros sym. rewrite H3. unfold read_file in *.
        cbn [tree] in *. split.
        -- intros [H | (f' & c' & Hf & Hr & Hd)]; [auto|].
           right. exists f', c'. cbn [In]. auto.
        -- intros [H | (f' & c' & [<- | Hf] & Hr & Hd)]; [auto| |].
           ++ congruence.
           ++ right. exists f', c'. auto.
      * exact H4.
      * rewrite H5. cbn [log map]. unfold read_file. cbn [tree].
        rewrite <- app_assoc. reflexivity.
Qed.

Lemma find_all_subsymbols_exact symbol root_dir st :
  exists subs st',
    find_all_subsymbols symbol root_dir st = (Ok subs, st') /\
    same_files st st' /\
    (forall sym, In sym subs <->
       exists f content,
         In f (kconfig_paths root_dir (tree st)) /\ read_file f st = Some content /\
         In sym (defined_in symbol content)) /\
    NoDup subs /\
    log st' = log st ++
      map (fun f => (WARNING, txt "Could not read " ++ f ++ txt ": {e}"))
          (filter (fun f => match read_file f st with None => true | _ => false end)
                  (kconfig_paths root_dir (tree st))).
Proof.
  unfold find_all_subsymbols.
  destruct (scan_kconfig_files_exact symbol (kconfig_paths root_dir (tree st)) [] st)
    as (subs & st' & H1 & H2 & H3 & H4 & H5).
  exists subs, st'. split; [exact H1|]. split; [exact H2|]. split; [|split].
  - intros sym. rewrite H3. split; [intros [[] | H]; exact H | auto].
  - apply H4. constructor.
  - exact H5.
Qed.

End Discovery.
Import Discovery.

Module Runs.

(** *** [rename_symbol] when nothing is found, and when the template is bad *)

Lemma nothing_in_nil {A} (l : list A) : (forall x, ~ In x l) -> l = [].
Proof. destruct l as [|a l]; [reflexivity|]. intros H. destruct (H a). left. reflexivity. Qed.

Lemma rename_symbol_nothing sed old new root_dir st :
  (forall f content,
     In f (kconfig_paths root_dir (tree st)) -> read_file f st = Some content ->
     defined_in old content = []) ->
  exists st',
    rename_symbol sed old new root_dir st = (Ok tt, st') /\ same_files st st' /\
    exists l, log st' = l ++ [(WARNING, txt "No symbols found starting with " ++ old)].
Proof.
  intros Hn. unfold rename_symbol. unfold mbind at 1. log_step st.
  unfold mbind at 1. log_step st0. unfold mbind at 1.
  destruct (find_all_subsymbols_exact old root_dir st1)
    as (subs & st2 & -> & Hs2 & Hin & _ & _).
  assert (H1 : same_files st st1) by sf.
  assert (subs = []) as ->.
  { apply nothing_in_nil. intros sym Hsy. apply Hin in Hsy.
    destruct Hsy as (f & c & Hf & Hr & Hd).
    destruct H1 as (Ht & _). rewrite Ht in Hf.
    rewrite (read_file_same f st st1) in Hr by sf.
    rewrite (Hn f c Hf Hr) in Hd. destruct Hd. }
  cbn [derive_mappings fold_left]. cbv [logger].
  eexists. split; [reflexivity|]. split.
  - unfold same_files in *. cbn [tree written changes_made dry_run]. sf.
  - cbn [log]. eexists. reflexivity.
Qed.

(** Every new name of the derived mappings is the new symbol and a rest. *)
Lemma dict_set_values (Q : text -> Prop) k v : forall d,
  Q v -> Forall (fun m => Q (snd m)) d -> Forall (fun m => Q (snd m)) (dict_set k v d).
Proof.
  induction d as [|[k' v'] d IH]; intros Hv Hd; cbn [dict_set].
  - constructor; [exact Hv|constructor].
  - inversion Hd as [|x l Hx Hl]. subst.
    destruct (text_eqb k' k); constructor; auto.
Qed.


Lemma derive_mappings_nonempty old new subs sym :
  In sym subs -> startswith old sym = true -> derive_mappings old new subs <> [].
Proof.
  intros Hi Hs E. pose proof (derive_mappings_get old new subs sym Hi Hs) as H.
  rewrite E in H. discriminate.
Qed.




Lemma discovery_empty old root_dir st :
  fst (find_all_subsymbols old root_dir st) = Ok [] ->
  forall f content,
    In f (kconfig_paths root_dir (tree st)) -> read_file f st = Some content ->
    defined_in old content = [].
Proof.
  intros H f content Hf Hr.
  destruct (find_all_subsymbols_exact old root_dir st) as (subs & st' & E & _ & Hin & _).
  rewrite E in H. cbn [fst] in H. injection H as ->.
  apply nothing_in_nil. intros sym Hs.
  apply (proj2 (Hin sym)). exists f, content. auto.
Qed.

End Runs.
Import Runs.

Module SedFacts.

(** *** The chunks handed to [sed] *)

Lemma chunks_concat chunk_size : forall fuel files,
  0 < chunk_size -> length files <= fuel ->
  concat (chunks fuel chunk_size files) = files.
Proof.
  induction fuel as [|fuel IH]; intros files Hs Hl.
  - destruct files; [reflexivity|]. cbn [length] in Hl. lia.
  - destruct files as [|f files]; [reflexivity|].
    cbn [chunks concat]. rewrite IH; [apply firstn_skipn|exact Hs|].
    rewrite length_skipn. cbn [length] in *. lia.
Qed.

Lemma chunks_bounded chunk_size : forall fuel files,
  0 < chunk_size ->
  Forall (fun c => c <> [] /\ length c <= chunk_size) (chunks fuel chunk_size files).
Proof.
  induction fuel as [|fuel IH]; intros files Hs; [constructor|].
  destruct files as [|f files]; [constructor|].
  cbn [chunks]. constructor; [|apply IH; exact Hs]. split.
  - destruct chunk_size; [lia|]. discriminate.
  - rewrite length_firstn. lia.
Qed.

(** All chunks but the last are full. *)
Lemma chunks_full chunk_size : forall fuel files c cs,
  0 < chunk_size -> length files <= fuel ->
  chunks fuel chunk_size files = c :: cs -> cs <> [] -> length c = chunk_size.
Proof.
  intros fuel files c cs Hs Hl E Hne. destruct fuel as [|fuel].
  - discriminate.
  - destruct files as [|f files]; [discriminate|].
    cbn [chunks] in E. injection E as <- <-.
    rewrite length_firstn. apply Nat.min_l.
    destruct (le_lt_dec chunk_size (length (f :: files))) as [H|H]; [exact H|].
    exfalso. apply Hne. rewrite skipn_all2 by lia.
    destruct fuel; reflexivity.
Qed.

Lemma chunks_suffix chunk_size : forall fuel files before c after,
  0 < chunk_size -> length files <= fuel ->
  chunks fuel chunk_size files = before ++ c :: after ->
  exists fuel' files', length files' <= fuel' /\
    chunks fuel' chunk_size files' = c :: after.
Proof.
  intros fuel files before. revert fuel files.
  induction before as [|b before IH]; intros fuel files c after Hs Hl E.
  - exists fuel, files. auto.
  - destruct fuel as [|fuel]; [discriminate|].
    destruct files as [|f files]; [discriminate|].
    cbn [chunks app] in E. injection E as _ E.
    apply (IH fuel (skipn chunk_size (f :: files))); auto.
    rewrite length_skipn. cbn [length] in *. lia.
Qed.

Lemma chunks_inner_full chunk_size (files : list text) :
  0 < chunk_size ->
  forall before c after,
    chunks (length files) chunk_size files = before ++ c :: after -> after <> [] ->
    length c = chunk_size.
Proof.
  intros Hs before c after E Hne.
  destruct (chunks_suffix chunk_size (length files) files before c after Hs (le_n _) E)
    as (fuel' & files' & Hl & E').
  eapply chunks_full; eauto.
Qed.

(** *** One chunk and the loop over the chunks *)

Section Sed.
Variable sed : sed_tool.
Variables (sed_script file_type : text) (use_simple : bool).

Lemma sed_chunk_spec chunk st :
  exists n st',
    sed_chunk sed sed_script file_type use_simple chunk st = (Ok n, st') /\
    (n = 0 \/ n = length chunk) /\
    written st' = written st /\ changes_made st' = changes_made st /\
    dry_run st' = dry_run st.
Proof.
  unfold sed_chunk, mbind, subprocess_run.
  destruct (sed_run sed (negb use_simple) sed_script chunk (tree st)) as [[[]| |] t1];
    cbn [tree written changes_made dry_run log].
  - eexists _, _. split; [reflexivity|]. cbn. auto.
  - destruct (sed_run sed false sed_script chunk t1) as [[[]| |] t2];
      cbv [logger ret]; cbn [tree written changes_made dry_run log];
      eexists _, _; (split; [reflexivity|]); cbn; auto.
  - cbv [logger ret]. cbn [tree written changes_made dry_run log].
    eexists _, _. split; [reflexivity|]. cbn. auto.
  - cbv [logger ret]. cbn [tree written changes_made dry_run log].
    eexists _, _. split; [reflexivity|]. cbn. auto.
Qed.

Lemma sed_chunk_success chunk st :
  fst (sed_run sed (negb use_simple) sed_script chunk (tree st)) = SedExit true ->
  sed_chunk sed sed_script file_type use_simple chunk st
  = (Ok (length chunk),
     Renamer (sed_pass sed (negb use_simple) sed_script (tree st) chunk)
             (written st) (changes_made st) (dry_run st) (log st)).
Proof.
  intros H. unfold sed_chunk, mbind, subprocess_run, sed_pass.
  destruct (sed_run sed (negb use_simple) sed_script chunk (tree st)) as [out t1].
  cbn [fst snd] in *. subst out. reflexivity.
Qed.

Lemma sed_chunks_spec : forall cs k st,
  exists n st',
    sed_chunks sed sed_script file_type use_simple cs k st = (Ok n, st') /\
    k <= n <= k + length (concat cs) /\
    written st' = written st /\ changes_made st' = changes_made st /\
    dry_run st' = dry_run st.
Proof.
  induction cs as [|c cs IH]; intros k st.
  - exists k, st. cbn [sed_chunks ret concat length]. split; [reflexivity|].
    split; [lia|auto].
  - cbn [sed_chunks]. unfold mbind.
    destruct (sed_chunk_spec c st) as (n1 & st1 & -> & Hn1 & Hw1 & Hc1 & Hd1).
    destruct (IH (k + n1) st1) as (n & st' & -> & Hn & Hw & Hc & Hd).
    exists n, st'. split; [reflexivity|]. cbn [concat]. rewrite length_app.
    split; [lia|]. split; [congruence|]. split; congruence.
Qed.

Lemma sed_chunks_success : sed_succeeds sed -> forall cs k st,
  sed_chunks sed sed_script file_type use_simple cs k st
  = (Ok (k + length (concat cs)),
     Renamer (fold_left (sed_pass sed (negb use_simple) sed_script) cs (tree st))
             (written st) (changes_made st) (dry_run st) (log st)).
Proof.
  intros Hs. induction cs as [|c cs IH]; intros k st.
  - cbn [sed_chunks ret concat length fold_left]. rewrite Nat.add_0_r.
    destruct st; reflexivity.
  - cbn [sed_chunks]. unfold mbind. rewrite sed_chunk_success by apply Hs.
    rewrite IH. cbn [tree written changes_made dry_run log concat fold_left].
    rewrite length_app, Nat.add_assoc. reflexivity.
Qed.

End Sed.

(** *** [process_files_with_sed] in a real run *)

Lemma process_sed_real sed files sed_script file_type use_simple st :
  dry_run st = false -> sed_raises sed = false ->
  exists n st',
    process_files_with_sed sed files sed_script file_type use_simple st = (Ok n, st') /\
    n <= length files /\
    written st' = written st /\ dry_run st' = false /\
    changes_made st'
    = changes_made st ++ (if 0 <? n then [sed_change n file_type] else []).
Proof.
  intros Hd Hr. unfold process_files_with_sed.
  destruct files as [|f files].
  { exists 0, st. cbn [Nat.ltb Nat.leb length]. rewrite app_nil_r. auto with arith. }
  destruct sed_script as [|c sed_script].
  { exists 0, st. cbn [Nat.ltb Nat.leb]. rewrite app_nil_r. auto with arith. }
  rewrite Hd. unfold mbind at 1. cbv [logger]. unfold sed_raises in Hr.
  destruct (sed_version sed).
  - apply negb_false_iff in Hr. rewrite Hr. unfold mbind at 1.
    match goal with |- context [sed_chunks _ ?sc ?ft ?us ?cs ?k ?s] =>
      destruct (sed_chunks_spec sed sc ft us cs k s)
        as (n & st1 & -> & Hn & Hw & Hc & Hd1)
    end.
    cbn [written changes_made dry_run] in *.
    rewrite chunks_concat in Hn by lia.
    exists n. destruct (unlink_ok sed); destruct (0 <? n) eqn:E;
      cbv [mbind logger append_change ret];
      eexists; (split; [reflexivity|]); cbn [written changes_made dry_run];
      unfold sed_change; rewrite ?app_nil_r; repeat split; try congruence; lia.
  - cbv [mbind logger ret]. eexists 0, _. split; [reflexivity|].
    cbn [written changes_made dry_run Nat.ltb Nat.leb]. rewrite app_nil_r.
    auto with arith.
  - discriminate.
Qed.

Lemma process_sed_all sed files sed_script file_type use_simple st :
  sed_succeeds sed -> sed_version_ok sed = true -> temp_script_ok sed = true ->
  dry_run st = false -> files <> [] -> sed_script <> [] ->
  exists st',
    process_files_with_sed sed files sed_script file_type use_simple st
    = (Ok (length files), st') /\
    tree st' = fold_left (sed_pass sed (negb use_simple) sed_script)
                         (chunks (length files) 100 files) (tree st) /\
    changes_made st' = changes_made st ++ [sed_change (length files) file_type].
Proof.
  intros Hs Hv Ht Hd Hf Hsc. unfold process_files_with_sed.
  destruct files as [|f files]; [congruence|].
  destruct sed_script as [|c sed_script]; [congruence|].
  unfold sed_version_ok in Hv.
  destruct (sed_version sed); try discriminate.
  rewrite Hd, Ht. unfold mbind at 1. cbv [logger]. unfold mbind at 1.
  rewrite sed_chunks_success by exact Hs.
  rewrite chunks_concat by lia. rewrite Nat.add_0_l.
  cbn [Nat.ltb Nat.leb length].
  destruct (unlink_ok sed); cbv [mbind logger append_change ret];
    cbn [tree written changes_made dry_run log];
    (eexists; split; [reflexivity|]); cbn [tree changes_made]; split; reflexivity.
Qed.

Lemma process_sed_missing sed files sed_script file_type use_simple st :
  sed_version sed = VersionMissing -> dry_run st = false ->
  exists st',
    process_files_with_sed sed files sed_script file_type use_simple st = (Ok 0, st') /\
    same_files st st'.
Proof.
  intros Hv Hd. unfold process_files_with_sed.
  destruct files as [|f files]; [exists st; split; [reflexivity|apply same_files_refl]|].
  destruct sed_script as [|c sed_script];
    [exists st; split; [reflexivity|apply same_files_refl]|].
  rewrite Hd, Hv. cbv [mbind logger ret]. eexists. split; [reflexivity|].
  unfold same_files. cbn [tree written changes_made dry_run]. auto.
Qed.

(** The exceptions nothing catches: no run of [sed], nothing changed. *)
Lemma process_sed_raises sed files sed_script file_type use_simple st :
  sed_raises sed = true -> dry_run st = false ->
  files <> [] -> sed_script <> [] ->
  exists st',
    process_files_with_sed sed files sed_script file_type use_simple st = (Raise, st') /\
    same_files st st'.
Proof.
  intros Hr Hd Hf Hsc. unfold process_files_with_sed.
  destruct files as [|f files]; [congruence|].
  destruct sed_script as [|c sed_script]; [congruence|].
  rewrite Hd. unfold sed_raises in Hr.
  destruct (sed_version sed); try discriminate.
  - apply negb_true_iff in Hr. rewrite Hr. cbv [mbind logger raise].
    eexists. split; [reflexivity|].
    unfold same_files. cbn [tree written changes_made dry_run]. auto.
  - cbv [mbind logger raise]. eexists. split; [reflexivity|].
    unfold same_files. cbn [tree written changes_made dry_run]. auto.
Qed.

End SedFacts.
Import SedFacts.

Module ScriptFacts.

(** *** The sed script *)

Lemma replace_char_absent c r : forall s,
  forallb (fun x => negb (ascii_eqb x c)) s = true -> replace_char c r s = s.
Proof.
  induction s as [|x s IH]; intros H; [reflexivity|].
  cbn [forallb] in H. apply andb_true_iff in H. destruct H as [Hx Hs].
  unfold replace_char in *. cbn [flat_map].
  apply negb_true_iff in Hx. rewrite Hx, IH by auto. reflexivity.
Qed.

Lemma word_not_slash c : is_word c = true -> negb (ascii_eqb c slash) = true.
Proof. all_chars c. Qed.

Lemma word_not_amp c : is_word c = true -> negb (ascii_eqb c amp) = true.
Proof. all_chars c. Qed.

Lemma all_word_impl (q : ascii -> bool) (s : text) :
  (forall c, is_word c = true -> q c = true) ->
  forallb is_word s = true -> forallb q s = true.
Proof.
  intros H. induction s as [|c s IH]; cbn [forallb]; [reflexivity|].
  intros Hs. apply andb_true_iff in Hs. destruct Hs as [Hc Hs].
  rewrite H, IH by auto. reflexivity.
Qed.

Lemma sed_command_plain old new :
  forallb is_word old = true -> forallb is_word new = true ->
  sed_command old new
  = txt "s/\<CONFIG_" ++ old ++ txt "\>/CONFIG_" ++ new ++ txt "/g".
Proof.
  intros Ho Hn. unfold sed_command.
  rewrite !replace_char_absent.
  - change (txt "CONFIG_" ++ old) with ((txt "CONFIG_") ++ old).
    rewrite <- !app_assoc. reflexivity.
  - rewrite forallb_app. apply andb_true_iff. split; [reflexivity|].
    apply all_word_impl; [apply word_not_amp|exact Hn].
  - rewrite replace_char_absent.
    + rewrite forallb_app. apply andb_true_iff. split; [reflexivity|].
      apply all_word_impl; [apply word_not_slash|exact Hn].
    + rewrite forallb_app. apply andb_true_iff. split; [reflexivity|].
      apply all_word_impl; [apply word_not_amp|exact Hn].
  - rewrite forallb_app. apply andb_true_iff. split; [reflexivity|].
    apply all_word_impl; [apply word_not_slash|exact Ho].
Qed.

Lemma sed_command_nonempty old new : sed_command old new <> [].
Proof. unfold sed_command. discriminate. Qed.

Lemma join_lines_nil ls :
  Forall (fun l => l <> []) ls -> (join_lines ls = [] <-> ls = []).
Proof.
  intros H. split; [|intros ->; reflexivity].
  destruct ls as [|l ls]; [reflexivity|]. inversion H as [|x y Hl Hr]. subst.
  cbn [join_lines]. destruct ls.
  - intros E. congruence.
  - intros E. apply app_eq_nil in E. destruct E as [E _]. congruence.
Qed.

Lemma script_empty mappings :
  create_sed_script_for_source mappings = [] <-> mappings = [].
Proof.
  unfold create_sed_script_for_source. rewrite join_lines_nil.
  - split; [|intros ->; reflexivity]. destruct mappings; [reflexivity|discriminate].
  - apply Forall_map. apply Forall_forall. intros m _. apply sed_command_nonempty.
Qed.

Lemma script_plain mappings :
  forallb (fun m => forallb is_word (fst m) && forallb is_word (snd m)) mappings = true ->
  create_sed_script_for_source mappings
  = join_lines (map (fun m => txt "s/\<CONFIG_" ++ fst m ++ txt "\>/CONFIG_"
                                ++ snd m ++ txt "/g") mappings).
Proof.
  intros H. unfold create_sed_script_for_source. f_equal.
  apply map_ext_in. intros m Hm.
  rewrite forallb_forall in H. specialize (H m Hm).
  apply andb_true_iff in H. destruct H. apply sed_command_plain; auto.
Qed.

End ScriptFacts.
Import ScriptFacts.

Module MappingFile.

(** *** What [strip] leaves *)

Lemma drop_while_stops p : forall s, stops p (drop_while p s).
Proof.
  induction s as [|c s IH]; cbn [drop_while]; [exact Logic.I|].
  destruct (p c) eqn:E; [exact IH|exact E].
Qed.

Lemma drop_while_nil p : forall s, drop_while p s = [] -> forallb p s = true.
Proof.
  induction s as [|c s IH]; cbn [drop_while forallb]; [reflexivity|].
  destruct (p c); [exact IH|discriminate].
Qed.

Lemma strip_is_tight s : tight (strip s).
Proof.
  unfold tight, strip, rstrip, lstrip. split.
  - pose proof (drop_while_stops is_space s) as H.
    destruct (drop_while is_space s) as [|c y]; [exact Logic.I|].
    cbn [stops] in H. cbn [rev].
    destruct (drop_while_last is_space c (rev y) H) as (l & ->).
    rewrite rev_app_distr. exact H.
  - rewrite rev_involutive. apply drop_while_stops.
Qed.

Lemma strip_nil_spaces s : strip s = [] -> forallb is_space s = true.
Proof.
  unfold strip, rstrip, lstrip. intros H.
  apply (f_equal (@rev ascii)) in H. rewrite rev_involutive in H. cbn [rev] in H.
  apply drop_while_nil in H. rewrite forallb_rev in H.
  pose proof (drop_while_stops is_space s) as Hs.
  destruct (drop_while is_space s) as [|c y] eqn:E.
  - apply drop_while_nil. exact E.
  - cbn [stops] in Hs. cbn [forallb] in H. rewrite Hs in H. discriminate.
Qed.

Lemma split_once_parts sep : forall s a b,
  split_once sep s = [a; b] -> s = a ++ sep ++ b.
Proof.
  induction s as [|c s IH]; intros a b H.
  - destruct sep as [|x sep]; cbn in H.
    + injection H as <- <-. reflexivity.
    + discriminate.
  - rewrite split_once_cons in H. destruct (startswith sep (c :: s)) eqn:E.
    + injection H as <- <-. cbn [app]. apply startswith_prefix. exact E.
    + destruct (split_once sep s) as [|a' [|b' [|x r]]] eqn:Es; try discriminate.
      injection H as <- <-. cbn [app]. f_equal. apply IH. reflexivity.
Qed.

(** The test for an empty symbol never fires: [strip] has taken the
    blank of an arrow at either end of the line before the arrow is
    looked for. *)
Lemma mapping_line_never_empty line l : mapping_line line <> EmptySymbol l.
Proof.
  rewrite (mapping_line_stripped line _ eq_refl).
  pose proof (strip_is_tight line) as [Hl Hr].
  destruct (strip line) as [|a t] eqn:El; [discriminate|].
  destruct (startswith (txt "#") (a :: t)); [discriminate|].
  destruct (contains arrow (a :: t)) eqn:E; [|discriminate]. cbn [negb].
  destruct (split_once_two arrow _ E) as (o & n & Es). rewrite Es.
  apply split_once_parts in Es.
  destruct (strip o) eqn:Eo.
  - exfalso. apply strip_nil_spaces in Eo. rewrite Es in Hl.
    destruct o as [|c o]; cbn [app stops forallb] in *.
    + discriminate.
    + apply andb_true_iff in Eo. destruct Eo as [Eo _]. congruence.
  - destruct (strip n) eqn:En; [|discriminate].
    exfalso. apply strip_nil_spaces in En. rewrite Es in Hr.
    rewrite !rev_app_distr in Hr. rewrite <- forallb_rev in En.
    destruct (rev n) as [|c r]; cbn [app stops forallb] in *.
    + cbn in Hr. discriminate.
    + apply andb_true_iff in En. destruct En as [En _]. congruence.
Qed.

(** *** The loop over the lines *)

Lemma mapping_lines_dry sed root_dir : forall ls n st,
  dry_run st = true ->
  exists st', mapping_lines sed ls n root_dir st = (Ok tt, st') /\ same_files st st'.
Proof.
  induction ls as [|line ls IH]; intros n st Hd.
  - exists st. split; [reflexivity|apply same_files_refl].
  - cbn [mapping_lines]. destruct (mapping_line line) as [|l|l|o m|] eqn:E.
    + apply IH. exact Hd.
    + unfold mbind. log_step st.
      assert (Hd0 : dry_run st0 = true) by sf.
      destruct (IH (S n) st0 Hd0) as (st' & -> & Hs').
      exists st'. split; [reflexivity|sf].
    + exfalso. exact (mapping_line_never_empty _ _ E).
    + unfold mbind at 1. log_step st. unfold mbind.
      assert (Hd0 : dry_run st0 = true) by sf.
      destruct (rename_symbol_dry sed o m root_dir st0 Hd0) as (st1 & -> & Hs1).
      assert (Hd1 : dry_run st1 = true) by sf.
      destruct (IH (S n) st1 Hd1) as (st' & -> & Hs').
      exists st'. split; [reflexivity|sf].
    + exfalso. exact (mapping_line_unpacks _ E).
Qed.

Lemma rename_from_mapping_file_dry sed mapping_file root_dir st :
  dry_run st = true ->
  exists st', rename_from_mapping_file sed mapping_file root_dir st = (Ok tt, st')
              /\ same_files st st'.
Proof.
  intros Hd. unfold rename_from_mapping_file.
  destruct (read_file mapping_file st).
  - apply mapping_lines_dry. exact Hd.
  - log_step st. exists st0. split; [reflexivity|exact Hs].
Qed.

(** Lines that name no mapping leave the files alone, in any mode. *)
Lemma mapping_lines_idle sed root_dir : forall ls n st,
  (forall line o m, In line ls -> mapping_line line <> Mapping o m) ->
  exists st', mapping_lines sed ls n root_dir st = (Ok tt, st') /\ same_files st st'.
Proof.
  induction ls as [|line ls IH]; intros n st Hn.
  - exists st. split; [reflexivity|apply same_files_refl].
  - assert (Hn' : forall l o m, In l ls -> mapping_line l <> Mapping o m).
    { intros l o m Hl. apply Hn. right. exact Hl. }
    cbn [mapping_lines]. destruct (mapping_line line) as [|l|l|o m|] eqn:E.
    + apply IH. exact Hn'.
    + unfold mbind. log_step st.
      destruct (IH (S n) st0 Hn') as (st' & -> & Hs').
      exists st'. split; [reflexivity|sf].
    + exfalso. exact (mapping_line_never_empty _ _ E).
    + exfalso. exact (Hn line o m (or_introl eq_refl) E).
    + exfalso. exact (mapping_line_unpacks _ E).
Qed.

End MappingFile.
Import MappingFile.

Module Walk.

(** *** [find_files_to_process] *)

Lemma kconfig_files_found root_dir t path :
  In path (fst (find_files_to_process root_dir t)) <->
  exists e, In e t /\ below root_dir (e_dir e) = true /\
            is_kconfig (e_name e) = true /\ path = path_of e.
Proof.
  unfold find_files_to_process, os_walk. cbn [fst]. rewrite in_map_iff. split.
  - intros (e & <- & H). apply filter_In in H. destruct H as [H Hk].
    apply filter_In in H. destruct H as [Hi Hb]. exists e. auto.
  - intros (e & Hi & Hb & Hk & ->). exists e. split; [reflexivity|].
    apply filter_In. split; [|exact Hk]. apply filter_In. auto.
Qed.

Lemma source_files_found root_dir t path :
  In path (snd (find_files_to_process root_dir t)) <->
  exists e, In e t /\ below root_dir (e_dir e) = true /\
            is_kconfig (e_name e) = false /\ is_source (e_name e) = true /\
            path = path_of e.
Proof.
  unfold find_files_to_process, os_walk. cbn [snd]. rewrite in_map_iff. split.
  - intros (e & <- & H). apply filter_In in H. destruct H as [H Hk].
    apply filter_In in H. destruct H as [Hi Hb].
    apply andb_true_iff in Hk. destruct Hk as [Hk Hs]. apply negb_true_iff in Hk.
    exists e. auto.
  - intros (e & Hi & Hb & Hk & Hs & ->). exists e. split; [reflexivity|].
    apply filter_In. split; [|rewrite Hk, Hs; reflexivity]. apply filter_In. auto.
Qed.

Lemma path_of_injective t e1 e2 :
  NoDup (map path_of t) -> In e1 t -> In e2 t -> path_of e1 = path_of e2 -> e1 = e2.
Proof.
  induction t as [|e t IH]; intros Hn H1 H2 Hp; [destruct H1|].
  cbn [map] in Hn. inversion Hn as [|x l Hx Hl]. subst.
  destruct H1 as [<- | H1], H2 as [<- | H2]; auto.
  - exfalso. apply Hx. rewrite Hp. apply in_map. exact H2.
  - exfalso. apply Hx. rewrite <- Hp. apply in_map. exact H1.
Qed.

Lemma found_disjoint root_dir t path :
  NoDup (map path_of t) ->
  In path (fst (find_files_to_process root_dir t)) ->
  ~ In path (snd (find_files_to_process root_dir t)).
Proof.
  intros Hn Hk Hs. apply kconfig_files_found in Hk. apply source_files_found in Hs.
  destruct Hk as (e1 & Hi1 & _ & Hk1 & ->).
  destruct Hs as (e2 & Hi2 & _ & Hk2 & _ & Hp).
  rewrite (path_of_injective t e1 e2 Hn Hi1 Hi2 Hp) in Hk1. congruence.
Qed.

(** A name accepted by both tests is a Kconfig file. *)
Lemma kconfig_name_wins ext : is_kconfig (txt "Kconfig." ++ ext) = true.
Proof.
  unfold is_kconfig. apply orb_true_iff. right. apply startswith_app.
Qed.

(** *** [derive_mappings] on the set the discovery returns *)

Lemma dict_set_fresh k v : forall d,
  ~ In k (map fst d) -> dict_set k v d = d ++ [(k, v)].
Proof.
  induction d as [|[k' v'] d IH]; intros H; cbn [dict_set app]; [reflexivity|].
  cbn [map fst In] in H. destruct (text_eqb k' k) eqn:E.
  - apply text_eqb_eq in E. tauto.
  - rewrite IH by tauto. reflexivity.
Qed.

Lemma derive_fold old new : forall subs d,
  NoDup (map fst d ++ subs) ->
  (forall s, In s subs -> startswith old s = true) ->
  fold_left
    (fun mappings symbol =>
       if startswith old symbol
       then dict_set symbol (new ++ skipn (length old) symbol) mappings
       else mappings) subs d
  = d ++ map (fun s => (s, derived old new s)) subs.
Proof.
  induction subs as [|s subs IH]; intros d Hn Hs; cbn [fold_left map].
  - rewrite app_nil_r. reflexivity.
  - rewrite (Hs s) by (left; reflexivity).
    assert (Hfresh : ~ In s (map fst d)).
    { intros Hi. apply NoDup_remove_2 in Hn. apply Hn. apply in_or_app. auto. }
    rewrite dict_set_fresh by exact Hfresh.
    rewrite IH.
    + rewrite <- app_assoc. reflexivity.
    + rewrite map_app, <- app_assoc. cbn [map fst app]. exact Hn.
    + intros x Hx. apply Hs. right. exact Hx.
Qed.

Lemma derive_mappings_exact old new subs :
  NoDup subs -> (forall s, In s subs -> startswith old s = true) ->
  derive_mappings old new subs = map (fun s => (s, derived old new s)) subs.
Proof.
  intros Hn Hs. unfold derive_mappings. rewrite derive_fold; auto.
Qed.

Lemma derived_back old new s :
  startswith old s = true -> derived new old (derived old new s) = s.
Proof.
  intros H. unfold derived. rewrite skipn_length_app.
  symmetry. apply startswith_prefix. exact H.
Qed.

Lemma derived_injective old new s1 s2 :
  startswith old s1 = true -> startswith old s2 = true ->
  derived old new s1 = derived old new s2 -> s1 = s2.
Proof.
  intros H1 H2 E. rewrite <- (derived_back old new s1 H1), E.
  apply derived_back. exact H2.
Qed.

Lemma derive_mappings_inverse old new subs :
  NoDup subs -> (forall s, In s subs -> startswith old s = true) ->
  derive_mappings new old (map snd (derive_mappings old new subs))
  = map (fun m => (snd m, fst m)) (derive_mappings old new subs).
Proof.
  intros Hn Hs. rewrite (derive_mappings_exact old new subs Hn Hs).
  rewrite !map_map. cbn [fst snd].
  rewrite derive_mappings_exact.
  - rewrite map_map. apply map_ext_in. intros s Hi.
    rewrite derived_back by auto. reflexivity.
  - clear - Hn Hs. induction subs as [|s subs IH]; cbn [map]; [constructor|].
    inversion Hn as [|x l Hx Hl]. subst. constructor.
    + intros Hi. apply in_map_iff in Hi. destruct Hi as (s' & E & Hi').
      apply derived_injective in E; [congruence| |]; apply Hs; cbn [In]; auto.
    + apply IH; [exact Hl|]. intros x Hx'. apply Hs. right. exact Hx'.
  - intros x Hx. apply in_map_iff in Hx. destruct Hx as (s & <- & _).
    unfold derived. apply startswith_app.
Qed.

End Walk.
Import Walk.

Module Exact.

(** *** Groups of a match *)

Lemma denote_group_free fl r : forall prev pos w rest ci co,
  group_free r = true -> denote fl r prev pos w rest ci co -> co = ci.
Proof.
  induction r; intros prev pos w rest ci co Hg D; cbn [denote group_free] in *;
    try (destruct D as [_ ->]; reflexivity).
  - apply andb_true_iff in Hg. destruct Hg as [H1 H2].
    destruct D as (w1 & w2 & cm & -> & D1 & D2).
    apply IHr1 in D1; auto. apply IHr2 in D2; auto. congruence.
  - apply andb_true_iff in Hg. destruct Hg as [H1 H2].
    destruct D as [D | D]; eauto.
  - discriminate.
Qed.

Lemma around_shape fl B A old prev pos w rest ci co :
  denote fl (around B old A) prev pos w rest ci co ->
  exists g1 o g2 c1 c2,
    w = g1 ++ o ++ g2 /\
    denote fl B prev pos g1 (o ++ g2 ++ rest) ci c1 /\
    lit_eq (IGNORECASE fl) old o = true /\
    denote fl A (last_char prev (g1 ++ o)) (pos + length g1 + length o) g2 rest
           ((1, (pos, pos + length g1)) :: c1) c2 /\
    co = (2, (pos + length g1 + length o,
              pos + length g1 + length o + length g2)) :: c2.
Proof.
  intros D. cbn [seq around denote] in D.
  destruct D as (g1 & w2 & c1' & -> & (c1 & D1 & ->) & D).
  destruct D as (o & g2 & c2' & -> & [Ho ->] & (c2 & D2 & ->)).
  exists g1, o, g2, c1, c2.
  rewrite <- app_assoc in D1. rewrite last_char_app. repeat split; auto.
Qed.

(** The two groups of a match, once the captures are known. *)
Lemma groups_expand new g1 o g2 rest st :
  m_caps st = [(2, (length g1 + length o, length g1 + length o + length g2));
               (1, (0, length g1))] ->
  expand (TGroup 1 :: map TChar new ++ [TGroup 2]) (g1 ++ o ++ g2 ++ rest) st
  = g1 ++ new ++ g2.
Proof.
  intros Hc. rewrite expand_template. unfold group. rewrite Hc.
  cbn [cap_lookup Nat.eqb Nat.add Nat.sub skipn].
  rewrite Nat.sub_0_r, firstn_length_app. f_equal. f_equal.
  replace (length g1 + length o + length g2 - (length g1 + length o))
    with (length g2) by lia.
  rewrite <- length_app, (app_assoc g1 o), skipn_length_app.
  apply firstn_length_app.
Qed.

Lemma line_hits fl B A old :
  before_ok fl B -> after_line fl A ->
  group_free B = true -> group_free A = true -> is_symbol old = true ->
  replaces_word fl (seq [Bol; around B old A; Eol]) old.
Proof.
  intros HB HA GB GA Hs new adv prev s st Hm. apply match_at_sound in Hm.
  destruct Hm as (w & rest & -> & D & Hp & _ & _).
  apply line_shape in D.
  destruct D as (g1 & o & g2 & c1 & c2 & -> & Hb & D1 & Ho & D2 & He & Hc).
  pose proof (denote_group_free _ _ _ _ _ _ _ _ GB D1) as E1. subst c1.
  pose proof (denote_group_free _ _ _ _ _ _ _ _ GA D2) as E2. subst c2.
  pose proof (symbol_word_last o old _ (last_char prev g1) Hs Ho)
    as [Hlast (c & o' & Eo & Hcw)].
  exists g1, o, g2, rest. rewrite <- !app_assoc.
  split; [reflexivity|]. split; [rewrite Hp, !length_app; reflexivity|].
  split; [exact Ho|]. split; [|split].
  - eapply HB; [exact D1| |exact Hcw]. rewrite Eo. reflexivity.
  - eapply HA; [exact D2| |exact He]. rewrite last_char_app. exact Hlast.
  - apply groups_expand. exact Hc.
Qed.

Lemma free_hits fl B old :
  before_ok fl B -> group_free B = true -> is_symbol old = true ->
  replaces_word fl (around B old WordB) old.
Proof.
  intros HB GB Hs new adv prev s st Hm. apply match_at_sound in Hm.
  destruct Hm as (w & rest & -> & D & Hp & _ & _).
  apply around_shape in D.
  destruct D as (g1 & o & g2 & c1 & c2 & -> & D1 & Ho & D2 & Hc).
  pose proof (denote_group_free _ _ _ _ _ _ _ _ GB D1) as E1. subst c1.
  cbn [denote] in D2. destruct D2 as [[-> Hb] ->].
  pose proof (symbol_word_last o old _ (last_char prev g1) Hs Ho)
    as [Hlast (c & o' & Eo & Hcw)].
  exists g1, o, [], rest. rewrite <- !app_assoc.
  split; [reflexivity|]. split; [rewrite Hp, !length_app; reflexivity|].
  split; [exact Ho|]. split; [|split].
  - eapply HB; [exact D1| |exact Hcw]. rewrite Eo. reflexivity.
  - cbn [app]. unfold at_word_boundary in Hb. rewrite last_char_app, Hlast in Hb.
    destruct (word_opt (next_char rest)); [discriminate|reflexivity].
  - apply groups_expand. exact Hc.
Qed.

(** The hit lemma for each of the thirteen template rules. *)
Lemma rule1_hits old : is_symbol old = true -> replaces_word M (rule1 old) old.
Proof.
  intros Hs. apply line_hits; auto.
  - cbn [seq]. before_tac.
  - apply after_line_star_ws.
Qed.

Lemma keyword_line_hits k old :
  is_symbol old = true -> replaces_word M (keyword_line k old) old.
Proof.
  intros Hs. apply line_hits; auto.
  - cbn [seq]. before_tac.
  - apply after_line_star_ws.
Qed.

Lemma rule3_hits old : is_symbol old = true -> replaces_word M (rule3 old) old.
Proof.
  intros Hs. apply line_hits; auto.
  - cbn [seq]. before_tac.
  - apply after_line_star_ws.
Qed.

Lemma rule4_hits old : is_symbol old = true -> replaces_word I (rule4 old) old.
Proof. intros Hs. apply free_hits; auto. cbn [seq]. before_tac. Qed.

Lemma rule8b_hits old : is_symbol old = true -> replaces_word M (rule8b old) old.
Proof.
  intros Hs. apply line_hits; auto.
  - cbn [seq]. before_tac.
  - apply after_line_wordb.
Qed.

Lemma rule10_hits old : is_symbol old = true -> replaces_word I (rule10 old) old.
Proof. intros Hs. apply free_hits; auto. cbn [seq]. before_tac. Qed.

Lemma rule11a_hits old : is_symbol old = true -> replaces_word M (rule11a old) old.
Proof.
  intros Hs. apply line_hits; auto.
  - cbn [seq]. before_tac.
  - apply after_line_star_ws.
Qed.

Lemma rule11b_hits old : is_symbol old = true -> replaces_word M (rule11b old) old.
Proof.
  intros Hs. apply line_hits; auto.
  - cbn [seq]. before_tac.
  - cbn [seq]. apply after_line_plus_ws.
Qed.

Lemma rule12_hits old : is_symbol old = true -> replaces_word I (rule12 old) old.
Proof. intros Hs. apply free_hits; auto. cbn [seq]. before_tac. Qed.

(** *** From the scanning loop to the replaced words *)

Lemma replaced_keeps old new : forall w prev s s',
  replaced old new (last_char prev w) s s' -> replaced old new prev (w ++ s) (w ++ s').
Proof.
  induction w as [|c w IH]; intros prev s s' H; cbn [app last_char] in *; [exact H|].
  apply Same_char. apply IH. exact H.
Qed.

Lemma replaced_same old new : forall s prev, replaced old new prev s s.
Proof.
  intros s prev. rewrite <- (app_nil_r s). apply replaced_keeps. apply Same_end.
Qed.

Lemma scan_skip fl r : forall s prev n,
  n <= length s ->
  scan fl r prev s n = scan fl r (last_char prev (firstn n s)) (skipn n s) 0.
Proof.
  induction s as [|c s IH]; intros prev n Hn.
  - cbn [length] in Hn. replace n with 0 by lia. reflexivity.
  - destruct n as [|n]; [reflexivity|].
    cbn [scan firstn skipn last_char]. apply IH. cbn [length] in Hn. lia.
Qed.

Section Pieces.

Variables (fl : flags) (r : regex) (f : text -> mstate -> option text).
Variables (old new : text).

(** Every match is not empty, and what replaces it is the match with
    words replaced, whatever follows. *)
Hypothesis hits : forall adv prev s st w',
  match_at fl r adv prev s = Some st -> f s st = Some w' ->
  exists w rest,
    s = w ++ rest /\ m_pos st = length w /\ w <> [] /\
    forall out,
      replaced old new (last_char prev w) rest out ->
      replaced old new prev (w ++ rest) (w' ++ out).

Lemma join_replaced : forall n s prev out,
  length s <= n ->
  join_pieces f (scan fl r prev s 0) = Some out -> replaced old new prev s out.
Proof.
  induction n as [|n IH]; intros s prev out Hl H.
  - destruct s; [|cbn [length] in Hl; lia]. cbn [scan] in H.
    destruct (match_at fl r false prev []) as [st|] eqn:E.
    + cbn [join_pieces] in H. destruct (f [] st) as [w'|] eqn:Ef; [|discriminate].
      destruct (hits _ _ _ _ _ E Ef) as (w & rest & Es & _ & Hne & _).
      symmetry in Es. apply app_eq_nil in Es. tauto.
    + injection H as <-. apply Same_end.
  - destruct s as [|c s].
    { apply (IH [] prev out); [cbn; lia|exact H]. }
    cbn [scan] in H.
    destruct (match_at fl r false prev (c :: s)) as [st|] eqn:E.
    + destruct (m_pos st) as [|k] eqn:Ep.
      * exfalso. cbn [join_pieces] in H.
        destruct (f (c :: s) st) as [w'|] eqn:Ef; [|discriminate].
        destruct (hits _ _ _ _ _ E Ef) as (w & rest & Es & Hp & Hne & _).
        rewrite Ep in Hp. destruct w; [congruence|discriminate].
      * cbn [join_pieces] in H.
        destruct (f (c :: s) st) as [w'|] eqn:Ef; [|discriminate].
        destruct (join_pieces f (scan fl r (Some c) s k)) as [out2|] eqn:Ej;
          [|discriminate].
        injection H as <-.
        destruct (hits _ _ _ _ _ E Ef) as (w & rest & Es & Hp & Hne & Hlift).
        rewrite Es. apply Hlift.
        assert (Hk : S k = length w) by congruence.
        assert (Hlen : length (c :: s) = length w + length rest)
          by (rewrite Es, length_app; reflexivity).
        cbn [length] in Hlen, Hl.
        rewrite scan_skip in Ej by lia.
        assert (Hsk : skipn k s = rest).
        { change (skipn (S k) (c :: s) = rest). rewrite Hk, Es.
          apply skipn_length_app. }
        assert (Hfi : last_char (Some c) (firstn k s) = last_char prev w).
        { change (last_char prev (firstn (S k) (c :: s)) = last_char prev w).
          rewrite Hk, Es, firstn_length_app. reflexivity. }
        rewrite Hsk, Hfi in Ej.
        apply (IH rest _ out2); [lia|exact Ej].
    + cbn [join_pieces] in H.
      destruct (join_pieces f (scan fl r (Some c) s 0)) as [out2|] eqn:Ej;
        [|discriminate].
      injection H as <-. apply Same_char.
      apply (IH s _ out2); [cbn [length] in Hl; lia|exact Ej].
Qed.

End Pieces.

Lemma symbol_nonempty ic old o :
  is_symbol old = true -> lit_eq ic old o = true -> o <> [].
Proof.
  intros Hs Hl ->. apply lit_eq_length in Hl. destruct old; [discriminate|].
  discriminate.
Qed.

(** One template rule. *)
Lemma sub_rule_replaced fl R old new s out :
  replaces_word fl R old -> is_symbol old = true -> template_safe new = true ->
  sub_rule fl R new s = Some out -> replaced old new None s out.
Proof.
  intros HR Hs Hn H. unfold sub_rule, sub in H.
  rewrite parse_template_safe in H by auto. unfold finditer in H.
  eapply (join_replaced fl R _ old new); [|apply le_n|exact H].
  intros adv prev s0 st w' Hm Hf.
  assert (Hw : w' = expand (TGroup 1 :: map TChar new ++ [TGroup 2]) s0 st)
    by congruence.
  clear Hf. subst w'.
  destruct (HR new adv prev s0 st Hm) as (g1 & o & g2 & rest & -> & Hp & Ho & Hb & Ha & Hx).
  exists (g1 ++ o ++ g2), rest. rewrite <- !app_assoc.
  split; [reflexivity|]. split; [exact Hp|]. split.
  - intros E. apply app_eq_nil in E. destruct E as [_ E].
    apply app_eq_nil in E. destruct E as [E _].
    exact (symbol_nonempty _ _ _ Hs Ho E).
  - intros out2 Hr. rewrite Hx, <- !app_assoc.
    apply replaced_keeps. apply New_word.
    + eapply lit_eq_weaken. exact Ho.
    + exact Hb.
    + exact Ha.
    + apply replaced_keeps. rewrite <- !last_char_app.
      rewrite !last_char_app in Hr. rewrite !last_char_app. exact Hr.
Qed.

(** *** Step 6: the words of a captured span *)

Lemma expand_plain new s st : expand (map TChar new) s st = new.
Proof.
  unfold expand. induction new as [|c new IH]; cbn [map flat_map app]; [reflexivity|].
  f_equal. exact IH.
Qed.

Lemma whole_word_hits old adv prev s st :
  is_symbol old = true ->
  match_at no_flags (whole_word old) adv prev s = Some st ->
  exists rest,
    s = old ++ rest /\ m_pos st = length old /\
    word_opt prev = false /\ word_opt (next_char rest) = false.
Proof.
  intros Hs Hm. apply match_at_sound in Hm.
  destruct Hm as (w & rest & -> & D & Hp & _ & _).
  unfold whole_word in D. cbn [seq denote] in D.
  destruct D as (e1 & w3 & c1 & -> & ((-> & Hb1) & _) & D).
  destruct D as (o & e2 & c2 & -> & (Hl & _) & ((-> & Hb2) & _)).
  change (IGNORECASE no_flags) with false in Hl. apply lit_eq_exact in Hl. subst o.
  cbn [app last_char] in *. rewrite app_nil_r in *.
  pose proof (symbol_word_last old old false prev Hs (lit_eq_refl _ _))
    as [Hlast (c & o' & Eo & Hc)].
  exists rest. split; [reflexivity|]. split; [exact Hp|]. split.
  - unfold at_word_boundary in Hb1. rewrite Eo in Hb1. cbn [app next_char word_opt] in Hb1.
    rewrite Hc in Hb1. destruct (word_opt prev); [discriminate|reflexivity].
  - unfold at_word_boundary in Hb2. rewrite Hlast in Hb2.
    destruct (word_opt (next_char rest)); [discriminate|reflexivity].
Qed.

Lemma whole_word_replaced old new s out :
  is_symbol old = true -> template_safe new = true ->
  replace_multiline_depends old new s = Some out -> replaced old new None s out.
Proof.
  intros Hs Hn H. unfold replace_multiline_depends, sub in H.
  rewrite parse_template_plain in H by (apply template_safe_plain; exact Hn).
  unfold finditer in H.
  eapply (join_replaced no_flags (whole_word old) _ old new); [|apply le_n|exact H].
  intros adv prev s0 st w' Hm Hf.
  assert (Hw : w' = expand (map TChar new) s0 st) by congruence.
  clear Hf. subst w'. rewrite expand_plain.
  destruct (whole_word_hits old adv prev s0 st Hs Hm) as (rest & -> & Hp & Hb & Ha).
  exists old, rest. split; [reflexivity|]. split; [exact Hp|]. split.
  - destruct old; [discriminate|discriminate].
  - intros out2 Hr. apply New_word; auto. apply lit_eq_refl.
Qed.

(** A replacement inside a text is one in the text followed by more. *)
Lemma replaced_app old new : forall span w' p,
  replaced old new p span w' ->
  forall rest out, word_opt (next_char rest) = false ->
  replaced old new (last_char p span) rest out ->
  replaced old new p (span ++ rest) (w' ++ out).
Proof.
  intros span w' p H. induction H as [p | p c s s' H IH | p o s s' Ho Hb Ha H IH];
    intros rest out Hn Hr.
  - exact Hr.
  - cbn [app]. apply Same_char. apply IH; auto.
  - rewrite <- !app_assoc. apply New_word; auto.
    + destruct s; [exact Hn|exact Ha].
    + apply IH; auto. rewrite <- last_char_app. exact Hr.
Qed.

Lemma lower_eq_join a b x :
  char_eq true a x = true -> char_eq true b x = true -> char_eq true b a = true.
Proof.
  unfold char_eq. intros H1 H2. apply ascii_eqb_eq in H1. apply ascii_eqb_eq in H2.
  apply ascii_eqb_eq. congruence.
Qed.

Lemma lit_eq_join : forall a b x,
  lit_eq true a x = true -> lit_eq true b x = true -> lit_eq true b a = true.
Proof.
  induction a as [|ca a IH]; intros [|cb b] [|cx x] H1 H2; cbn [lit_eq] in *;
    try discriminate; auto.
  apply andb_true_iff in H1. apply andb_true_iff in H2. apply andb_true_iff.
  destruct H1, H2. split; [eapply lower_eq_join; eauto|eapply IH; eauto].
Qed.

(** The symbol cannot open a span: the span opens with the keyword. *)
Lemma no_word_at_span_start old o s d c tl :
  is_symbol old = true -> lit_eq true (txt "depends") old = false ->
  lit_eq true old o = true -> word_opt (next_char s) = false ->
  lit_eq true (txt "depends") d = true -> is_space c = true ->
  o ++ s = d ++ c :: tl -> False.
Proof.
  intros Hs Hd Ho Hn Hk Hc E.
  assert (How : forallb is_word o = true).
  { eapply lit_eq_word; [exact Ho|]. destruct old; [discriminate|exact Hs]. }
  assert (Hdw : forallb is_word d = true).
  { eapply lit_eq_word; [exact Hk|reflexivity]. }
  assert (Hsame : o = d -> False).
  { intros ->. rewrite (lit_eq_join old (txt "depends") d Ho Hk) in Hd. discriminate. }
  apply app_eq_app in E. destruct E as (l & [[E1 E2] | [E1 E2]]).
  - destruct l as [|x l]; [rewrite app_nil_r in E1; auto|].
    cbn [app] in E2. injection E2 as <- _. subst o.
    apply all_app in How. destruct How as [_ How]. cbn [forallb] in How.
    apply andb_true_iff in How. destruct How as [How _].
    rewrite (space_not_word _ Hc) in How. discriminate.
  - destruct l as [|x l]; [rewrite app_nil_r in E1; auto|].
    subst s d. apply all_app in Hdw. destruct Hdw as [_ Hdw]. cbn [forallb] in Hdw.
    apply andb_true_iff in Hdw. destruct Hdw as [Hx _].
    cbn [app next_char word_opt] in Hn. congruence.
Qed.

Lemma replaced_in_span old new d c tl w' prev :
  is_symbol old = true -> lit_eq true (txt "depends") old = false ->
  lit_eq true (txt "depends") d = true -> is_space c = true ->
  replaced old new None (d ++ c :: tl) w' ->
  replaced old new prev (d ++ c :: tl) w'.
Proof.
  intros Hs Hd Hk Hc H. inversion H as [p E | p c0 s0 s0' H1 E | p o s s' Ho Hb Ha H1 E].
  - exfalso. destruct d; discriminate.
  - apply Same_char. exact H1.
  - exfalso. eapply no_word_at_span_start; eauto.
Qed.

Lemma rule6_replaced old new s out :
  is_symbol old = true -> lit_eq true (txt "depends") old = false ->
  template_safe new = true ->
  rule6 old new s = Some out -> replaced old new None s out.
Proof.
  intros Hs Hd Hn H. unfold rule6, sub_fn, finditer in H.
  eapply (join_replaced MSI multiline_depends_pattern _ old new);
    [|apply le_n|exact H].
  intros adv prev s0 st w' Hm Hf. cbv beta in Hf.
  apply match_at_sound in Hm. destruct Hm as (w & rest & -> & D & Hp & _ & _).
  assert (Hg : group0 (w ++ rest) st = w).
  { unfold group0. rewrite Hp, firstn_length_app. reflexivity. }
  rewrite Hg in Hf.
  apply depends_shape in D. destruct D as (d & c & tl & -> & Hk & Hc & Hnl).
  exists (d ++ c :: tl), rest. split; [reflexivity|]. split; [exact Hp|]. split.
  - intros E. apply app_eq_nil in E. destruct E as [_ E]. discriminate.
  - intros out2 Hr. apply replaced_app; [| |exact Hr].
    + apply replaced_in_span; auto. apply whole_word_replaced; auto.
    + rewrite Hnl. reflexivity.
Qed.

(** *** The twelve steps and the loop over the mappings *)

Lemma passes_app old new s1 s2 s3 :
  passes old new s1 s2 -> passes old new s2 s3 -> passes old new s1 s3.
Proof.
  intros H. induction H as [s | s sa sb H1 H2 IH]; intros H3; [exact H3|].
  eapply One_more; [exact H1|]. apply IH. exact H3.
Qed.

Lemma rename_one_passes old new s out :
  renamable (old, new) = true ->
  rename_one old new s = Some out -> passes old new s out.
Proof.
  intros Hr. unfold renamable in Hr. cbn [fst snd] in Hr.
  apply andb_true_iff in Hr. destruct Hr as [Hr Hn].
  apply andb_true_iff in Hr. destruct Hr as [Hs Hd]. apply negb_true_iff in Hd.
  unfold rename_one, rule2, rule5, rule7, rule8a, rule9. intros H.
  repeat match type of H with
  | bind (rule6 ?o ?n ?c) _ = Some _ =>
      let x := fresh "t" in let E := fresh "E" in
      destruct (rule6 o n c) as [x|] eqn:E; [|discriminate H];
      cbn [bind] in H; apply rule6_replaced in E; auto
  | bind (sub_rule ?fl ?r ?n ?c) _ = Some _ =>
      let x := fresh "t" in let E := fresh "E" in
      destruct (sub_rule fl r n c) as [x|] eqn:E; [|discriminate H];
      cbn [bind] in H;
      apply (sub_rule_replaced fl r old new) in E;
      auto using rule1_hits, keyword_line_hits, rule3_hits, rule4_hits, rule8b_hits,
        rule10_hits, rule11a_hits, rule11b_hits, rule12_hits
  end.
  apply (sub_rule_replaced I (rule12 old) old new) in H; auto using rule12_hits.
  repeat (eapply One_more; [eassumption|]). apply No_pass.
Qed.

Lemma rename_all_mapped : forall mappings s out,
  forallb renamable mappings = true ->
  rename_all mappings s = Some out -> mapped mappings s out.
Proof.
  induction mappings as [|[old new] ms IH]; intros s out Hr H; cbn [rename_all mapped] in *.
  - congruence.
  - cbn [forallb] in Hr. apply andb_true_iff in Hr. destruct Hr as [Hr Hm].
    destruct (rename_one old new s) as [s1|] eqn:E; [|discriminate].
    cbn [bind] in H. exists s1. split; [apply rename_one_passes; auto|auto].
Qed.

End Exact.
Import Exact.

Module Returns.

(** *** [rename_symbol] with a new symbol that is literal in the template *)

Lemma defined_in_tail symbol content sym :
  In sym (defined_in symbol content) ->
  exists tail, sym = symbol ++ tail /\ forallb is_word tail = true.
Proof.
  intros H. apply defined_in_sound in H.
  destruct H as (pre & w & rest & _ & (w0 & k & w1 & tl & w2 & H)).
  exists tl. split; [tauto|].
  destruct H as (_ & _ & _ & _ & _ & _ & _ & Ht & _).
  apply forallb_forall. intros c Hc. apply sym_char_word.
  rewrite forallb_forall in Ht. auto.
Qed.

Lemma word_not_backslash c : is_word c = true -> ascii_eqb c backslash = false.
Proof.
  intros H. destruct (ascii_eqb c backslash) eqn:E; [|reflexivity].
  apply ascii_eqb_eq in E. subst c. vm_compute in H. discriminate.
Qed.

Lemma derived_safe old new tail :
  new <> [] -> template_safe new = true -> forallb is_word tail = true ->
  template_safe (new ++ skipn (length old) (old ++ tail)) = true.
Proof.
  intros Hne Hn Ht. rewrite skipn_length_app. unfold template_safe in *.
  apply andb_true_iff in Hn. destruct Hn as [H1 H2]. apply andb_true_iff. split.
  - rewrite forallb_app, H1. cbn [andb]. apply forallb_forall. intros c Hc.
    rewrite forallb_forall in Ht. rewrite word_not_backslash; auto.
  - destruct new as [|c new]; [congruence|exact H2].
Qed.

Lemma derive_mappings_safe old new subs :
  new <> [] -> template_safe new = true ->
  (forall s, In s subs -> exists tail, s = old ++ tail /\ forallb is_word tail = true) ->
  safe_mappings (derive_mappings old new subs) = true.
Proof.
  intros Hne Hn Hs. unfold safe_mappings. apply forallb_forall. apply Forall_forall.
  unfold derive_mappings.
  assert (H : Forall (fun m : text * text => template_safe (snd m) = true) [])
    by constructor.
  revert H. generalize (@nil (text * text)).
  induction subs as [|s subs IH]; intros d Hd; cbn [fold_left]; [exact Hd|].
  apply IH; [intros x Hx; apply Hs; right; exact Hx|].
  destruct (startswith old s); [|exact Hd].
  apply (dict_set_values (fun v => template_safe v = true)); [|exact Hd].
  destruct (Hs s (or_introl eq_refl)) as (tail & -> & Ht).
  apply derived_safe; auto.
Qed.

Lemma count_renamed_returns mappings :
  safe_mappings mappings = true ->
  forall files k st, dry_run st = false ->
  exists n st', count_renamed files mappings k st = (Ok n, st') /\ dry_run st' = false.
Proof.
  intros Hs. induction files as [|f files IH]; intros k st Hd; cbn [count_renamed].
  - exists k, st. auto.
  - destruct (rename_in_kconfig_file_returns f mappings st Hs) as (b & st1 & E).
    destruct (rename_in_kconfig_file_effect _ _ _ _ _ Hd E) as (Hd1 & _).
    destruct (IH (if b then k + 1 else k) st1 Hd1) as (n & st' & E' & Hd').
    exists n, st'. unfold mbind. rewrite E. auto.
Qed.

Lemma process_kconfig_returns files mappings st :
  safe_mappings mappings = true -> dry_run st = false ->
  exists n st',
    process_kconfig_files_with_python files mappings st = (Ok n, st') /\
    dry_run st' = false.
Proof.
  intros Hs Hd. unfold process_kconfig_files_with_python.
  destruct files as [|f files]; [exists 0, st; auto|].
  rewrite Hd. unfold mbind at 1. log_step st. unfold mbind at 1.
  assert (Hd0 : dry_run st0 = false) by (destruct Hs0 as (_&_&_&->); exact Hd).
  destruct (count_renamed_returns mappings Hs (f :: files) 0 st0 Hd0)
    as (n & st1 & -> & Hd1).
  unfold mbind at 1. log_step st1. cbv [ret].
  exists n, st2. split; [reflexivity|]. destruct Hs1 as (_&_&_&->). exact Hd1.
Qed.

Lemma rename_symbol_real sed old new root_dir st :
  new <> [] -> template_safe new = true -> dry_run st = false ->
  sed_raises sed = false ->
  exists st', rename_symbol sed old new root_dir st = (Ok tt, st') /\
              dry_run st' = false.
Proof.
  intros Hne Hn Hd Hr.
  unfold rename_symbol. unfold mbind at 1. log_step st.
  unfold mbind at 1. log_step st0. unfold mbind at 1.
  destruct (find_all_subsymbols_exact old root_dir st1)
    as (subs & st2 & -> & Hs2 & Hin & _ & _).
  assert (Hsafe : safe_mappings (derive_mappings old new subs) = true).
  { apply derive_mappings_safe; auto. intros s Hi. apply Hin in Hi.
    destruct Hi as (f & content & _ & _ & Hi). eapply defined_in_tail. exact Hi. }
  destruct (derive_mappings old new subs) as [|m ms].
  { log_step st2. exists st3. split; [reflexivity|].
    assert (same_files st st3) by sf. destruct H as (_&_&_&->). exact Hd. }
  unfold mbind at 1. log_step st2. unfold mbind at 1.
  destruct (log_mappings_same (m :: ms) st3) as (st4 & -> & Hs4).
  destruct (find_files_to_process root_dir (tree st4)) as [kfiles sfiles].
  unfold mbind at 1. log_step st4. unfold mbind at 1.
  assert (Hd5 : dry_run st5 = false).
  { assert (same_files st st5) by sf. destruct H as (_&_&_&->). exact Hd. }
  destruct (process_kconfig_returns kfiles (m :: ms) st5 Hsafe Hd5)
    as (n & st6 & -> & Hd6).
  unfold mbind at 1.
  destruct (process_sed_real sed sfiles (create_sed_script_for_source (m :: ms))
              (txt "source") false st6 Hd6 Hr) as (k & st7 & -> & _ & _ & Hd7 & _).
  log_step st7. exists st8. split; [reflexivity|].
  match goal with H : same_files st7 st8 |- _ => destruct H as (_&_&_&->) end.
  exact Hd7.
Qed.

Lemma rename_symbol_total sed old new root_dir st :
  new <> [] -> template_safe new = true ->
  dry_run st = true \/ sed_raises sed = false ->
  exists st', rename_symbol sed old new root_dir st = (Ok tt, st') /\
              dry_run st' = dry_run st.
Proof.
  intros Hne Hn Hm. destruct (dry_run st) eqn:Hd.
  - destruct (rename_symbol_dry sed old new root_dir st Hd) as (st' & E & Hs).
    exists st'. split; [exact E|]. destruct Hs as (_&_&_&->). exact Hd.
  - destruct Hm as [Hm | Hm]; [discriminate|].
    apply rename_symbol_real; auto.
Qed.

(** An exception of the environment of [sed] leaves [rename_symbol] once
    mappings and source files are found; the Kconfig files have been
    rewritten by then. *)
Lemma rename_symbol_sed_raises sed old new root_dir st :
  new <> [] -> template_safe new = true -> dry_run st = false ->
  sed_raises sed = true ->
  (exists f content,
     In f (kconfig_paths root_dir (tree st)) /\ read_file f st = Some content /\
     defined_in old content <> []) ->
  snd (find_files_to_process root_dir (tree st)) <> [] ->
  exists st', rename_symbol sed old new root_dir st = (Raise, st').
Proof.
  intros Hne Hn Hd Hr (f & content & Hf & Hrd & Hdef) Hsrc.
  unfold rename_symbol. unfold mbind at 1. log_step st.
  unfold mbind at 1. log_step st0. unfold mbind at 1.
  destruct (find_all_subsymbols_exact old root_dir st1)
    as (subs & st2 & -> & Hs2 & Hin & _ & _).
  assert (H1 : same_files st st1) by sf.
  assert (Hsafe : safe_mappings (derive_mappings old new subs) = true).
  { apply derive_mappings_safe; auto. intros s Hi. apply Hin in Hi.
    destruct Hi as (f' & content' & _ & _ & Hi). eapply defined_in_tail. exact Hi. }
  destruct (defined_in old content) as [|sym syms] eqn:Edef; [congruence|].
  assert (Hsym : In sym subs).
  { apply Hin. exists f, content. destruct H1 as (Ht & _). rewrite Ht.
    rewrite (read_file_same f st st1) by sf. rewrite Edef. cbn [In]. auto. }
  assert (Hpre : startswith old sym = true).
  { destruct (defined_in_prefix old content sym) as (tl & ->).
    - rewrite Edef. left. reflexivity.
    - apply startswith_app. }
  pose proof (derive_mappings_nonempty old new subs sym Hsym Hpre) as Hnem.
  destruct (derive_mappings old new subs) as [|m ms] eqn:Em; [congruence|].
  unfold mbind at 1. log_step st2. unfold mbind at 1.
  destruct (log_mappings_same (m :: ms) st3) as (st4 & -> & Hs4).
  assert (H4 : same_files st st4) by sf.
  assert (Hk : find_files_to_process root_dir (tree st4)
               = find_files_to_process root_dir (tree st)).
  { destruct H4 as (-> & _). reflexivity. }
  rewrite Hk.
  destruct (find_files_to_process root_dir (tree st)) as [kfiles sfiles].
  cbn [snd] in Hsrc.
  unfold mbind at 1. log_step st4. unfold mbind at 1.
  assert (Hd5 : dry_run st5 = false).
  { assert (same_files st st5) by sf. destruct H as (_&_&_&->). exact Hd. }
  destruct (process_kconfig_returns kfiles (m :: ms) st5 Hsafe Hd5)
    as (n & st6 & -> & Hd6).
  unfold mbind at 1.
  destruct (process_sed_raises sed sfiles (create_sed_script_for_source (m :: ms))
              (txt "source") false st6 Hr Hd6 Hsrc) as (st7 & -> & _).
  { intros E. apply script_empty in E. discriminate. }
  eauto.
Qed.

(** *** The loop over the lines of a mapping file *)

Lemma mapping_lines_returns sed root_dir : forall ls n st,
  dry_run st = true \/ sed_raises sed = false ->
  (forall line o m, In line ls -> mapping_line line = Mapping o m ->
                    template_safe m = true) ->
  exists st', mapping_lines sed ls n root_dir st = (Ok tt, st').
Proof.
  induction ls as [|line ls IH]; intros n st Hm Hn.
  - exists st. reflexivity.
  - assert (Hn' : forall l o m, In l ls -> mapping_line l = Mapping o m ->
                                template_safe m = true).
    { intros l o m Hl. apply Hn. right. exact Hl. }
    cbn [mapping_lines]. destruct (mapping_line line) as [|l|l|o m|] eqn:E.
    + apply IH; auto.
    + unfold mbind. log_step st. apply IH; [|exact Hn'].
      destruct Hm as [Hm | Hm]; [left|right; exact Hm].
      destruct Hs as (_&_&_&->). exact Hm.
    + exfalso. exact (mapping_line_never_empty _ _ E).
    + unfold mbind at 1. log_step st. unfold mbind.
      assert (Hm0 : dry_run st0 = true \/ sed_raises sed = false).
      { destruct Hm as [Hm | Hm]; [left|right; exact Hm].
        destruct Hs as (_&_&_&->). exact Hm. }
      destruct (rename_symbol_total sed o m root_dir st0) as (st1 & -> & Hd1); auto.
      * apply (mapping_line_nonempty line o m E).
      * apply (Hn line o m (or_introl eq_refl) E).
      * apply IH; [|exact Hn'].
        destruct Hm0 as [Hm0 | Hm0]; [left; congruence|right; exact Hm0].
    + exfalso. exact (mapping_line_unpacks _ E).
Qed.

Lemma rename_from_mapping_file_returns sed mapping_file root_dir st :
  dry_run st = true \/ sed_raises sed = false ->
  (forall content line o m,
     read_file mapping_file st = Some content -> In line (readlines content) ->
     mapping_line line = Mapping o m -> template_safe m = true) ->
  exists st', rename_from_mapping_file sed mapping_file root_dir st = (Ok tt, st').
Proof.
  intros Hm H. unfold rename_from_mapping_file.
  destruct (read_file mapping_file st) as [content|] eqn:E.
  - apply mapping_lines_returns; [exact Hm|]. intros line o m. apply H. reflexivity.
  - log_step st. eauto.
Qed.

End Returns.
Import Returns.

Module Mangled.

(** *** A new symbol that starts with two octal digits

    The template is [\1] followed by the new symbol: with two octal
    digits in front, the three digits are one octal escape and the group
    is gone. *)

Lemma octdigit_digit c : is_octdigit c = true -> is_digit c = true.
Proof. all_chars c. Qed.

Lemma octdigit_val c : is_octdigit c = true -> digit_val c <= 7.
Proof.
  intros H. destruct (digit_val c <=? 7) eqn:E; [apply Nat.leb_le; exact E|].
  exfalso. revert H E. all_chars c.
Qed.

Lemma parse_template_octal d1 d2 new :
  is_octdigit d1 = true -> is_octdigit d2 = true ->
  forallb (fun c => negb (ascii_eqb c backslash)) new = true ->
  parse_template 2 (template (d1 :: d2 :: new))
  = Some (TChar (octal_escape d1 d2) :: map TChar new ++ [TGroup 2]).
Proof.
  intros H1 H2 Hn. unfold parse_template, template.
  change (tparse 2 TNormal
            ([backslash; ascii_of_nat 49] ++ (d1 :: d2 :: new)
             ++ [backslash; ascii_of_nat 50]))
    with (tparse 2 (TDigit 1) (d1 :: d2 :: new ++ [backslash; ascii_of_nat 50])).
  pose proof (octdigit_val d1 H1) as V1. pose proof (octdigit_val d2 H2) as V2.
  cbn [tparse]. rewrite (octdigit_digit d1 H1). cbn [tparse].
  rewrite H2. replace (digit_val d1 <=? 7) with true by (symmetry; apply Nat.leb_le; exact V1).
  cbn [Nat.leb andb].
  replace (64 * 1 + 8 * digit_val d1 + digit_val d2 <=? 255) with true
    by (symmetry; apply Nat.leb_le; lia).
  rewrite tparse_plain by exact Hn.
  unfold octal_escape. reflexivity.
Qed.

Lemma expand_octal c new s st :
  expand (TChar c :: map TChar new ++ [TGroup 2]) s st = c :: new ++ group 2 s st.
Proof.
  unfold expand. cbn [flat_map app]. f_equal. rewrite flat_map_app. f_equal.
  - induction new as [|x new IH]; cbn [map flat_map app]; [reflexivity|].
    f_equal. exact IH.
  - cbn [flat_map]. apply app_nil_r.
Qed.

(** *** The parts of a match of step 1 *)

Lemma rule1_hit_parts old adv prev s st :
  match_at M (rule1 old) adv prev s = Some st ->
  exists g1 g2 rest,
    s = g1 ++ old ++ g2 ++ rest /\
    m_pos st = length (g1 ++ old ++ g2) /\
    (at_bol M prev = true /\
     exists s0 kwd s1,
       g1 = s0 ++ kwd ++ s1 /\ forallb is_space s0 = true /\
       (kwd = txt "config" \/ kwd = txt "menuconfig") /\
       s1 <> [] /\ forallb is_space s1 = true) /\
    word_opt (last_char prev g1) = false /\
    word_opt (next_char (g2 ++ rest)) = false /\
    group 2 s st = g2.
Proof.
  intros Hm. apply match_at_sound in Hm.
  destruct Hm as (w & rest & -> & D & Hp & _ & _).
  unfold rule1 in D. apply line_shape in D.
  destruct D as (g1 & o & g2 & c1 & c2 & -> & Hb & D1 & Ho & D2 & He & Hc).
  change (IGNORECASE M) with false in Ho. apply lit_eq_exact in Ho. subst o.
  pose proof D1 as D1'. apply definition_prefix in D1'. destruct D1' as [-> Hg1].
  cbn [denote] in D2. destruct D2 as [Hg2 ->].
  exists g1, g2, rest. rewrite <- !app_assoc.
  split; [reflexivity|]. split; [exact Hp|]. split; [|split; [exact Hg1|split]].
  - split; [exact Hb|].
    cbn [seq denote] in D1. unfold Plus in D1. cbn [denote] in D1.
    destruct D1 as (s0 & w' & cm & -> & [Hs0 ->] & k & s1 & cm' & -> & Hk & D).
    destruct D as (x & y & cmm & -> & [(c & -> & Hcs) ->] & [Hy _]).
    exists s0, k, ([c] ++ y). split; [reflexivity|]. split; [exact Hs0|]. split.
    + unfold kw in Hk. cbn [denote] in Hk. change (IGNORECASE M) with false in Hk.
      destruct Hk as [[Hk _] | [Hk _]]; apply lit_eq_exact in Hk; auto.
    + split; [discriminate|]. cbn [app forallb].
      unfold ws in Hcs, Hy. rewrite Hcs, Hy. reflexivity.
  - eapply eol_not_word; eauto.
  - unfold group. rewrite Hc. cbn [cap_lookup Nat.eqb Nat.add].
    replace (length g1 + length old + length g2 - (length g1 + length old))
      with (length g2) by lia.
    rewrite <- length_app, (app_assoc g1 old), skipn_length_app.
    apply firstn_length_app.
Qed.

(** *** The scanning loop when the replacement drops the first group *)

Section Dropped.

Variables (fl : flags) (r : regex) (f : text -> mstate -> option text).
Variables (a old out b : text).
Variable Q : option ascii -> text -> Prop.

Hypothesis old_nonempty : old <> [].

Hypothesis all_hits : forall p s adv st,
  a ++ old ++ b = p ++ s ->
  match_at fl r adv (last_char None p) s = Some st ->
  exists g1 g2 rest,
    s = g1 ++ old ++ g2 ++ rest /\ p ++ g1 = a /\
    m_pos st = length (g1 ++ old ++ g2) /\
    f s st = Some (out ++ g2) /\ Q (last_char None p) g1.

Lemma scan_after_drop p c s' st n :
  a ++ old ++ b = p ++ c :: s' ->
  match_at fl r false (last_char None p) (c :: s') = Some st ->
  m_pos st = S n ->
  join_pieces f (scan fl r (Some c) s' n) = Some (skipn n s').
Proof.
  intros HT Hm Hp. apply join_identity. intros s2 st2 Hin. exfalso.
  apply scan_hit_from in Hin. destruct Hin as (pre & adv & -> & Hle & Hm2).
  destruct (all_hits p _ _ _ HT Hm) as (g1 & g2 & rest & E & Ha & Hl & _).
  destruct (all_hits (p ++ c :: pre) s2 adv st2) as (h1 & h2 & rest2 & _ & Ha2 & _).
  { rewrite <- app_assoc. exact HT. }
  { rewrite last_char_app. exact Hm2. }
  rewrite <- Ha in Ha2. rewrite <- app_assoc in Ha2. apply app_inv_head in Ha2.
  apply (f_equal (@length ascii)) in Ha2.
  rewrite Hp in Hl. rewrite !length_app in Hl. cbn [app length] in Ha2.
  rewrite length_app in Ha2.
  destruct old; [congruence|]. cbn [length] in Hl. lia.
Qed.

(** The first match is the one over the occurrence; what stood before
    the match is kept, the match is replaced by [out] and its second
    group. *)
Lemma scan_drops : forall s p x0 s0 st0,
  a ++ old ++ b = p ++ s -> s = x0 ++ s0 ->
  match_at fl r false (last_char None (p ++ x0)) s0 = Some st0 ->
  exists x g1,
    (p ++ x) ++ g1 = a /\ length x <= length x0 /\
    Q (last_char None (p ++ x)) g1 /\
    join_pieces f (scan fl r (last_char None p) s 0) = Some (x ++ out ++ b).
Proof.
  induction s as [|c s' IH]; intros p x0 s0 st0 HT Hs Hm.
  - exfalso. symmetry in Hs. apply app_eq_nil in Hs. destruct Hs as [-> ->].
    rewrite app_nil_r in Hm.
    destruct (all_hits p [] false st0 HT Hm) as (g1 & g2 & rest & E & _).
    symmetry in E. apply app_eq_nil in E. destruct E as [_ E].
    apply app_eq_nil in E. tauto.
  - cbn [scan].
    destruct (match_at fl r false (last_char None p) (c :: s')) as [st|] eqn:E.
    + destruct (all_hits p _ _ _ HT E) as (g1 & g2 & rest & Es & Hg & Hl & Hf & HQ).
      exists [], g1. rewrite app_nil_r.
      split; [exact Hg|]. split; [cbn [length]; lia|]. split; [exact HQ|].
      assert (Hb : b = g2 ++ rest).
      { rewrite <- Hg, Es, <- !app_assoc in HT.
        apply app_inv_head in HT. apply app_inv_head in HT.
        apply app_inv_head in HT. exact HT. }
      destruct (m_pos st) as [|n] eqn:Ep.
      { rewrite !length_app in Hl. destruct old; [congruence|].
        cbn [length] in Hl. lia. }
      cbn [join_pieces]. rewrite Hf.
      rewrite (scan_after_drop p c s' st n HT E Ep).
      assert (Hk : skipn (S n) (c :: s') = rest).
      { rewrite Hl, Es.
        replace (g1 ++ old ++ g2 ++ rest) with ((g1 ++ old ++ g2) ++ rest)
          by (rewrite <- !app_assoc; reflexivity).
        apply skipn_length_app. }
      cbn [skipn] in Hk. rewrite Hk, Hb, <- !app_assoc. reflexivity.
    + destruct x0 as [|c' x0].
      { cbn [app] in Hs. subst s0. rewrite app_nil_r in Hm. congruence. }
      cbn [app] in Hs. injection Hs as <- ->.
      cbn [join_pieces].
      replace (Some c) with (last_char None (p ++ [c]))
        by (rewrite last_char_app; reflexivity).
      destruct (IH (p ++ [c]) x0 s0 st0) as (x & g1 & Hg & Hle & HQ & Hj).
      * rewrite <- app_assoc. exact HT.
      * reflexivity.
      * rewrite <- app_assoc. exact Hm.
      * assert (Ep : (p ++ [c]) ++ x = p ++ c :: x)
          by (rewrite <- app_assoc; reflexivity).
        rewrite Ep in Hg, HQ.
        exists (c :: x), g1. split; [exact Hg|]. split; [cbn [length]; lia|].
        split; [exact HQ|]. rewrite Hj. reflexivity.
Qed.

End Dropped.

(** *** Whole words of a text with a piece cut out *)

Lemma occurs_from_elim ic old : forall s prev,
  occurs_from ic old prev s = true ->
  exists p o q,
    s = p ++ o ++ q /\ lit_eq ic old o = true /\
    word_opt (last_char prev p) = false /\ word_opt (next_char q) = false.
Proof.
  assert (Here : forall s prev,
            negb (word_opt prev) && lit_eq ic old (firstn (length old) s)
            && negb (word_opt (next_char (skipn (length old) s))) = true ->
            exists p o q,
              s = p ++ o ++ q /\ lit_eq ic old o = true /\
              word_opt (last_char prev p) = false /\ word_opt (next_char q) = false).
  { intros s prev H. apply andb_true_iff in H. destruct H as [H H3].
    apply andb_true_iff in H. destruct H as [H1 H2].
    apply negb_true_iff in H1. apply negb_true_iff in H3.
    exists [], (firstn (length old) s), (skipn (length old) s).
    cbn [app last_char]. rewrite firstn_skipn. auto. }
  induction s as [|c s IH]; intros prev H.
  - apply Here. cbn [occurs_from] in H. rewrite orb_false_r in H. exact H.
  - cbn [occurs_from] in H. apply orb_true_iff in H. destruct H as [H | H].
    + apply Here. exact H.
    + apply IH in H. destruct H as (p & o & q & -> & Ho & Hp & Hq).
      exists (c :: p), o, q. cbn [app last_char]. auto.
Qed.

(** Cutting [g] out between two places where no word character ends
    adds no whole word. *)
Lemma word_occurs_cut old kept g y :
  is_symbol old = true ->
  word_opt (last_char None kept) = false ->
  word_opt (last_char None (kept ++ g)) = false ->
  word_occurs true old (kept ++ g ++ y) = false ->
  word_occurs true old (kept ++ y) = false.
Proof.
  intros Hs Hk Hg Hno.
  destruct (word_occurs true old (kept ++ y)) eqn:E; [|reflexivity]. exfalso.
  apply occurs_from_elim in E. destruct E as (p & o & q & E & Ho & Hp & Hq).
  assert (How : forallb is_word o = true).
  { eapply lit_eq_word; [exact Ho|]. apply symbol_chars. exact Hs. }
  assert (Hon : o <> []).
  { intros ->. destruct old; [discriminate|]. cbn [lit_eq] in Ho. discriminate. }
  assert (Hyes : word_occurs true old (kept ++ g ++ y) = true); [|congruence].
  apply app_eq_app in E. destruct E as (l & [[E1 E2] | [E1 E2]]).
  - (* the word begins inside [kept] *)
    apply app_eq_app in E2. destruct E2 as (m & [[E3 E4] | [E3 E4]]).
    + (* and ends in [y] *)
      destruct (nil_or_not l) as [-> | Hl].
      * rewrite app_nil_r in E1. subst p. cbn [app] in E3. subst m y.
        replace (kept ++ g ++ o ++ q) with ((kept ++ g) ++ o ++ q)
          by (rewrite <- app_assoc; reflexivity).
        apply word_occurs_intro; auto.
      * exfalso. subst kept o. apply all_app in How. destruct How as [Hlw _].
        rewrite last_char_app, word_last in Hk by auto. discriminate.
    + (* and ends inside [kept] *)
      subst kept l q. destruct (nil_or_not m) as [-> | Hm].
      * exfalso. rewrite app_nil_r, last_char_app, word_last in Hk by auto.
        discriminate.
      * replace ((p ++ o ++ m) ++ g ++ y) with (p ++ o ++ (m ++ g ++ y))
          by (rewrite <- !app_assoc; reflexivity).
        apply word_occurs_intro; auto.
        rewrite next_char_app_nonempty by exact Hm.
        rewrite next_char_app_nonempty in Hq by exact Hm. exact Hq.
  - (* the word lies in [y] *)
    subst p y.
    replace (kept ++ g ++ l ++ o ++ q) with ((kept ++ g ++ l) ++ o ++ q)
      by (rewrite <- !app_assoc; reflexivity).
    apply word_occurs_intro; auto.
    destruct (nil_or_not l) as [-> | Hl].
    + rewrite app_nil_r. exact Hg.
    + rewrite app_assoc, last_char_app.
      rewrite (last_char_nonempty _ (last_char None kept)) by exact Hl.
      rewrite <- last_char_app. exact Hp.
Qed.

Lemma bol_not_word prev : at_bol M prev = true -> word_opt prev = false.
Proof.
  destruct prev as [c|]; [|reflexivity]. cbn [at_bol word_opt].
  intros H. apply andb_true_iff in H. destruct H as [_ H].
  apply ascii_eqb_eq in H. subst c. reflexivity.
Qed.

(** What a match of step 1 takes from the text before the definition is
    white space. *)
Lemma lost_is_space kept lost s0 kwd s1 w0 k w1 :
  word_opt (last_char None (kept ++ lost)) = false ->
  s0 ++ kwd ++ s1 = lost ++ w0 ++ k ++ w1 ->
  forallb is_space s0 = true ->
  kwd = txt "config" \/ kwd = txt "menuconfig" ->
  forallb is_space s1 = true ->
  k = txt "config" \/ k = txt "menuconfig" ->
  forallb is_space lost = true.
Proof.
  intros Hb E H0 Hkw H1 Hk.
  apply app_eq_app in E. destruct E as (l & [[E1 E2] | [E1 E2]]).
  - subst s0. apply all_app in H0. tauto.
  - destruct (nil_or_not l) as [-> | Hl].
    { subst lost. rewrite app_nil_r. exact H0. }
    exfalso. apply app_eq_app in E2. destruct E2 as (m & [[E3 E4] | [E3 E4]]).
    + assert (Hw : forallb is_word kwd = true)
        by (destruct Hkw as [-> | ->]; reflexivity).
      rewrite E3 in Hw. apply all_app in Hw. destruct Hw as [Hlw _].
      subst lost. rewrite !app_assoc, last_char_app, word_last in Hb by auto.
      discriminate.
    + subst s1. apply all_app in H1. destruct H1 as [_ H1].
      apply all_app in H1. destruct H1 as [_ H1].
      apply all_app in H1. destruct H1 as [H1 _].
      destruct Hk as [-> | ->]; vm_compute in H1; discriminate.
Qed.

(** *** The steps after the first, on a text without the old symbol *)

Lemma rule6_idle old new text :
  is_symbol old = true -> lit_eq true (txt "depends") old = false ->
  forallb (fun c => negb (ascii_eqb c backslash)) new = true ->
  word_occurs true old text = false ->
  rule6 old new text = Some text.
Proof.
  intros Hs Hd Hn Ho. unfold rule6. apply sub_fn_identity.
  intros pre s adv st E Hm.
  unfold replace_multiline_depends. apply sub_no_match.
  { rewrite parse_template_plain by exact Hn. discriminate. }
  intros pre2 s2 adv2 st2 E2 Hm2.
  apply match_at_sound in Hm. destruct Hm as (w & rest & Es & D & Hpos & _).
  assert (Hg : group0 s st = w).
  { unfold group0. rewrite Hpos, Es, firstn_length_app. reflexivity. }
  rewrite Hg in E2.
  destruct (whole_word_hits old adv2 _ s2 st2 Hs Hm2) as (rest2 & -> & _ & Hb & Ha).
  apply depends_shape in D. destruct D as (d & c & tl & Ew & Hdep & Hsp & Hnl).
  assert (Hyes : word_occurs true old text = true); [|congruence].
  subst text s. rewrite E2.
  replace (pre ++ (pre2 ++ old ++ rest2) ++ rest)
    with ((pre ++ pre2) ++ old ++ (rest2 ++ rest))
    by (rewrite <- !app_assoc; reflexivity).
  apply word_occurs_intro.
  - apply lit_eq_refl.
  - destruct (nil_or_not pre2) as [-> | Hp2].
    + exfalso. cbn [app] in E2. rewrite Ew in E2.
      eapply (no_word_at_span_start old old rest2 d c tl); eauto.
      apply lit_eq_refl.
    + rewrite last_char_app, (last_char_nonempty _ None) by exact Hp2. exact Hb.
  - destruct (nil_or_not rest2) as [-> | Hr].
    + cbn [app]. rewrite Hnl. reflexivity.
    + rewrite next_char_app_nonempty by exact Hr. exact Ha.
Qed.

Lemma later_steps_idle old new text t1 :
  is_symbol old = true -> lit_eq true (txt "depends") old = false ->
  parse_template 2 (template new) <> None ->
  forallb (fun c => negb (ascii_eqb c backslash)) new = true ->
  sub_rule M (rule1 old) new text = Some t1 ->
  word_occurs true old t1 = false ->
  rename_one old new text = Some t1.
Proof.
  intros Hs Hd Hp Hn H1 Ho. unfold rename_one. rewrite H1. cbn [bind].
  unfold rule2, rule5, rule7, rule8a, rule9.
  assert (Hsub : forall fl R, selects_word fl R old ->
                              sub_rule fl R new t1 = Some t1).
  { intros fl R HR. unfold sub_rule. apply sub_no_match; [exact Hp|].
    eapply selects_no_match; eauto. }
  repeat (first
    [ rewrite rule6_idle by auto
    | rewrite Hsub
        by (auto using keyword_line_selects, rule3_selects,
              rule4_selects, rule8b_selects, rule10_selects, rule11a_selects,
              rule11b_selects, rule12_selects) ];
    cbn [bind]).
  reflexivity.
Qed.

(** *** A definition renamed to a name with two octal digits in front *)

Lemma definition_mangled old d1 d2 new pre w0 k w1 w2 rest :
  is_symbol old = true -> lit_eq true (txt "depends") old = false ->
  is_octdigit d1 = true -> is_octdigit d2 = true ->
  forallb (fun c => negb (ascii_eqb c backslash)) new = true ->
  definition_context pre w0 k w1 w2 rest = true ->
  word_occurs true old
    ((pre ++ w0 ++ k ++ w1) ++ (octal_escape d1 d2 :: new) ++ w2 ++ rest) = false ->
  exists kept lost,
    pre = kept ++ lost /\ forallb is_space lost = true /\
    rename_all [(old, d1 :: d2 :: new)] (with_definition pre w0 k w1 old w2 rest)
    = Some (kept ++ (octal_escape d1 d2 :: new) ++ w2 ++ rest).
Proof.
  intros Hs Hd H1 H2 Hn Hc Hno.
  destruct (symbol_chars old Hs) as [Hne _].
  destruct (definition_context_elim _ _ _ _ _ _ Hc) as (Hbol & Hw0 & Hk & _ & _ & _).
  destruct (definition_matches old pre w0 k w1 w2 rest Hs Hc) as [st0 Hm0].
  pose (out := octal_escape d1 d2 :: new).
  pose (tpl := TChar (octal_escape d1 d2) :: map TChar new ++ [TGroup 2]).
  pose (Q := fun (prev : option ascii) (g1 : text) =>
               (at_bol M prev = true /\
                exists s0 kwd s1,
                  g1 = s0 ++ kwd ++ s1 /\ forallb is_space s0 = true /\
                  (kwd = txt "config" \/ kwd = txt "menuconfig") /\
                  s1 <> [] /\ forallb is_space s1 = true) /\
               word_opt (last_char prev g1) = false).
  assert (Hall : forall p s adv st,
            (pre ++ w0 ++ k ++ w1) ++ old ++ w2 ++ rest = p ++ s ->
            match_at M (rule1 old) adv (last_char None p) s = Some st ->
            exists g1 g2 rest',
              s = g1 ++ old ++ g2 ++ rest' /\ p ++ g1 = pre ++ w0 ++ k ++ w1 /\
              m_pos st = length (g1 ++ old ++ g2) /\
              Some (expand tpl s st) = Some (out ++ g2) /\
              Q (last_char None p) g1).
  { intros p s adv st HT Hm.
    destruct (rule1_hit_parts old adv _ s st Hm)
      as (g1 & g2 & r' & -> & Hp & Hhead & Hg1 & Hg2 & Hgrp).
    exists g1, g2, r'. split; [reflexivity|].
    split; [|split; [exact Hp|split; [|split; [exact Hhead|exact Hg1]]]].
    - eapply occurrence_unique with (new := out) (o := old) (q := g2 ++ r'); eauto.
      + rewrite <- app_assoc. symmetry. exact HT.
      + apply lit_eq_refl.
      + rewrite last_char_app. exact Hg1.
    - f_equal. unfold tpl. rewrite expand_octal, Hgrp. reflexivity. }
  destruct (scan_drops M (rule1 old) (fun s st => Some (expand tpl s st))
              (pre ++ w0 ++ k ++ w1) old out (w2 ++ rest) Q Hne Hall
              ((pre ++ w0 ++ k ++ w1) ++ old ++ w2 ++ rest) [] pre
              (((w0 ++ k ++ w1) ++ old ++ w2) ++ rest) st0)
    as (kept & g1 & Hg & Hle & ((Hb & s0 & kwd & s1 & Eg & Hs0 & Hkw & Hs1n & Hs1) & Hlast)
        & Hj).
  { reflexivity. }
  { rewrite <- !app_assoc. reflexivity. }
  { exact Hm0. }
  cbn [app] in Hg, Hb, Hlast, Hj.
  assert (Hsplit : exists lost, pre = kept ++ lost /\ g1 = lost ++ w0 ++ k ++ w1).
  { apply app_eq_app in Hg. destruct Hg as (l & [[E1 E2] | [E1 E2]]).
    - assert (l = []).
      { apply (f_equal (@length ascii)) in E1. rewrite length_app in E1.
        destruct l; [reflexivity|]. cbn [length] in E1. lia. }
      subst l. rewrite app_nil_r in E1. subst kept. exists [].
      rewrite app_nil_r. cbn [app] in E2. auto.
    - exists l. auto. }
  destruct Hsplit as (lost & Epre & Eg1).
  exists kept, lost. split; [exact Epre|]. split.
  - apply (lost_is_space kept lost s0 kwd s1 w0 k w1); auto.
    + rewrite <- Epre. apply bol_not_word. exact Hbol.
    + rewrite <- Eg. exact Eg1.
  - cbn [rename_all].
    rewrite (later_steps_idle old (d1 :: d2 :: new) _
               (kept ++ out ++ w2 ++ rest)); auto.
    + rewrite parse_template_octal by auto. discriminate.
    + cbn [forallb]. rewrite Hn.
      rewrite (word_not_backslash d1), (word_not_backslash d2); auto.
      * revert H2. clear. intros H. revert H. all_chars d2.
      * revert H1. clear. intros H. revert H. all_chars d1.
    + unfold sub_rule, sub. rewrite parse_template_octal by auto.
      unfold finditer, with_definition. exact Hj.
    + apply (word_occurs_cut old kept g1); auto.
      * apply bol_not_word. exact Hb.
      * rewrite last_char_app. exact Hlast.
      * replace (kept ++ g1 ++ out ++ w2 ++ rest)
          with ((kept ++ g1) ++ out ++ w2 ++ rest)
          by (rewrite <- !app_assoc; reflexivity).
        assert (Ea : kept ++ g1 = pre ++ w0 ++ k ++ w1).
        { rewrite Epre, Eg1, <- !app_assoc. reflexivity. }
        rewrite Ea. exact Hno.
Qed.

End Mangled.
Import Mangled.

Module Kept.

(** *** A whole word that is not the old symbol stays where it is *)

(** Inside a word, and right after it, no replacement can start. *)
Lemma inside_word old new b : forall w2 prev s',
  forallb is_word w2 = true -> word_opt prev = true ->
  replaced old new prev (w2 ++ b) s' ->
  exists b1, s' = w2 ++ b1 /\ replaced old new None b b1.
Proof.
  induction w2 as [|c w3 IH]; intros prev s' Hw Hp H; cbn [app] in H.
  - inversion H as [p E1 E2 | p c s s1 H1 E1 E2 | p o s s1 Ho Hb Ha H1 E1 E2]; subst.
    + exists []. split; [reflexivity|apply Same_end].
    + exists (c :: s1). split; [reflexivity|apply Same_char; exact H1].
    + congruence.
  - cbn [forallb] in Hw. apply andb_true_iff in Hw. destruct Hw as [Hc Hw].
    inversion H as [p E1 E2 | p c0 s s1 H1 E1 E2 | p o s s1 Ho Hb Ha H1 E1 E2]; subst.
    + destruct (IH (Some c) s1 Hw Hc H1) as (b1 & -> & Hb1).
      exists b1. split; [reflexivity|exact Hb1].
    + congruence.
Qed.

Section OneWord.

Variables (old new w : text).
Hypothesis old_symbol : is_symbol old = true.
Hypothesis w_symbol : is_symbol w = true.
Hypothesis other_word : lit_eq true old w = false.

Lemma same_start o s b :
  lit_eq true old o = true -> word_opt (next_char s) = false ->
  word_opt (next_char b) = false -> o ++ s = w ++ b -> False.
Proof.
  intros Ho Ha Hb E.
  assert (How : forallb is_word o = true).
  { eapply lit_eq_word; [exact Ho|]. apply symbol_chars. exact old_symbol. }
  destruct (symbol_chars w w_symbol) as [_ Hww].
  apply app_eq_app in E. destruct E as (l & [[E1 E2] | [E1 E2]]).
  - destruct (nil_or_not l) as [-> | Hl].
    + rewrite app_nil_r in E1. subst o. congruence.
    + subst o b. apply all_app in How. destruct How as [_ Hlw].
      rewrite (word_first l s Hl Hlw) in Hb. discriminate.
  - destruct (nil_or_not l) as [-> | Hl].
    + rewrite app_nil_r in E1. subst o. congruence.
    + subst w s. apply all_app in Hww. destruct Hww as [_ Hlw].
      rewrite (word_first l b Hl Hlw) in Ha. discriminate.
Qed.

Lemma split_replaced b s s1 prev :
  word_opt (next_char b) = false ->
  replaced old new prev s s1 ->
  forall a, s = a ++ w ++ b -> word_opt (last_char prev a) = false ->
  exists a1 b1,
    s1 = a1 ++ w ++ b1 /\ replaced old new prev a a1 /\ replaced old new None b b1.
Proof.
  intros Hb H.
  destruct (symbol_chars w w_symbol) as [Hwn Hww].
  induction H as [p | p c s s' H IH | p o s s' Ho Hp Ha H IH]; intros a E Hc.
  - exfalso. symmetry in E. apply app_eq_nil in E. destruct E as [_ E].
    apply app_eq_nil in E. tauto.
  - destruct a as [|x a2]; cbn [app] in E.
    + destruct w as [|c' w2]; [congruence|]. cbn [app] in E. injection E as <- ->.
      cbn [forallb] in Hww. apply andb_true_iff in Hww. destruct Hww as [Hcw Hw2].
      destruct (inside_word old new b w2 (Some c) s' Hw2 Hcw H) as (b1 & -> & Hb1).
      exists [], b1. split; [reflexivity|]. split; [apply Same_end|exact Hb1].
    + injection E as <- ->. cbn [last_char] in Hc.
      destruct (IH a2 eq_refl Hc) as (a1 & b1 & -> & Ha1 & Hb1).
      exists (c :: a1), b1. split; [reflexivity|].
      split; [apply Same_char; exact Ha1|exact Hb1].
  - assert (How : forallb is_word o = true).
    { eapply lit_eq_word; [exact Ho|]. apply symbol_chars. exact old_symbol. }
    assert (Hon : o <> []) by exact (symbol_nonempty true old o old_symbol Ho).
    apply app_eq_app in E. destruct E as (l & [[E1 E2] | [E1 E2]]).
    + exfalso. destruct (nil_or_not a) as [-> | Han].
      * cbn [app] in E1. subst l. symmetry in E2.
        exact (same_start o s b Ho Ha Hb E2).
      * subst o. apply all_app in How. destruct How as [Haw _].
        rewrite (word_last p a Han Haw) in Hc. discriminate.
    + subst a s. rewrite last_char_app in Hc.
      destruct (IH l eq_refl Hc) as (a1 & b1 & -> & Ha1 & Hb1).
      exists (new ++ a1), b1. split; [rewrite <- app_assoc; reflexivity|].
      split; [|exact Hb1]. apply New_word; auto.
      destruct (nil_or_not l) as [-> | Hl].
      * exfalso. cbn [last_char] in Hc. rewrite (word_last p o Hon How) in Hc.
        discriminate.
      * rewrite next_char_app_nonempty in Ha by exact Hl. exact Ha.
Qed.

Lemma replaced_ends_clean a a1 prev :
  replaced old new prev a a1 ->
  word_opt (last_char prev a) = false -> word_opt (last_char prev a1) = false.
Proof.
  intros H. induction H as [p | p c s s' H IH | p o s s' Ho Hp Ha H IH]; intros Hc.
  - exact Hc.
  - cbn [last_char] in *. auto.
  - rewrite last_char_app in Hc. specialize (IH Hc). rewrite last_char_app.
    destruct (nil_or_not s') as [-> | Hs'].
    + exfalso. cbn [last_char] in IH.
      destruct (symbol_word_last o old true p old_symbol Ho) as [Hl _]. congruence.
    + rewrite (last_char_nonempty _ (last_char p o)) by exact Hs'. exact IH.
Qed.

Lemma replaced_starts_clean b b1 prev :
  replaced old new prev b b1 ->
  word_opt (next_char b) = false -> word_opt (next_char b1) = false.
Proof.
  intros H Hb. inversion H as [p E1 E2 | p c s s1 H1 E1 E2 | p o s s1 Ho Hp Ha H1 E1 E2];
    subst.
  - reflexivity.
  - exact Hb.
  - exfalso. destruct (symbol_word_last o old true prev old_symbol Ho)
      as [_ (c & o' & -> & Hcw)].
    cbn [app next_char word_opt] in Hb. congruence.
Qed.

Lemma split_passes s s' :
  passes old new s s' ->
  forall a b, s = a ++ w ++ b ->
  word_opt (last_char None a) = false -> word_opt (next_char b) = false ->
  exists a' b',
    s' = a' ++ w ++ b' /\ passes old new a a' /\ passes old new b b' /\
    word_opt (last_char None a') = false /\ word_opt (next_char b') = false.
Proof.
  intros H. induction H as [s | s s1 s2 H1 H2 IH]; intros a b E Ha Hb.
  - exists a, b. repeat split; auto; apply No_pass.
  - destruct (split_replaced b s s1 None Hb H1 a E Ha) as (a1 & b1 & E1 & Ha1 & Hb1).
    pose proof (replaced_ends_clean a a1 None Ha1 Ha) as Hc1.
    pose proof (replaced_starts_clean b b1 None Hb1 Hb) as Hd1.
    destruct (IH a1 b1 E1 Hc1 Hd1) as (a' & b' & E' & Ha' & Hb' & Hc' & Hd').
    exists a', b'. split; [exact E'|]. split; [eapply One_more; eauto|].
    split; [eapply One_more; eauto|auto].
Qed.

End OneWord.

Lemma split_mapped w : forall mappings s s' a b,
  forallb renamable mappings = true -> is_symbol w = true ->
  forallb (fun m => negb (lit_eq true (fst m) w)) mappings = true ->
  mapped mappings s s' -> s = a ++ w ++ b ->
  word_opt (last_char None a) = false -> word_opt (next_char b) = false ->
  exists a' b', s' = a' ++ w ++ b' /\ mapped mappings a a' /\ mapped mappings b b'.
Proof.
  induction mappings as [|[old new] ms IH]; intros s s' a b Hr Hw Hn H E Ha Hb;
    cbn [mapped] in *.
  - subst s'. exists a, b. auto.
  - cbn [forallb fst] in Hr, Hn.
    apply andb_true_iff in Hr. destruct Hr as [Hr Hrs].
    apply andb_true_iff in Hn. destruct Hn as [Hn Hns]. apply negb_true_iff in Hn.
    unfold renamable in Hr. cbn [fst snd] in Hr.
    apply andb_true_iff in Hr. destruct Hr as [Hr _].
    apply andb_true_iff in Hr. destruct Hr as [Hso _].
    destruct H as (s1 & Hp & Hm).
    destruct (split_passes old new w Hso Hw Hn s s1 Hp a b E Ha Hb)
      as (a1 & b1 & E1 & Ha1 & Hb1 & Hc1 & Hd1).
    destruct (IH s1 s' a1 b1 Hrs Hw Hns Hm E1 Hc1 Hd1) as (a' & b' & E' & Ha' & Hb').
    exists a', b'. split; [exact E'|]. split; eauto.
Qed.

Lemma renamable_safe mappings :
  forallb renamable mappings = true -> safe_mappings mappings = true.
Proof.
  unfold safe_mappings. induction mappings as [|m ms IH]; cbn [forallb]; [auto|].
  intros H. apply andb_true_iff in H. destruct H as [H Hs]. rewrite (IH Hs).
  unfold renamable in H. apply andb_true_iff in H. destruct H as [_ ->]. reflexivity.
Qed.

End Kept.
Import Kept.

Module Blind.

(** *** What a run does to the files does not depend on the log *)











Section WithSed.
Variable sed : sed_tool.










End WithSed.

End Blind.
Import Blind.

(* ================================================================== *)
(** ** The claims on what the rewriting replaces *)
(* ================================================================== *)

(** C5, amended: for a mapping set of symbols (old symbols other than the
    keyword [depends] in any case, new symbols that are literal in the
    replacement template) the rewriting returns, and a whole word [w]
    that is no old symbol of the set, letters compared without regard to
    case, is never altered, whatever else the text holds: the text
    returned is [a' ++ w ++ b'], where the text [a] before the word and
    the text [b] after it have changed by replacements of whole words
    only.  So FOOBAR and MYFOO stay as they are when FOO is renamed next
    to them, and a text in which no old symbol occurs as a whole word
    comes back unchanged. *)
Theorem longer_symbols_are_kept mappings a w b :
  forallb renamable mappings = true ->
  is_symbol w = true ->
  word_opt (last_char None a) = false -> word_opt (next_char b) = false ->
  forallb (fun m => negb (lit_eq true (fst m) w)) mappings = true ->
  (exists a' b',
     rename_all mappings (a ++ w ++ b) = Some (a' ++ w ++ b') /\
     mapped mappings a a' /\ mapped mappings b b') /\
  (forall s, no_word_of mappings s = true -> rename_all mappings s = Some s).
Proof.
  intros Hr Hw Ha Hb Hn. split.
  - destruct (rename_all_some mappings (a ++ w ++ b) (renamable_safe mappings Hr))
      as [s' E].
    destruct (split_mapped w mappings (a ++ w ++ b) s' a b Hr Hw Hn
                (rename_all_mapped mappings _ _ Hr E) eq_refl Ha Hb)
      as (a' & b' & -> & Ha' & Hb').
    exists a', b'. auto.
  - intros s Hs. apply rename_all_identity; auto.
Qed.

Lemma longer_symbols_are_kept_witness :
  (exists a' b',
     rename_all [(FOO, BAR_FOO)]
       (txt "depends on FOO && " ++ txt "FOOBAR" ++ txt " || MYFOO")
     = Some (a' ++ txt "FOOBAR" ++ b') /\
     mapped [(FOO, BAR_FOO)] (txt "depends on FOO && ") a' /\
     mapped [(FOO, BAR_FOO)] (txt " || MYFOO") b') /\
  (forall s, no_word_of [(FOO, BAR_FOO)] s = true ->
             rename_all [(FOO, BAR_FOO)] s = Some s).
Proof.
  exact (longer_symbols_are_kept [(FOO, BAR_FOO)] (txt "depends on FOO && ")
           (txt "FOOBAR") (txt " || MYFOO") eq_refl eq_refl eq_refl eq_refl eq_refl).
Defined.

(** C6: running one mapping a second time should change nothing.  It
    does: step 4 rewrites the last occurrence on a [depends on] line only
    (the text before the symbol is matched greedily), and step 6, which
    would rewrite them all, finds no span when a comment ends the line.
    After the first pass the first FOO is still there; the second pass
    rewrites it; only the third pass changes nothing. *)
Theorem second_pass_rewrites_again :
  rename_all [(FOO, X_FOO)] depends_with_comment
  = Some (lines [txt "config BAR"; tab :: txt "bool";
                 tab :: txt "depends on FOO=y || X_FOO=m # both"]) /\
  rename_all [(FOO, X_FOO)]
    (lines [txt "config BAR"; tab :: txt "bool";
            tab :: txt "depends on FOO=y || X_FOO=m # both"])
  = Some (lines [txt "config BAR"; tab :: txt "bool";
                 tab :: txt "depends on X_FOO=y || X_FOO=m # both"]) /\
  rename_all [(FOO, X_FOO)]
    (lines [txt "config BAR"; tab :: txt "bool";
            tab :: txt "depends on X_FOO=y || X_FOO=m # both"])
  = Some (lines [txt "config BAR"; tab :: txt "bool";
                 tab :: txt "depends on X_FOO=y || X_FOO=m # both"]).
Proof. split; [|split]; vm_compute; reflexivity. Qed.


(* ================================================================== *)
(** ** The claim on mapping files *)
(* ================================================================== *)



(* ================================================================== *)
(** ** Further properties of the code *)
(* ================================================================== *)

(** X1: when no new symbol holds a backslash or starts with a digit, the
    rewriting raises on no input: the loop over the mappings returns a
    text, and [rename_in_kconfig_file] returns a boolean, whatever the
    old symbols, the file and the state are. *)
Theorem literal_names_never_raise mappings :
  safe_mappings mappings = true ->
  (forall s, exists s', rename_all mappings s = Some s') /\
  (forall filepath st,
     exists b st', rename_in_kconfig_file filepath mappings st = (Ok b, st')).
Proof.
  intros H. split.
  - intros s. apply rename_all_some. exact H.
  - intros filepath st. apply rename_in_kconfig_file_returns. exact H.
Qed.

Lemma literal_names_never_raise_witness :
  (forall s, exists s', rename_all [(FOO, BAR_FOO); (txt "F.O", txt "a-b")] s = Some s') /\
  (forall filepath st,
     exists b st',
       rename_in_kconfig_file filepath [(FOO, BAR_FOO); (txt "F.O", txt "a-b")] st
       = (Ok b, st')).
Proof.
  exact (literal_names_never_raise [(FOO, BAR_FOO); (txt "F.O", txt "a-b")] eq_refl).
Defined.







(** X5: [find_all_subsymbols] always returns, changes no file, and
    returns each symbol once; a symbol is returned exactly when one of
    the Kconfig files under the root that can be read defines it; for
    each Kconfig file that cannot be read one warning is logged, in walk
    order, and the search goes on. *)
Theorem discovery_is_exact symbol root_dir st :
  exists subs st',
    find_all_subsymbols symbol root_dir st = (Ok subs, st') /\
    same_files st st' /\
    (forall sym, In sym subs <->
       exists f content,
         In f (kconfig_paths root_dir (tree st)) /\ read_file f st = Some content /\
         In sym (defined_in symbol content)) /\
    NoDup subs /\
    log st' = log st ++
      map (fun f => (WARNING, txt "Could not read " ++ f ++ txt ": {e}"))
          (filter (fun f => match read_file f st with None => true | _ => false end)
                  (kconfig_paths root_dir (tree st))).
Proof. apply find_all_subsymbols_exact. Qed.

(** X6: when the discovery finds no definition, [rename_symbol] logs the
    warning [No symbols found starting with ...] and returns: no file is
    read for rewriting, none is written, sed is not run, in a dry run as
    in a real one. *)
Theorem nothing_found_nothing_done sed old new root_dir st :
  fst (find_all_subsymbols old root_dir st) = Ok [] ->
  exists st',
    rename_symbol sed old new root_dir st = (Ok tt, st') /\ same_files st st' /\
    exists l, log st' = l ++ [(WARNING, txt "No symbols found starting with " ++ old)].
Proof.
  intros H. apply rename_symbol_nothing. apply discovery_empty. exact H.
Qed.

Lemma nothing_found_nothing_done_witness :
  exists st',
    rename_symbol quiet_sed (txt "BAZ") (txt "X_BAZ") (txt ".") (start mixed_tree false)
    = (Ok tt, st') /\
    same_files (start mixed_tree false) st' /\
    exists l, log st' = l ++ [(WARNING, txt "No symbols found starting with "
                                        ++ txt "BAZ")].
Proof.
  exact (nothing_found_nothing_done quiet_sed (txt "BAZ") (txt "X_BAZ") (txt ".")
           (start mixed_tree false) eq_refl).
Defined.

(** X7: the chunks [process_files_with_sed] hands to sed are the file
    list cut in order: put together they give the list back, none is
    empty, none holds more than 100 files, and every chunk but the last
    holds exactly 100. *)
Theorem chunks_cover_the_files (files : list text) :
  concat (chunks (length files) 100 files) = files /\
  Forall (fun c => c <> [] /\ length c <= 100) (chunks (length files) 100 files) /\
  (forall before c after,
     chunks (length files) 100 files = before ++ c :: after -> after <> [] ->
     length c = 100).
Proof.
  split; [apply chunks_concat; lia|]. split; [apply chunks_bounded; lia|].
  apply chunks_inner_full. lia.
Qed.

(** X8: a real run of [process_files_with_sed].  When the environment
    of sed raises nothing that is not caught, the call returns a count
    that is at most the number of files, Python writes no file of the
    tree, and the change log gets one entry, naming the count, exactly
    when the count is positive; when [sed --version] ends in one of the
    two exceptions the code catches, the count is 0 and nothing changes.
    When the check ends in another exception, or the temporary script
    cannot be written, the exception leaves the call (for files and a
    script that are not empty): sed has not run and nothing has
    changed. *)
Theorem sed_run_is_counted sed files sed_script file_type use_simple st :
  dry_run st = false ->
  (sed_raises sed = false ->
   exists n st',
     process_files_with_sed sed files sed_script file_type use_simple st = (Ok n, st') /\
     n <= length files /\
     written st' = written st /\ dry_run st' = false /\
     changes_made st'
     = changes_made st ++ (if 0 <? n then [sed_change n file_type] else [])) /\
  (sed_version sed = VersionMissing ->
   exists st',
     process_files_with_sed sed files sed_script file_type use_simple st = (Ok 0, st') /\
     same_files st st') /\
  (sed_raises sed = true -> files <> [] -> sed_script <> [] ->
   exists st',
     process_files_with_sed sed files sed_script file_type use_simple st = (Raise, st') /\
     same_files st st').
Proof.
  intros Hd. split; [|split].
  - intros Hr. apply process_sed_real; auto.
  - intros Hv. apply process_sed_missing; auto.
  - intros Hr Hf Hs. apply process_sed_raises; auto.
Qed.

Lemma sed_run_is_counted_witness :
  (sed_raises forbidden_sed = false ->
   exists n st',
     process_files_with_sed forbidden_sed [txt "./main.c"] (txt "s/a/b/g") (txt "source")
       false (start mixed_tree false) = (Ok n, st') /\
     n <= length [txt "./main.c"] /\
     written st' = written (start mixed_tree false) /\ dry_run st' = false /\
     changes_made st'
     = changes_made (start mixed_tree false)
       ++ (if 0 <? n then [sed_change n (txt "source")] else [])) /\
  (sed_version forbidden_sed = VersionMissing ->
   exists st',
     process_files_with_sed forbidden_sed [txt "./main.c"] (txt "s/a/b/g") (txt "source")
       false (start mixed_tree false) = (Ok 0, st') /\
     same_files (start mixed_tree false) st') /\
  (sed_raises forbidden_sed = true -> [txt "./main.c"] <> [] -> txt "s/a/b/g" <> [] ->
   exists st',
     process_files_with_sed forbidden_sed [txt "./main.c"] (txt "s/a/b/g") (txt "source")
       false (start mixed_tree false) = (Raise, st') /\
     same_files (start mixed_tree false) st').
Proof.
  exact (sed_run_is_counted forbidden_sed [txt "./main.c"] (txt "s/a/b/g") (txt "source")
           false (start mixed_tree false) eq_refl).
Defined.

(** X9: when sed is installed, the temporary script can be written and
    every run of sed returns code 0, a real run over a non-empty file
    list with a non-empty script counts every file, logs that count once,
    and has run sed once on each chunk, in order, in extended mode unless
    [use_simple] is set. *)
Theorem sed_success_counts_all sed files sed_script file_type use_simple st :
  sed_succeeds sed -> sed_version_ok sed = true -> temp_script_ok sed = true ->
  dry_run st = false -> files <> [] -> sed_script <> [] ->
  exists st',
    process_files_with_sed sed files sed_script file_type use_simple st
    = (Ok (length files), st') /\
    tree st' = fold_left (sed_pass sed (negb use_simple) sed_script)
                         (chunks (length files) 100 files) (tree st) /\
    changes_made st' = changes_made st ++ [sed_change (length files) file_type].
Proof. apply process_sed_all. Qed.

Lemma sed_success_counts_all_witness :
  exists st',
    process_files_with_sed quiet_sed [txt "./main.c"; txt "./drivers/CMakeLists.txt"]
      (txt "s/a/b/g") (txt "source") false (start mixed_tree false)
    = (Ok (length [txt "./main.c"; txt "./drivers/CMakeLists.txt"]), st') /\
    tree st' = fold_left (sed_pass quiet_sed (negb false) (txt "s/a/b/g"))
                 (chunks (length [txt "./main.c"; txt "./drivers/CMakeLists.txt"]) 100
                    [txt "./main.c"; txt "./drivers/CMakeLists.txt"])
                 (tree (start mixed_tree false)) /\
    changes_made st'
    = changes_made (start mixed_tree false)
      ++ [sed_change (length [txt "./main.c"; txt "./drivers/CMakeLists.txt"])
            (txt "source")].
Proof.
  apply (sed_success_counts_all quiet_sed
           [txt "./main.c"; txt "./drivers/CMakeLists.txt"]
           (txt "s/a/b/g") (txt "source") false (start mixed_tree false)).
  - intros extended sed_script chunk t. reflexivity.
  - reflexivity.
  - reflexivity.
  - reflexivity.
  - discriminate.
  - discriminate.
Defined.

(** X10: the sed script is empty only for the empty mapping set; for
    mappings between identifiers the escaping changes nothing and the
    script is, in mapping order and joined by line breaks, one command
    [s/\<CONFIG_old\>/CONFIG_new/g] per mapping. *)
Theorem script_of_identifiers mappings :
  forallb (fun m => forallb is_word (fst m) && forallb is_word (snd m)) mappings = true ->
  create_sed_script_for_source mappings
  = join_lines (map (fun m => txt "s/\<CONFIG_" ++ fst m ++ txt "\>/CONFIG_"
                                ++ snd m ++ txt "/g") mappings) /\
  (create_sed_script_for_source mappings = [] <-> mappings = []).
Proof.
  intros H. split; [apply script_plain; exact H|apply script_empty].
Qed.

Lemma script_of_identifiers_witness :
  create_sed_script_for_source [(FOO, BAR_FOO); (txt "FOOZ", txt "BAR_FOOZ")]
  = join_lines (map (fun m => txt "s/\<CONFIG_" ++ fst m ++ txt "\>/CONFIG_"
                                ++ snd m ++ txt "/g")
                    [(FOO, BAR_FOO); (txt "FOOZ", txt "BAR_FOOZ")]) /\
  (create_sed_script_for_source [(FOO, BAR_FOO); (txt "FOOZ", txt "BAR_FOOZ")] = []
   <-> [(FOO, BAR_FOO); (txt "FOOZ", txt "BAR_FOOZ")] = []).
Proof.
  exact (script_of_identifiers [(FOO, BAR_FOO); (txt "FOOZ", txt "BAR_FOOZ")] eq_refl).
Defined.

(** X11: the test [if not old_symbol or not new_symbol] of
    [rename_from_mapping_file] never fires: the line has been stripped
    before the arrow is looked for, so a line that still holds the arrow
    has a symbol on both sides, and the warning [Empty symbol on line]
    is never logged. *)
Theorem empty_symbol_test_is_dead line l : mapping_line line <> EmptySymbol l.
Proof. apply mapping_line_never_empty. Qed.

(** X12: in a dry run [rename_from_mapping_file] returns and leaves every
    file, the write record and the change log as they were, whatever the
    mapping file holds. *)
Theorem mapping_file_dry_run sed mapping_file root_dir st :
  dry_run st = true ->
  exists st', rename_from_mapping_file sed mapping_file root_dir st = (Ok tt, st')
              /\ same_files st st'.
Proof. apply rename_from_mapping_file_dry. Qed.

Lemma mapping_file_dry_run_witness :
  exists st', rename_from_mapping_file quiet_sed (txt "./mappings.txt") (txt ".")
                (start mapping_tree true) = (Ok tt, st')
              /\ same_files (start mapping_tree true) st'.
Proof.
  exact (mapping_file_dry_run quiet_sed (txt "./mappings.txt") (txt ".")
           (start mapping_tree true) eq_refl).
Defined.

(** X13: [find_files_to_process] sorts the files under the root by name
    alone: the Kconfig files are those named [Kconfig] or [Kconfig.*],
    the source files are the others named [*.c], [*.h] or
    [CMakeLists.txt]; a name that passes both tests, such as
    [Kconfig.c], is a Kconfig file, so with distinct paths no file is
    in both lists; and the Kconfig files are the ones the discovery
    scans. *)
Theorem files_are_sorted_by_name root_dir t :
  (forall path,
     In path (fst (find_files_to_process root_dir t)) <->
     exists e, In e t /\ below root_dir (e_dir e) = true /\
               is_kconfig (e_name e) = true /\ path = path_of e) /\
  (forall path,
     In path (snd (find_files_to_process root_dir t)) <->
     exists e, In e t /\ below root_dir (e_dir e) = true /\
               is_kconfig (e_name e) = false /\ is_source (e_name e) = true /\
               path = path_of e) /\
  fst (find_files_to_process root_dir t) = kconfig_paths root_dir t /\
  (NoDup (map path_of t) ->
   forall path, In path (fst (find_files_to_process root_dir t)) ->
                ~ In path (snd (find_files_to_process root_dir t))) /\
  (forall ext, is_kconfig (txt "Kconfig." ++ ext) = true).
Proof.
  split; [intros; apply kconfig_files_found|].
  split; [intros; apply source_files_found|].
  split; [reflexivity|].
  split; [intros Hn path; apply found_disjoint; exact Hn|].
  apply kconfig_name_wins.
Qed.

(** X14: for distinct symbols that all start with the old symbol, as the
    discovery returns them, the derived mapping set is, in order, each
    symbol paired with the new symbol followed by the symbol's rest; and
    deriving mappings back from the new names, from the new symbol to the
    old one, gives every pair inverted. *)
Theorem derived_mappings_invert old new subs :
  NoDup subs -> forallb (startswith old) subs = true ->
  derive_mappings old new subs
  = map (fun s => (s, new ++ skipn (length old) s)) subs /\
  derive_mappings new old (map snd (derive_mappings old new subs))
  = map (fun m => (snd m, fst m)) (derive_mappings old new subs).
Proof.
  intros Hn Hs. rewrite forallb_forall in Hs. split.
  - apply derive_mappings_exact; auto.
  - apply derive_mappings_inverse; auto.
Qed.

Lemma derived_mappings_invert_witness :
  derive_mappings FOO BAR_FOO [txt "FOO"; txt "FOOBAR"; txt "FOOZ"]
  = map (fun s => (s, BAR_FOO ++ skipn (length FOO) s))
        [txt "FOO"; txt "FOOBAR"; txt "FOOZ"] /\
  derive_mappings BAR_FOO FOO
    (map snd (derive_mappings FOO BAR_FOO [txt "FOO"; txt "FOOBAR"; txt "FOOZ"]))
  = map (fun m => (snd m, fst m))
        (derive_mappings FOO BAR_FOO [txt "FOO"; txt "FOOBAR"; txt "FOOZ"]).
Proof.
  apply (derived_mappings_invert FOO BAR_FOO [txt "FOO"; txt "FOOBAR"; txt "FOOZ"]).
  - repeat constructor; cbn [In]; intros H;
      repeat (destruct H as [H | H]; [discriminate H|]); exact H.
  - reflexivity.
Defined.



(** X16: with a new symbol that is not empty, holds no backslash and
    does not start with a digit, the Python part of [rename_symbol]
    raises nothing, whatever the old symbol and the tree: the names found
    by the discovery add only symbol characters to the new symbol, so
    every derived replacement is literal.  The call returns in a dry run,
    and in a real run when the environment of sed raises nothing that is
    not caught.  In a real run in which the version check ends in an
    exception the code does not catch, or the temporary script cannot be
    written, the exception leaves [rename_symbol] as soon as a definition
    and a source file are found. *)
Theorem literal_new_symbol_returns sed old new root_dir st :
  new <> [] -> template_safe new = true ->
  (dry_run st = true \/ sed_raises sed = false ->
   exists st', rename_symbol sed old new root_dir st = (Ok tt, st') /\
               dry_run st' = dry_run st) /\
  (dry_run st = false -> sed_raises sed = true ->
   (exists f content,
      In f (kconfig_paths root_dir (tree st)) /\ read_file f st = Some content /\
      defined_in old content <> []) ->
   snd (find_files_to_process root_dir (tree st)) <> [] ->
   exists st', rename_symbol sed old new root_dir st = (Raise, st')).
Proof.
  intros Hne Hn. split.
  - intros Hm. apply rename_symbol_total; auto.
  - intros Hd Hr Hdef Hsrc. apply rename_symbol_sed_raises; auto.
Qed.

Lemma literal_new_symbol_returns_witness :
  (dry_run (start mixed_tree false) = true \/ sed_raises no_sed = false ->
   exists st', rename_symbol no_sed (txt "FOO") (txt "BAR_FOO") (txt ".")
                 (start mixed_tree false) = (Ok tt, st') /\
               dry_run st' = dry_run (start mixed_tree false)) /\
  (dry_run (start mixed_tree false) = false -> sed_raises no_sed = true ->
   (exists f content,
      In f (kconfig_paths (txt ".") (tree (start mixed_tree false))) /\
      read_file f (start mixed_tree false) = Some content /\
      defined_in (txt "FOO") content <> []) ->
   snd (find_files_to_process (txt ".") (tree (start mixed_tree false))) <> [] ->
   exists st', rename_symbol no_sed (txt "FOO") (txt "BAR_FOO") (txt ".")
                 (start mixed_tree false) = (Raise, st')).
Proof.
  apply literal_new_symbol_returns; [discriminate|reflexivity].
Defined.

(** X17: [rename_from_mapping_file] returns when the new symbol of every
    mapping line of the file holds no backslash and does not start with a
    digit, in a dry run and, when the environment of sed raises nothing
    that is not caught, in a real run; an unreadable mapping file is
    reported and the call returns as well. *)
Theorem mapping_file_returns sed mapping_file root_dir st :
  dry_run st = true \/ sed_raises sed = false ->
  (forall content line o m,
     read_file mapping_file st = Some content -> In line (readlines content) ->
     mapping_line line = Mapping o m -> template_safe m = true) ->
  exists st', rename_from_mapping_file sed mapping_file root_dir st = (Ok tt, st').
Proof. apply rename_from_mapping_file_returns. Qed.

Lemma mapping_file_returns_witness :
  exists st', rename_from_mapping_file quiet_sed (txt "./mappings.txt") (txt ".")
                (start mapping_tree false) = (Ok tt, st').
Proof.
  apply mapping_file_returns; [right; reflexivity|].
  intros content line o m Hr Hl Hm.
  vm_compute in Hr. injection Hr as <-.
  vm_compute in Hl. destruct Hl as [<- | [<- | [<- | []]]];
    vm_compute in Hm; try discriminate.
  injection Hm as _ <-. reflexivity.
Defined.

(** X18: a new symbol that starts with two octal digits is taken without
    any error and mangles the definition.  The template is [\1] followed
    by the new symbol, so [\1] and the two digits are read as one octal
    escape: on a file whose only mention of the old symbol is its
    definition line, the keyword, the white space around it and the blank
    lines before it are lost, and the line holds the character of the
    escape followed by the rest of the new symbol. *)
Theorem octal_digits_mangle_definition old d1 d2 new pre w0 k w1 w2 rest :
  is_symbol old = true -> lit_eq true (txt "depends") old = false ->
  is_octdigit d1 = true -> is_octdigit d2 = true ->
  forallb (fun c => negb (ascii_eqb c backslash)) new = true ->
  definition_context pre w0 k w1 w2 rest = true ->
  word_occurs true old
    ((pre ++ w0 ++ k ++ w1) ++ (octal_escape d1 d2 :: new) ++ w2 ++ rest) = false ->
  exists kept lost,
    pre = kept ++ lost /\ forallb is_space lost = true /\
    rename_all [(old, d1 :: d2 :: new)] (with_definition pre w0 k w1 old w2 rest)
    = Some (kept ++ (octal_escape d1 d2 :: new) ++ w2 ++ rest).
Proof. apply definition_mangled. Qed.

Lemma octal_digits_mangle_definition_witness :
  exists kept lost,
    lines [txt "# x"; []] = kept ++ lost /\ forallb is_space lost = true /\
    rename_all [(txt "FOO", txt "64BIT_FOO")]
      (with_definition (lines [txt "# x"; []]) (txt "  ") (txt "menuconfig") [sp]
         (txt "FOO") [] (nl :: tab :: txt "bool"))
    = Some (kept ++ (octal_escape "6" "4" :: txt "BIT_FOO") ++ [] ++ nl :: tab :: txt "bool").
Proof.
  apply (octal_digits_mangle_definition (txt "FOO") "6"%char "4"%char (txt "BIT_FOO")
           (lines [txt "# x"; []]) (txt "  ") (txt "menuconfig") [sp] []
           (nl :: tab :: txt "bool")); reflexivity.
Defined.
